(** * Cloudreve: event hub and AES-256-CTR streaming cryptor

    A shallow embedding of
    - package [eventhub], [event.go]: the event algebra, [DebounceEvents];
    - package [eventhub]: the [subscriber] and the [eventHub] (the topic
      registry, [Subscribe], [Unsubscribe], the sweeper);
    - package [encrypt]: the key wrapping and the seekable cursor [AES256CTR];
    - package [encrypt]: the master key vaults and [GenerateMetadata];
    - package [dbfs], [events.go]: the emitters of file events;
    with the properties of the design document proved or refuted on it, and
    further properties of the code. *)

From stdpp Require Import gmap strings list fin_maps sorting.
From Stdlib Require Import ZArith Lia.

Local Open Scope Z_scope.

(* ===================================================================== *)
(** * Event algebra ([event.go])                                          *)
(* ===================================================================== *)

Module EventAlgebra.

(** [type EventType string] *)
Definition EventType := string.

Definition EventTypeCreate : EventType := "create".
Definition EventTypeModify : EventType := "modify".
Definition EventTypeRename : EventType := "rename".
Definition EventTypeDelete : EventType := "delete".

(** [type Event struct { Type; FileID; From; To }]. [Type] and [From] are
    reserved words here, hence the [E] prefix on those two fields. *)
Record Event := mkEvent {
  EType  : EventType;
  FileID : string;
  EFrom  : string;
  To     : string;
}.

#[global] Instance Event_eq_dec : EqDecision Event.
Proof. solve_decision. Defined.

(** [type eventState struct { baseType; originalSrc; currentDst }] *)
Record eventState := mkState {
  baseType    : EventType;
  originalSrc : string;
  currentDst  : string;
}.

#[global] Instance eventState_eq_dec : EqDecision eventState.
Proof. solve_decision. Defined.

(** The loop
[[
  for i, id := range order { if id == e.FileID { order = append(order[:i], order[i+1:]...); break } }
]]
    removes the first occurrence of the id. *)
Fixpoint remove_from_order (id : string) (order : list string) : list string :=
  match order with
  | [] => []
  | x :: rest => if decide (x = id) then rest else x :: remove_from_order id rest
  end.

(** The body of the [for _, e := range in] loop, on the pair
    ([states], [order]). [state] is a pointer into the map, so an assignment
    to one of its fields is an update of the map entry. *)
Definition step (acc : gmap string eventState * list string) (e : Event)
  : gmap string eventState * list string :=
  let '(states, order) := acc in
  match states !! FileID e with
  | None =>
      (<[FileID e := mkState (EType e) (EFrom e) (To e)]> states,
       order ++ [FileID e])
  | Some state =>
      if decide (EType e = EventTypeCreate) then
        if decide (baseType state = EventTypeDelete)
        then (<[FileID e := mkState EventTypeCreate (EFrom e) EmptyString]> states, order)
        else (states, order)
      else if decide (EType e = EventTypeModify) then
        (states, order)
      else if decide (EType e = EventTypeRename) then
        if decide (baseType state = EventTypeCreate) then
          (<[FileID e := mkState (baseType state) (To e) EmptyString]> states, order)
        else if decide (baseType state = EventTypeModify) then
          (<[FileID e := mkState EventTypeRename (EFrom e) (To e)]> states, order)
        else if decide (baseType state = EventTypeRename) then
          if decide (originalSrc state = To e)
          then (delete (FileID e) states, remove_from_order (FileID e) order)
          else (<[FileID e := mkState (baseType state) (originalSrc state) (To e)]> states,
                order)
        else (states, order)
      else if decide (EType e = EventTypeDelete) then
        if decide (baseType state = EventTypeCreate) then
          (delete (FileID e) states, remove_from_order (FileID e) order)
        else if decide (baseType state = EventTypeModify) then
          (<[FileID e := mkState EventTypeDelete (EFrom e) EmptyString]> states, order)
        else if decide (baseType state = EventTypeRename) then
          (<[FileID e := mkState EventTypeDelete (EFrom e) EmptyString]> states, order)
        else (states, order)
      else (states, order)
  end.

(** The accumulator after the whole input. *)
Definition run (xs : list Event) : gmap string eventState * list string :=
  fold_left step xs (∅, []).

(** The [switch state.baseType] of the output loop. *)
Definition emit (fileID : string) (state : eventState) : option Event :=
  if decide (baseType state = EventTypeCreate) then
    Some (mkEvent EventTypeCreate fileID (originalSrc state) EmptyString)
  else if decide (baseType state = EventTypeModify) then
    Some (mkEvent EventTypeModify fileID (originalSrc state) EmptyString)
  else if decide (baseType state = EventTypeRename) then
    Some (mkEvent EventTypeRename fileID (originalSrc state) (currentDst state))
  else if decide (baseType state = EventTypeDelete) then
    Some (mkEvent EventTypeDelete fileID (originalSrc state) EmptyString)
  else None.

(** The output loop [for _, fileID := range order]. *)
Fixpoint build (states : gmap string eventState) (order : list string) : list Event :=
  match order with
  | [] => []
  | fileID :: rest =>
      match states !! fileID with
      | None => build states rest
      | Some state =>
          match emit fileID state with
          | Some ev => ev :: build states rest
          | None => build states rest
          end
      end
  end.

(** [func DebounceEvents(in []*Event) []*Event]. The result is read as the
    sequence of event values ([nil] and the empty slice are both []). *)
Definition DebounceEvents (xs : list Event) : list Event :=
  match xs with
  | [] => []
  | _ => let '(states, order) := run xs in build states order
  end.

(** ** Notions used to state the ordering property *)

(** Event [i] of [xs] introduces an accumulator entry for [f]: it is an
    event of [f] that finds no entry for [f] (the first event of [f], or the
    first one after the entry of [f] was dropped). *)
Definition introduces (xs : list Event) (f : string) (i : nat) : bool :=
  match xs !! i with
  | Some e => bool_decide (FileID e = f)
              && bool_decide ((run (take i xs)).1 !! f = None)
  | None => false
  end.

(** Index of the event that introduced the entry of [f] that is live at
    the end of [xs], when there is one. *)
Definition birth (xs : list Event) (f : string) : option nat :=
  last (filter (λ i, introduces xs f i = true) (seq 0 (length xs))).

(** Index of the first event of [f] in [xs]. *)
Fixpoint first_appearance (xs : list Event) (f : string) : option nat :=
  match xs with
  | [] => None
  | e :: rest => if decide (FileID e = f) then Some 0%nat
                 else S <$> first_appearance rest f
  end.

(** [f] was introduced before [g]. *)
Definition born_before (xs : list Event) (f g : string) : Prop :=
  ∃ a b : nat, birth xs f = Some a ∧ birth xs g = Some b ∧ (a < b)%nat.

(** The output [out] lists its events in the order in which their entries
    were introduced. *)
Definition ordered_by_introduction (xs out : list Event) : Prop :=
  ∀ (i j : nat) e1 e2,
    out !! i = Some e1 → out !! j = Some e2 → (i < j)%nat →
    born_before xs (FileID e1) (FileID e2).

(** The output [out] lists its events in the order of first appearance of
    their file in the input. *)
Definition ordered_by_first_appearance (xs out : list Event) : Prop :=
  ∀ (i j : nat) e1 e2,
    out !! i = Some e1 → out !! j = Some e2 → (i < j)%nat →
    ∃ a b : nat, first_appearance xs (FileID e1) = Some a
               ∧ first_appearance xs (FileID e2) = Some b ∧ (a < b)%nat.

(** An input in which the entry of file A is dropped and re-introduced. *)
Definition reintroduced : list Event :=
  [ mkEvent "create" "A" "/a" EmptyString; mkEvent "create" "B" "/b" EmptyString;
    mkEvent "delete" "A" "/a" EmptyString; mkEvent "create" "A" "/a" EmptyString ].

(** ** Invariants of the accumulator *)

(** The keys of [states] are the elements of [order], each once. *)
Definition acc_ok (acc : gmap string eventState * list string) : Prop :=
  NoDup acc.2 ∧ ∀ id, id ∈ acc.2 ↔ is_Some (acc.1 !! id).

(** The entry a first event creates. *)
Definition state_of (e : Event) : eventState := mkState (EType e) (EFrom e) (To e).

(** An event that the output loop prints back unchanged. *)
Definition normal (e : Event) : Prop := emit (FileID e) (state_of e) = Some e.

(** [order] is sorted by introduction and every element has one. *)
Definition order_inv (xs : list Event) : Prop :=
  StronglySorted (born_before xs) (run xs).2
  ∧ Forall (λ f, is_Some (birth xs f)) (run xs).2.

End EventAlgebra.

(* ===================================================================== *)
(** * AES-256-CTR cryptor ([encrypt.go], [aes256ctr.go])                  *)
(* ===================================================================== *)

Module Encrypt.

(** Go errors: [io.EOF] is a distinguished value, compared with [==]. *)
Inductive error :=
| EOF
| Err (msg : string).

#[global] Instance error_eq_dec : EqDecision error.
Proof. solve_decision. Defined.

(** [int64] arithmetic wraps around. *)
Definition int64 (x : Z) : Z := (x + 2 ^ 63) mod 2 ^ 64 - 2 ^ 63.
(** [uint64] arithmetic wraps around. *)
Definition uint64 (x : Z) : Z := x mod 2 ^ 64.

Definition MaxInt64 : Z := 2 ^ 63 - 1.

(** [io.SeekStart], [io.SeekCurrent], [io.SeekEnd] *)
Definition SeekStart : Z := 0.
Definition SeekCurrent : Z := 1.
Definition SeekEnd : Z := 2.

(** ** [incrementCounter]

    A [[]byte] is a list of integers in [0, 256). The counter is always the
    16-byte slice made by [initCipherStream]; an index is read with [nth]. *)

(** The inner loop [for j := i - 1; j >= 0 && carry > 0; j--], entered with
    [j1 = j + 1]. *)
Fixpoint carry_loop (j1 : nat) (counter : list Z) (carry : Z) : list Z :=
  match j1 with
  | O => counter
  | S j =>
      if 0 <? carry then
        let sum := uint64 (nth j counter 0 + carry) in
        carry_loop j (<[j := Z.land sum 255]> counter) (Z.shiftr sum 8)
      else counter
  end.

(** The outer loop [for i := 15; i >= 0 && blocks > 0; i--], entered with
    [i1 = i + 1]. *)
Fixpoint incr_loop (i1 : nat) (counter : list Z) (blocks : Z) : list Z :=
  match i1 with
  | O => counter
  | S i =>
      if 0 <? blocks then
        let sum := uint64 (nth i counter 0 + Z.land blocks 255) in
        let counter1 := <[i := Z.land sum 255]> counter in
        let blocks' := Z.shiftr blocks 8 in
        let counter2 :=
          if 255 <? sum then carry_loop i counter1 (Z.shiftr sum 8) else counter1 in
        incr_loop i counter2 blocks'
      else counter
  end.

(** [func incrementCounter(counter []byte, blocks int64)] *)
Definition incrementCounter (counter : list Z) (blocks : Z) : list Z :=
  incr_loop 16 counter blocks.

(** The value of a byte slice read as a big-endian integer. *)
Fixpoint be_val (l : list Z) : Z :=
  match l with
  | [] => 0
  | b :: rest => b * 256 ^ Z.of_nat (length rest) + be_val rest
  end.

Definition is_bytes (l : list Z) : Prop := Forall (λ b, 0 ≤ b < 256) l.

(** ** [crypto/aes] and [crypto/cipher] (Go standard library)

    The block function of AES is a parameter, [aes_encrypt key block]. CTR
    mode is the library's: the key stream is the concatenation of the
    encryptions of the successive counter values, the counter being
    incremented as a big-endian integer of 16 bytes, wrapping around. *)

(** [aes.NewCipher]: the key must have 16, 24 or 32 bytes. *)
Definition NewCipher (key : list Z) : option (list Z) :=
  if decide (length key = 16%nat ∨ length key = 24%nat ∨ length key = 32%nat)
  then Some key else None.

(** The library's counter increment
[[
  for i := len(x.ctr) - 1; i >= 0; i-- { x.ctr[i]++; if x.ctr[i] != 0 { break } }
]] *)
Fixpoint ctr_inc_loop (i1 : nat) (ctr : list Z) : list Z :=
  match i1 with
  | O => ctr
  | S i =>
      let b := (nth i ctr 0 + 1) mod 256 in
      if b =? 0 then ctr_inc_loop i (<[i := b]> ctr) else <[i := b]> ctr
  end.

Definition ctr_next (ctr : list Z) : list Z := ctr_inc_loop (length ctr) ctr.

(** A [cipher.Stream] made by [cipher.NewCTR]: the block cipher's key, the
    counter of the current block and the number of key-stream bytes of that
    block already used. *)
Record ctrStream := mkStream {
  ctr_key : list Z;
  ctr_counter : list Z;
  ctr_used : nat;
}.

#[global] Instance ctrStream_eq_dec : EqDecision ctrStream.
Proof. solve_decision. Defined.

Definition NewCTR (block : list Z) (iv : list Z) : ctrStream := mkStream block iv 0.

(** [types.EncryptMetadata] *)
Record EncryptMetadata := mkMetadata {
  Algorithm : string;
  Key : list Z;
  KeyPlainText : list Z;
  IV : list Z;
}.

Definition CipherAES256CTR : string := "aes-256-ctr".

(** The encrypted data source: an [io.ReadCloser] that may also be an
    [io.Seeker]. [S] is the state of the object behind the interface;
    [src_Read s n] is [Read(p)] with [len(p) = n] and returns the bytes
    written to [p[:n']], the error and the new state. *)
Class Source (S : Type) := {
  src_Read : S → nat → list Z * option error * S;
  src_Seek : S → Z → Z → Z * option error * S;
}.

(** An in-memory source positioned on a byte slice, as [bytes.Reader]. *)
Record bytesReader := mkReader {
  rd_data : list Z;
  rd_off : Z;
}.

Definition bytesReader_Read (r : bytesReader) (n : nat) : list Z * option error * bytesReader :=
  if Z.of_nat (length (rd_data r)) <=? rd_off r then ([], Some EOF, r)
  else
    let out := take n (drop (Z.to_nat (rd_off r)) (rd_data r)) in
    (out, None, mkReader (rd_data r) (rd_off r + Z.of_nat (length out))).

Definition bytesReader_Seek (r : bytesReader) (offset whence : Z) : Z * option error * bytesReader :=
  let target :=
    if whence =? SeekStart then Some offset
    else if whence =? SeekCurrent then Some (int64 (rd_off r + offset))
    else if whence =? SeekEnd then Some (int64 (Z.of_nat (length (rd_data r)) + offset))
    else None in
  match target with
  | None => (0, Some (Err "bytes.Reader.Seek: invalid whence"), r)
  | Some abs =>
      if abs <? 0 then (0, Some (Err "bytes.Reader.Seek: negative position"), r)
      else (abs, None, mkReader (rd_data r) abs)
  end.

#[global] Instance bytesReader_Source : Source bytesReader :=
  {| src_Read := bytesReader_Read; src_Seek := bytesReader_Seek |}.

(** A source that answers its successive reads from a script and cannot
    seek: a test double for a source whose read fails part-way. *)
Definition scriptedReader := list (list Z * option error).

Definition scriptedReader_Read (s : scriptedReader) (n : nat)
  : list Z * option error * scriptedReader :=
  match s with
  | [] => ([], Some EOF, [])
  | (data, err) :: rest => (take n data, err, rest)
  end.

#[global] Instance scriptedReader_Source : Source scriptedReader :=
  {| src_Read := scriptedReader_Read;
     src_Seek := λ s _ _, (0, Some (Err "not seekable"), s) |}.

Section Cryptor.

(** The AES block function: key, 16-byte block, 16-byte result. *)
Variable aes_encrypt : list Z → list Z → list Z.

(** [XORKeyStream(dst, src)]: each byte is combined with the next byte of
    the key stream; the result is the stream after the call and [dst]. *)
Fixpoint XORKeyStream (st : ctrStream) (src : list Z) : ctrStream * list Z :=
  match src with
  | [] => (st, [])
  | b :: rest =>
      let k := nth (ctr_used st) (aes_encrypt (ctr_key st) (ctr_counter st)) 0 in
      let st' :=
        if decide (S (ctr_used st) = 16%nat)
        then mkStream (ctr_key st) (ctr_next (ctr_counter st)) 0
        else mkStream (ctr_key st) (ctr_counter st) (S (ctr_used st)) in
      let '(st'', out) := XORKeyStream st' rest in
      (st'', Z.lxor b k :: out)
  end.

(** The master key vault: [GetMasterKey]. *)
Variable GetMasterKey : option (list Z).

(** [DecryptWithMasterKey]: input [[16-byte IV] + [encrypted data]]. *)
Definition DecryptWithMasterKey (masterKey encryptedData : list Z) : option (list Z) :=
  if decide (length encryptedData < 16)%nat then None
  else
    match NewCipher masterKey with
    | None => None
    | Some block =>
        Some (XORKeyStream (NewCTR block (take 16 encryptedData)) (drop 16 encryptedData)).2
    end.

(** [DecriptKey] *)
Definition DecriptKey (encryptedKey : list Z) : option (list Z) :=
  match GetMasterKey with
  | None => None
  | Some masterKey => DecryptWithMasterKey masterKey encryptedKey
  end.

Context {S : Type} `{!Source S}.

(** [type AES256CTR struct]. [src] is [None] for a nil source; [seeker] tells
    whether the seeker is set, and the seeker is the source object itself;
    [stream] and [metadata] are [None] for nil. *)
Record AES256CTR := mkCryptor {
  src : option S;
  seeker : bool;
  stream : option ctrStream;
  metadata : option EncryptMetadata;
  counterOffset : Z;
  pos : Z;
  size : Z;
  eof : bool;
}.

(** [NewAES256CTR] *)
Definition NewAES256CTR : AES256CTR :=
  mkCryptor None false None None 0 0 (-1) false.

(** [LoadMetadata]; the argument is [None] for a nil pointer. *)
Definition LoadMetadata (e : AES256CTR) (encryptedMetadata : option EncryptMetadata)
  : option error * AES256CTR :=
  match encryptedMetadata with
  | None => (Some (Err "encryption metadata is nil"), e)
  | Some m =>
      if decide (Algorithm m ≠ CipherAES256CTR) then
        (Some (Err "unsupported algorithm"), e)
      else if decide (0 < length (KeyPlainText m))%nat then
        (None, mkCryptor (src e) (seeker e) (stream e) (Some m)
                 (counterOffset e) (pos e) (size e) (eof e))
      else
        match DecriptKey (Key m) with
        | None => (Some (Err "failed to decrypt encryption key"), e)
        | Some decryptedKey =>
            (None, mkCryptor (src e) (seeker e) (stream e)
                     (Some (mkMetadata (Algorithm m) [] decryptedKey (IV m)))
                     (counterOffset e) (pos e) (size e) (eof e))
        end
  end.

(** [counter := make([]byte, 16); copy(counter, iv)] *)
Definition copy_iv (iv : list Z) : list Z :=
  take 16 iv ++ replicate (16 - length iv) 0.

(** [initCipherStream], for the metadata [m] the cryptor holds: the new
    value of [e.stream], or the error of [aes.NewCipher]. Go's [/] and [%]
    truncate toward zero. *)
Definition initCipherStream (m : EncryptMetadata) (absolutePosition : Z)
  : option ctrStream :=
  match NewCipher (KeyPlainText m) with
  | None => None
  | Some block =>
      let counter := copy_iv (IV m) in
      let counter :=
        if 0 <? absolutePosition
        then incrementCounter counter (Z.quot absolutePosition 16)
        else counter in
      let st := NewCTR block counter in
      let offsetInBlock := Z.rem absolutePosition 16 in
      if 0 <? offsetInBlock
      then Some (XORKeyStream st (replicate (Z.to_nat offsetInBlock) 0)).1
      else Some st
  end.

(** [SetSource(src, seeker, size, counterOffset)] *)
Definition SetSource (e : AES256CTR) (s : S) (seekable : bool) (sz counterOff : Z)
  : option error * AES256CTR :=
  match metadata e with
  | None => (Some (Err "metadata not loaded, call LoadMetadata first"), e)
  | Some m =>
      let e1 := mkCryptor (Some s) seekable (stream e) (metadata e) counterOff 0 sz false in
      match initCipherStream m counterOff with
      | None => (Some (Err "failed to create AES cipher"), e1)
      | Some st =>
          (None, mkCryptor (src e1) (seeker e1) (Some st) (metadata e1)
                   (counterOffset e1) (pos e1) (size e1) (eof e1))
      end
  end.

(** [Read(p)] with [len(p) = n]. The result is [p[:n']], the error and the
    cryptor after the call; [None] is a nil dereference of [e.stream]. *)
Definition Read (e : AES256CTR) (n : nat) : option (list Z * option error * AES256CTR) :=
  match src e with
  | None => Some ([], Some (Err "source not set, call SetSource first"), e)
  | Some s =>
      if eof e then Some ([], Some EOF, e)
      else
        let '(buf, err, s') := src_Read s n in
        let e1 := mkCryptor (Some s') (seeker e) (stream e) (metadata e)
                    (counterOffset e) (pos e) (size e) (eof e) in
        let decrypt (e2 : AES256CTR) :=
          if decide (0 < length buf)%nat then
            match stream e2 with
            | None => None
            | Some st =>
                let '(st', out) := XORKeyStream st buf in
                Some (out, err,
                      mkCryptor (src e2) (seeker e2) (Some st') (metadata e2)
                        (counterOffset e2) (int64 (pos e2 + Z.of_nat (length buf)))
                        (size e2) (eof e2))
            end
          else Some (buf, err, e2) in
        match err with
        | Some EOF =>
            let e2 := mkCryptor (src e1) (seeker e1) (stream e1) (metadata e1)
                        (counterOffset e1) (pos e1) (size e1) true in
            if decide (length buf = 0%nat) then Some ([], Some EOF, e2)
            else decrypt e2
        | Some _ => Some (buf, err, e1)
        | None => decrypt e1
        end
  end.

(** The position computed by the [switch whence] of [Seek], or the error. *)
Definition Seek_newPos (e : AES256CTR) (offset whence : Z) : error + Z :=
  if whence =? SeekStart then inr offset
  else if whence =? SeekCurrent then inr (int64 (pos e + offset))
  else if whence =? SeekEnd then
    if size e <? 0 then inl (Err "size unknown, call SetSize before using SeekEnd")
    else inr (int64 (size e + offset))
  else inl (Err "invalid whence").

(** [Seek(offset, whence)] *)
Definition Seek (e : AES256CTR) (offset whence : Z) : Z * option error * AES256CTR :=
  match metadata e with
  | None => (0, Some (Err "metadata not loaded, call LoadMetadata first"), e)
  | Some m =>
      match src e with
      | None => (0, Some (Err "source not set, call SetSource first"), e)
      | Some s =>
          if negb (seeker e) then (0, Some (Err "source does not support seeking"), e)
          else
            match Seek_newPos e offset whence with
            | inl err => (0, Some err, e)
            | inr newPos =>
                if newPos <? 0 then (0, Some (Err "negative position"), e)
                else
                  let absPos := int64 (counterOffset e + newPos) in
                  let '(_, err, s') := src_Seek s absPos SeekStart in
                  let e1 := mkCryptor (Some s') (seeker e) (stream e) (metadata e)
                              (counterOffset e) (pos e) (size e) (eof e) in
                  match err with
                  | Some _ => (0, Some (Err "failed to seek source"), e1)
                  | None =>
                      match initCipherStream m absPos with
                      | None => (0, Some (Err "failed to reinitialize cipher stream"), e1)
                      | Some st =>
                          (newPos, None,
                           mkCryptor (src e1) (seeker e1) (Some st) (metadata e1)
                             (counterOffset e1) newPos (size e1) false)
                      end
                  end
            end
      end
  end.

(** The structural errors of [Seek]. *)
Definition Seek_structural_error (e : AES256CTR) (offset whence : Z) : Prop :=
  metadata e = None ∨ src e = None ∨ seeker e = false
  ∨ (whence ≠ SeekStart ∧ whence ≠ SeekCurrent ∧ whence ≠ SeekEnd)
  ∨ (whence = SeekEnd ∧ size e < 0)
  ∨ (∃ newPos, Seek_newPos e offset whence = inr newPos ∧ newPos < 0).


End Cryptor.

(** ** The round trip of the design document, on an in-memory object *)

Section RoundTrip.

Variable aes_encrypt : list Z → list Z → list Z.
Variable GetMasterKey : option (list Z).

(** A cryptor with the metadata [m] loaded and the source [r] bound. *)
Definition bound_cryptor (m : EncryptMetadata) (r : bytesReader) (seekable : bool)
    (sz counterOff : Z) : option (AES256CTR (S := bytesReader)) :=
  match LoadMetadata aes_encrypt GetMasterKey NewAES256CTR (Some m) with
  | (Some _, _) => None
  | (None, e1) =>
      match SetSource aes_encrypt e1 r seekable sz counterOff with
      | (Some _, _) => None
      | (None, e2) => Some e2
      end
  end.

(** The bytes of one [Read(p)], [len(p) = n]. *)
Definition read_bytes (e : AES256CTR (S := bytesReader)) (n : nat) : option (list Z) :=
  match Read aes_encrypt e n with
  | Some (out, _, _) => Some out
  | None => None
  end.

(** [encrypt(P)]: the whole plaintext read through a cryptor. *)
Definition encrypt (m : EncryptMetadata) (P : list Z) : option (list Z) :=
  match bound_cryptor m (mkReader P 0) true (Z.of_nat (length P)) 0 with
  | None => None
  | Some e => read_bytes e (length P)
  end.

(** [decrypt_seek(C, start = s, len = n)]: bind the whole ciphertext,
    [Seek(s, io.SeekStart)], then read [n] bytes. *)
Definition decrypt_seek (m : EncryptMetadata) (C : list Z) (s : Z) (n : nat)
  : option (list Z) :=
  match bound_cryptor m (mkReader C 0) true (Z.of_nat (length C)) 0 with
  | None => None
  | Some e =>
      match Seek aes_encrypt e s SeekStart with
      | (_, Some _, _) => None
      | (_, None, e') => read_bytes e' n
      end
  end.

(** The sliced variant: bind the ciphertext from byte [s] on with
    [counterOffset = s], then read [n] bytes. *)
Definition decrypt_slice (m : EncryptMetadata) (C : list Z) (s : Z) (n : nat)
  : option (list Z) :=
  match bound_cryptor m (mkReader (drop (Z.to_nat s) C) 0) false (-1) s with
  | None => None
  | Some e => read_bytes e n
  end.

(** The ranged read on a seekable source: the whole ciphertext is bound
    with its reader standing at byte [c] and [counterOffset = c]; then
    [Seek(s, io.SeekStart)], which moves the source to [c + s], and a read
    of [n] bytes. *)
Definition decrypt_seek_offset (m : EncryptMetadata) (C : list Z) (c s : Z) (n : nat)
  : option (list Z) :=
  match bound_cryptor m (mkReader C c) true (-1) c with
  | None => None
  | Some e =>
      match Seek aes_encrypt e s SeekStart with
      | (_, Some _, _) => None
      | (_, None, e') => read_bytes e' n
      end
  end.

(** The key stream by absolute byte position: byte [a mod 16] of the
    encryption of the counter advanced [a / 16] times. *)
Definition keystream_byte (K iv : list Z) (a : nat) : Z :=
  nth (a mod 16)%nat (aes_encrypt K (Nat.iter (a / 16)%nat ctr_next iv)) 0.

Fixpoint xor_from (K iv : list Z) (a : nat) (l : list Z) : list Z :=
  match l with
  | [] => []
  | b :: rest => Z.lxor b (keystream_byte K iv a) :: xor_from K iv (S a) rest
  end.

(** The stream that stands at absolute byte position [a]. *)
Definition state_at (K iv : list Z) (a : nat) : ctrStream :=
  mkStream K (Nat.iter (a / 16)%nat ctr_next iv) (a mod 16)%nat.

End RoundTrip.

(** The modulus of the 16-byte counter. *)
Definition M128 : Z := 2 ^ 128.

(** ** Sample inputs *)

(** A stand-in for the AES block function, to run the model on concrete
    inputs: every byte of the block is mixed with its index and the key. *)
Definition toy_block (k b : list Z) : list Z :=
  imap (λ i x, (x * 7 + 13 + Z.of_nat i * 31 + nth 0 k 0) mod 256) b.

Definition sample_key : list Z := replicate 32 5.
Definition sample_iv : list Z := replicate 15 255 ++ [254].
Definition sample_metadata : EncryptMetadata :=
  mkMetadata CipherAES256CTR [] sample_key sample_iv.
Definition sample_plaintext : list Z := (λ i, Z.of_nat i) <$> seq 0 40.


End Encrypt.

(* ===================================================================== *)
(** * Subscribers and the event hub ([subscriber.go], [eventhub.go])      *)
(* ===================================================================== *)

Module EventHub.
Import EventAlgebra.

(** [time.Duration] in nanoseconds. *)
Definition Second : Z := 1000000000.
Definition Hour : Z := 3600 * Second.

Definition bufSize : nat := 16.
Definition cleanupPeriod : Z := 1 * Hour.
Definition debounceDelay : Z := 5 * Second.
Definition userCacheTTL : Z := 1 * Hour.
Definition offlineMaxAge : Z := 14 * 24 * Hour.

(** A [time.Time] is the number of nanoseconds since the zero time, so
    [IsZero] is equality with 0. [time.Since(t)] is [now - t], saturated to
    the range of [time.Duration]. *)
Definition maxDuration : Z := 2 ^ 63 - 1.
Definition minDuration : Z := - 2 ^ 63.

Definition Since (now t : Z) : Z :=
  if maxDuration <? now - t then maxDuration
  else if now - t <? minDuration then minDuration
  else now - t.

(** [ent.User], by its identifier. *)
Record User := mkUser { user_ID : Z }.

(** A row of the durable store ([ent.FsEvent]): the owning user, the
    subscriber and the serialized event. The JSON text of an [Event] is
    represented by the event it encodes and decodes to. *)
Record FsEvent := mkFsEvent {
  fe_user : Z;
  fe_subscriber : string;
  fe_event : Event;
}.

(** The durable store behind [inventory.FsEventClient]: its rows, and
    whether the database currently fails every statement. *)
Record fsEventStore := mkStore {
  rows : list FsEvent;
  failing : bool;
}.

(** [FsEventClient.Create(ctx, uid, subscriberId, events...)] *)
Definition Create (st : fsEventStore) (uid : Z) (subscriberId : string)
    (events : list Event) : bool * fsEventStore :=
  if failing st then (false, st)
  else (true, mkStore (rows st ++ (mkFsEvent uid subscriberId <$> events)) (failing st)).

(** [FsEventClient.DeleteBySubscriber(ctx, subscriberId)] *)
Definition DeleteBySubscriber (st : fsEventStore) (subscriberId : string)
  : bool * fsEventStore :=
  if failing st then (false, st)
  else (true, mkStore (filter (λ r, fe_subscriber r ≠ subscriberId) (rows st)) (failing st)).

(** [FsEventClient.DeleteAll(ctx)] *)
Definition DeleteAll (st : fsEventStore) : bool * fsEventStore :=
  if failing st then (false, st) else (true, mkStore [] (failing st)).

(** [FsEventClient.TakeBySubscriber(ctx, subscriberId, userId)]: the rows of
    that subscriber and user, which are deleted; [None] is the error. *)
Definition TakeBySubscriber (st : fsEventStore) (subscriberId : string) (userId : Z)
  : option (list FsEvent) * fsEventStore :=
  if failing st then (None, st)
  else
    (Some (filter (λ r, fe_subscriber r = subscriberId ∧ fe_user r = userId) (rows st)),
     mkStore (filter (λ r, ¬ (fe_subscriber r = subscriberId ∧ fe_user r = userId)) (rows st))
             (failing st)).

(** [type subscriber struct]. [ch] is the content of the buffered channel
    (capacity [bufSize]) and [ch_closed] whether it was closed; [timer] is
    the time at which the pending debounce timer fires, [None] for nil;
    [ownerCached] is [None] for a nil pointer. *)
Record subscriber := mkSub {
  id : string;
  uid : Z;
  ch : list Event;
  ch_closed : bool;
  online : bool;
  offlineSince : Z;
  buffer : list Event;
  timer : option Z;
  ownerCached : option User;
  cachedAt : Z;
  closed : bool;
}.

(** What an operation on a subscriber gives: the subscriber and the store
    after it, or a run-time panic. *)
Inductive outcome (A : Type) :=
| Done (a : A)
| Panic (msg : string).
Arguments Done {A} a.
Arguments Panic {A} msg.

Section Hub.

(** [inventory.IsAnonymousUser] *)
Variable IsAnonymousUser : User → bool.
(** [uuid.FromStringOrNil] *)
Variable FromStringOrNil : string → string.
(** [userClient.GetLoginUserByID]; [None] is the error. *)
Variable GetLoginUserByID : Z → option User.

(** [newSubscriber(ctx, id, ...)]; [ctx_user] is [inventory.UserFromContext(ctx)],
    [None] for nil. [None] is the error "user not found". *)
Definition newSubscriber (ctx_user : option User) (sid : string) (now : Z)
  : option subscriber :=
  match ctx_user with
  | None => None
  | Some user =>
      if IsAnonymousUser user then None
      else Some (mkSub sid (user_ID user) [] false true 0 [] None (Some user) now false)
  end.

(** [publishLocked] *)
Definition publishLocked (s : subscriber) (evt : Event) (now : Z) : subscriber :=
  mkSub (id s) (uid s) (ch s) (ch_closed s) (online s) (offlineSince s)
        (buffer s ++ [evt]) (Some (now + debounceDelay))
        (ownerCached s) (cachedAt s) (closed s).

(** [Publish] *)
Definition Publish (s : subscriber) (evt : Event) (now : Z) : subscriber :=
  if closed s then s else publishLocked s evt now.

(** [select { case s.ch <- evt: default: }]: the event is queued when the
    channel has room and dropped otherwise. *)
Definition try_send (c : list Event) (evt : Event) : list Event :=
  if decide (length c < bufSize)%nat then c ++ [evt] else c.

(** [flushLocked]. Offline, the buffer is persisted under
    [s.ownerCached.ID], a nil dereference when the owner cache is nil. *)
Definition flushLocked (s : subscriber) (st : fsEventStore)
  : outcome (subscriber * fsEventStore) :=
  if decide (length (buffer s) = 0%nat) then Done (s, st)
  else if closed s then Done (s, st)
  else if negb (online s) then
    match ownerCached s with
    | None => Panic "nil pointer dereference: s.ownerCached.ID"
    | Some owner =>
        let '(_, st') := Create st (user_ID owner) (FromStringOrNil (id s)) (buffer s) in
        Done (mkSub (id s) (uid s) (ch s) (ch_closed s) (online s) (offlineSince s)
                    [] None (ownerCached s) (cachedAt s) (closed s), st')
    end
  else
    let debouncedEvents := DebounceEvents (buffer s) in
    Done (mkSub (id s) (uid s) (fold_left try_send debouncedEvents (ch s)) (ch_closed s)
                (online s) (offlineSince s) [] None (ownerCached s) (cachedAt s) (closed s),
          st).

(** [flush], the callback of the debounce timer. *)
Definition flush (s : subscriber) (st : fsEventStore) : outcome (subscriber * fsEventStore) :=
  flushLocked s st.

(** [Stop] *)
Definition Stop (s : subscriber) (st : fsEventStore) : outcome (subscriber * fsEventStore) :=
  flushLocked
    (mkSub (id s) (uid s) (ch s) (ch_closed s) (online s) (offlineSince s)
           (buffer s) None (ownerCached s) (cachedAt s) (closed s)) st.

(** [setOnline] *)
Definition setOnline (s : subscriber) (st : fsEventStore) (now : Z)
  : subscriber * fsEventStore :=
  if closed s then (s, st)
  else
    let s1 := mkSub (id s) (uid s) (ch s) (ch_closed s) true 0
                    (buffer s) (timer s) None (cachedAt s) (closed s) in
    match TakeBySubscriber st (FromStringOrNil (id s)) (uid s) with
    | (None, st') => (s1, st')
    | (Some events, st') =>
        let buf := buffer s1 ++ (fe_event <$> events) in
        (mkSub (id s1) (uid s1) (ch s1) (ch_closed s1) (online s1) (offlineSince s1)
               buf
               (if decide (0 < length buf)%nat then Some (now + debounceDelay) else timer s1)
               (ownerCached s1) (cachedAt s1) (closed s1),
         st')
    end.

(** [setOffline] *)
Definition setOffline (s : subscriber) (st : fsEventStore) (now : Z)
  : outcome (subscriber * fsEventStore) :=
  if closed s then Done (s, st)
  else
    flushLocked
      (mkSub (id s) (uid s) (ch s) (ch_closed s) false now
             (buffer s) None (ownerCached s) (cachedAt s) (closed s)) st.

(** [close] *)
Definition close (s : subscriber) (st : fsEventStore) : subscriber * fsEventStore :=
  if closed s then (s, st)
  else
    let '(_, st') := DeleteBySubscriber st (FromStringOrNil (id s)) in
    (mkSub (id s) (uid s) (ch s) true (online s) (offlineSince s)
           [] None (ownerCached s) (cachedAt s) true, st').

(** [isClosed] *)
Definition isClosed (s : subscriber) : bool := closed s.

(** [shouldExpire] *)
Definition shouldExpire (s : subscriber) (now : Z) : bool :=
  negb (online s) && negb (offlineSince s =? 0)
  && (offlineMaxAge <? Since now (offlineSince s)).

(** [Owner]; [None] is the error of the user repository. *)
Definition Owner (s : subscriber) (now : Z) : option User * subscriber :=
  if (userCacheTTL <? Since now (cachedAt s)) || bool_decide (ownerCached s = None) then
    match GetLoginUserByID (uid s) with
    | None => (None, s)
    | Some user =>
        (Some user,
         mkSub (id s) (uid s) (ch s) (ch_closed s) (online s) (offlineSince s)
               (buffer s) (timer s) (Some user) now (closed s))
    end
  else (ownerCached s, s).

(** [type eventHub struct]. A [*subscriber] is a handle into [heap], the
    subscriber objects, which the registry and the publishers share;
    [topics] is [map[int]map[string]*subscriber]. *)
Record eventHub := mkHub {
  topics : gmap Z (gmap string nat);
  heap : gmap nat subscriber;
  fsEventClient : fsEventStore;
  hub_closed : bool;
}.

(** The handle registered for [(topic, id)]. *)
Definition registered (h : eventHub) (topic : Z) (sid : string) : option nat :=
  topics h !! topic ≫= λ subs : gmap string nat, subs !! sid.

(** [NewEventHub]: the stale records are deleted. *)
Definition NewEventHub (st : fsEventStore) : eventHub :=
  mkHub ∅ ∅ (DeleteAll st).2 false.

(** The results of [Subscribe]: the channel (by the handle of the
    subscriber that owns it) and the [resumed] flag, or the error. *)
Inductive subscribe_result :=
| Subscribed (sub : nat) (resumed : bool)
| ErrEventHubClosed
| ErrUserNotFound.

(** [Subscribe(ctx, topic, id)] *)
Definition Subscribe (h : eventHub) (ctx_user : option User) (topic : Z) (sid : string)
    (now : Z) : subscribe_result * eventHub :=
  if hub_closed h then (ErrEventHubClosed, h)
  else
    let '(subs, topics1) :=
      match topics h !! topic with
      | Some subs => (subs, topics h)
      | None => (∅, <[topic := ∅]> (topics h))
      end in
    let create (subs : gmap string nat) (topics2 : gmap Z (gmap string nat)) :=
      match newSubscriber ctx_user sid now with
      | None => (ErrUserNotFound, mkHub topics2 (heap h) (fsEventClient h) (hub_closed h))
      | Some sub =>
          let l := fresh (dom (heap h)) in
          (Subscribed l false,
           mkHub (<[topic := <[sid := l]> subs]> topics2) (<[l := sub]> (heap h))
                 (fsEventClient h) (hub_closed h))
      end in
    match subs !! sid ≫= λ l, (l ,.) <$> heap h !! l with
    | Some (l, existingSub) =>
        if isClosed existingSub then
          create (delete sid subs) (<[topic := delete sid subs]> topics1)
        else
          let '(s', st') := setOnline existingSub (fsEventClient h) now in
          (Subscribed l true, mkHub topics1 (<[l := s']> (heap h)) st' (hub_closed h))
    | None => create subs topics1
    end.

(** [Unsubscribe(ctx, topic, id)] *)
Definition Unsubscribe (h : eventHub) (topic : Z) (sid : string) (now : Z)
  : outcome eventHub :=
  if hub_closed h then Done h
  else
    match registered h topic sid ≫= λ l, (l ,.) <$> heap h !! l with
    | None => Done h
    | Some (l, sub) =>
        match Stop sub (fsEventClient h) with
        | Panic msg => Panic msg
        | Done (s1, st1) =>
            match setOffline s1 st1 now with
            | Panic msg => Panic msg
            | Done (s2, st2) => Done (mkHub (topics h) (<[l := s2]> (heap h)) st2 (hub_closed h))
            end
        end
    end.

(** [GetSubscribers(ctx, topic)]: the handles of the topic's subscribers. *)
Definition GetSubscribers (h : eventHub) (topic : Z) : list nat :=
  match topics h !! topic with
  | Some subs => (map_to_list subs).*2
  | None => []
  end.

(** The inner loop of [cleanupExpiredSubscribers], [for id, sub := range subs]. *)
Definition sweep_subs (now : Z) (subs : gmap string nat)
    (acc : gmap string nat * gmap nat subscriber * fsEventStore)
  : gmap string nat * gmap nat subscriber * fsEventStore :=
  map_fold
    (λ (sid : string) (l : nat) (acc : gmap string nat * gmap nat subscriber * fsEventStore),
       let '(subs', hp, st) := acc in
       match hp !! l with
       | Some sub =>
           if shouldExpire sub now then
             let '(sub', st') := close sub st in
             (delete sid subs', <[l := sub']> hp, st')
           else (subs', hp, st)
       | None => (subs', hp, st)
       end)
    acc subs.

(** The outer loop of [cleanupExpiredSubscribers],
    [for topic, subs := range e.topics]. *)
Definition sweep_topics (now : Z) (tps : gmap Z (gmap string nat))
    (acc : gmap Z (gmap string nat) * gmap nat subscriber * fsEventStore)
  : gmap Z (gmap string nat) * gmap nat subscriber * fsEventStore :=
  map_fold
    (λ (topic : Z) (subs : gmap string nat)
       (acc : gmap Z (gmap string nat) * gmap nat subscriber * fsEventStore),
       let '(tps', hp, st) := acc in
       let '(subs', hp1, st1) := sweep_subs now subs (subs, hp, st) in
       (if decide (size subs' = 0%nat) then delete topic tps'
        else <[topic := subs']> tps',
        hp1, st1))
    acc tps.

(** [cleanupExpiredSubscribers] *)
Definition cleanupExpiredSubscribers (h : eventHub) (now : Z) : eventHub :=
  if hub_closed h then h
  else
    let '(topics', hp', st') :=
      sweep_topics now (topics h) (topics h, heap h, fsEventClient h) in
    mkHub topics' hp' st' (hub_closed h).


(** The age used by the expiry rule: offline, with a stamp, for longer
    than [offlineMaxAge]. *)
Definition expired (s : subscriber) (now : Z) : Prop :=
  online s = false ∧ offlineSince s ≠ 0 ∧ now - offlineSince s > offlineMaxAge.


(** The handle of the subscriber of [(topic, id)] that [Subscribe] would
    reactivate: registered, allocated and not closed, in an open hub. *)
Definition live_subscriber (h : eventHub) (topic : Z) (sid : string) : option nat :=
  if hub_closed h then None
  else
    registered h topic sid ≫= λ l,
      heap h !! l ≫= λ s, if closed s then None else Some l.

(** The subscriber a [close] leaves. *)
Definition closed_form (s : subscriber) : subscriber :=
  if closed s then s
  else mkSub (id s) (uid s) (ch s) true (online s) (offlineSince s)
             [] None (ownerCached s) (cachedAt s) true.

(** The subscriber behind the handle [l] is swept at time [now]. *)
Definition will_expire (hp : gmap nat subscriber) (now : Z) (l : nat) : bool :=
  match hp !! l with
  | Some s => shouldExpire s now
  | None => false
  end.

(** A heap reached from [hp0] by closing subscribers that are swept. *)
Definition swept_from (now : Z) (hp0 hp : gmap nat subscriber) : Prop :=
  ∀ l, hp !! l = hp0 !! l
       ∨ ∃ s, hp0 !! l = Some s ∧ shouldExpire s now = true
              ∧ hp !! l = Some (closed_form s).

(** ** Sequences of operations *)

(** The operations on a subscriber, each with the clock reading it uses. *)
Inductive sub_op :=
| OpPublish (evt : Event) (now : Z)
| OpFlush
| OpSetOnline (now : Z)
| OpSetOffline (now : Z)
| OpStop
| OpOwner (now : Z).

Definition apply_op (op : sub_op) (s : subscriber) (st : fsEventStore)
  : outcome (subscriber * fsEventStore) :=
  match op with
  | OpPublish evt now => Done (Publish s evt now, st)
  | OpFlush => flush s st
  | OpSetOnline now => Done (setOnline s st now)
  | OpSetOffline now => setOffline s st now
  | OpStop => Stop s st
  | OpOwner now => Done ((Owner s now).2, st)
  end.

Fixpoint run_ops (ops : list sub_op) (s : subscriber) (st : fsEventStore)
  : outcome (subscriber * fsEventStore) :=
  match ops with
  | [] => Done (s, st)
  | op :: rest =>
      match apply_op op s st with
      | Done (s', st') => run_ops rest s' st'
      | Panic msg => Panic msg
      end
  end.

(** A publisher that took the handle [l] from [GetSubscribers] publishes. *)
Definition publish_to (h : eventHub) (l : nat) (evt : Event) (now : Z) : eventHub :=
  match heap h !! l with
  | Some s => mkHub (topics h) (<[l := Publish s evt now]> (heap h))
                (fsEventClient h) (hub_closed h)
  | None => h
  end.

(** The debounce timer of the subscriber behind [l] fires. *)
Definition timer_fires (h : eventHub) (l : nat) : outcome eventHub :=
  match heap h !! l with
  | Some s =>
      match flush s (fsEventClient h) with
      | Done (s', st') => Done (mkHub (topics h) (<[l := s']> (heap h)) st' (hub_closed h))
      | Panic msg => Panic msg
      end
  | None => Done h
  end.

End Hub.

(** The store after the records of the subscribers stored under the keys
    [ks] were deleted; a failing store keeps what it has. *)
Definition purge (ks : list string) (st : fsEventStore) : fsEventStore :=
  if failing st then st
  else mkStore (filter (λ r, fe_subscriber r ∉ ks) (rows st)) (failing st).

#[global] Instance User_eq_dec : EqDecision User.
Proof. solve_decision. Defined.

#[global] Instance subscriber_eq_dec : EqDecision subscriber.
Proof. solve_decision. Defined.

(** ** Sample scenarios *)

Definition sample_IsAnonymousUser (u : User) : bool := user_ID u =? 0.
Definition sample_uuid (s : string) : string := s.
Definition sample_users (i : Z) : option User := Some (mkUser i).
Definition sample_user : option User := Some (mkUser 1).
Definition modify9 : Event := mkEvent "modify" "9" "/h" EmptyString.

(** Client C1 of user 1 is subscribed to topic 42. *)
Definition hub_subscribed : eventHub :=
  (Subscribe sample_IsAnonymousUser sample_uuid (NewEventHub (mkStore [] false))
     sample_user 42 "C1" 1000).2.

(** Sixteen events on sixteen files. *)
Definition sixteen_creates : list Event :=
  (λ i : nat,
     mkEvent "create" (String (Ascii.ascii_of_nat (65 + i)) EmptyString) "/f" EmptyString)
  <$> seq 0 16.

(** C1 is subscribed and does not read its channel: sixteen events are
    published and flushed, which fills the channel, and then [modify9] is
    published. *)
Definition hub_channel_full : eventHub :=
  let h1 := fold_left (λ h e, publish_to h 0%nat e 1500) sixteen_creates hub_subscribed in
  let h2 := match timer_fires sample_uuid h1 0%nat with Done h => h | Panic _ => h1 end in
  publish_to h2 0%nat modify9 7000.

(** The operations of a client that subscribes, disconnects, resumes and
    disconnects again, after which an event is published and the debounce
    timer fires. *)
Definition resume_then_publish : list sub_op :=
  [ OpStop; OpSetOffline 2000; OpSetOnline 3000; OpStop; OpSetOffline 4000;
    OpPublish modify9 5000; OpFlush ].

(** [ops] run on the subscriber that [newSubscriber] makes for user 1. *)
Definition run_from_new (ops : list sub_op) : option (outcome (subscriber * fsEventStore)) :=
  match newSubscriber sample_IsAnonymousUser sample_user "C1" 1000 with
  | Some s0 => Some (run_ops sample_uuid sample_users ops s0 (mkStore [] false))
  | None => None
  end.

(** What is seen of client C1 on topic 42: its registration, its
    subscriber and the rows of the durable store. *)
Definition observe (h : eventHub) : option nat * option subscriber * list FsEvent :=
  (registered h 42 "C1", heap h !! 0%nat, rows (fsEventClient h)).

(** C1 subscribed at 1000 and disconnected at 4000. *)
Definition hub_offline : eventHub :=
  match Unsubscribe sample_uuid hub_subscribed 42 "C1" 4000 with
  | Done h => h
  | Panic _ => hub_subscribed
  end.

End EventHub.

(* ===================================================================== *)
(** * Per-file view of the event algebra                                  *)
(* ===================================================================== *)

Module PerFile.
Import EventAlgebra.
(** The events of file [f] in [xs]. *)
Definition events_of (f : string) (xs : list Event) : list Event :=
  filter (λ e, FileID e = f) xs.

(** What the output loop prints for file [f]. *)
Definition file_result (states : gmap string eventState) (f : string) : list Event :=
  match states !! f ≫= emit f with
  | Some ev => [ev]
  | None => []
  end.
End PerFile.

(* ===================================================================== *)
(** * Key wrapping, metadata and master key vaults ([encrypt.go])         *)
(* ===================================================================== *)

Module KeyWrapping.
Import Encrypt.
Section KeyWrap.
Variable aes_encrypt : list Z → list Z → list Z.

(** [EncryptWithMasterKey(masterKey, data)]. [rand_iv] is what
    [io.ReadFull(rand.Reader, iv)] puts in the 16-byte [iv], [None] when it
    fails. The result is [[16-byte IV] + [encrypted data]]. *)
Definition EncryptWithMasterKey (rand_iv : option (list Z)) (masterKey data : list Z)
  : option (list Z) :=
  match NewCipher masterKey with
  | None => None
  | Some block =>
      match rand_iv with
      | None => None
      | Some iv => Some (iv ++ (XORKeyStream aes_encrypt (NewCTR block iv) data).2)
      end
  end.

(** [GenerateMetadata(ctx)]. [rand_key], [rand_iv] and [rand_wrap_iv] are
    the successive reads of [rand.Reader]: the 32-byte file key, the 16-byte
    IV, and the IV of the key wrapping. *)
Definition GenerateMetadata (GetMasterKey : option (list Z))
    (rand_key rand_iv rand_wrap_iv : option (list Z)) : option EncryptMetadata :=
  match rand_key with
  | None => None
  | Some key =>
      match rand_iv with
      | None => None
      | Some iv =>
          match GetMasterKey with
          | None => None
          | Some masterKey =>
              match EncryptWithMasterKey rand_wrap_iv masterKey key with
              | None => None
              | Some encryptedKey =>
                  Some (mkMetadata CipherAES256CTR encryptedKey key iv)
              end
          end
      end
  end.

End KeyWrap.

(** ** The master key vaults *)

(** The vault that reads the environment variable [CR_ENCRYPT_MASTER_KEY].
    [cache] is the package variable [envMasterKeyCache], [env] the value of
    the variable (empty when unset) and [DecodeString] is
    [base64.StdEncoding.DecodeString]. The result is the key, or [None] for
    the error, and the cache after the call. *)
Definition env_GetMasterKey (DecodeString : string → option (list Z))
    (cache : list Z) (env : string) : option (list Z) * list Z :=
  if decide (0 < length cache)%nat then (Some cache, cache)
  else if decide (env = EmptyString) then (None, cache)
  else
    match DecodeString env with
    | None => (None, cache)
    | Some decodedKey => (Some decodedKey, decodedKey)
    end.

(** The vault that reads a file. [cache] is [fileMasterKeyCache] and
    [file] what [os.ReadFile(v.path)] returns, [None] for its error. *)
Definition file_GetMasterKey (DecodeString : string → option (list Z))
    (cache : list Z) (file : option string) : option (list Z) * list Z :=
  if decide (0 < length cache)%nat then (Some cache, cache)
  else
    match file with
    | None => (None, cache)
    | Some key =>
        match DecodeString key with
        | None => (None, cache)
        | Some decodedKey => (Some decodedKey, decodedKey)
        end
    end.

(** The vault that reads the settings: [v.setting.MasterEncryptKey(ctx)],
    [None] for nil. *)
Definition setting_GetMasterKey (MasterEncryptKey : option (list Z)) : option (list Z) :=
  MasterEncryptKey.

(** ** The cursor invariant *)

(** Metadata the cryptor can work with: the algorithm, a 32-byte key and a
    16-byte IV. *)
Definition valid_metadata (m : EncryptMetadata) : Prop :=
  Algorithm m = CipherAES256CTR ∧ length (KeyPlainText m) = 32%nat
  ∧ length (IV m) = 16%nat ∧ is_bytes (IV m).

(** The cursor invariant of a cryptor bound to the seekable object [C]: the
    source and the cipher stream both stand at the absolute byte
    [counterOffset + pos]. *)
Definition aligned (m : EncryptMetadata) (C : list Z) (e : AES256CTR (S := bytesReader))
  : Prop :=
  metadata e = Some m ∧ seeker e = true
  ∧ 0 ≤ counterOffset e ∧ 0 ≤ pos e ∧ counterOffset e + pos e ≤ MaxInt64
  ∧ src e = Some (mkReader C (counterOffset e + pos e))
  ∧ stream e = Some (state_at (KeyPlainText m) (IV m)
                       (Z.to_nat (counterOffset e + pos e))).

(** The invariant of a cryptor in use on [C]: aligned, and [eof] is set only
    at or past the end of the data. *)
Definition in_sync (m : EncryptMetadata) (C : list Z) (e : AES256CTR (S := bytesReader))
  : Prop :=
  aligned m C e ∧ (eof e = true → Z.of_nat (length C) ≤ counterOffset e + pos e).

End KeyWrapping.

(* ===================================================================== *)
(** * Invariants of the subscribers and of the store                      *)
(* ===================================================================== *)

Module HubInvariants.
Import EventAlgebra EventHub.

(** What holds of every subscriber that is not closed: the channel is
    within its capacity, an online subscriber carries no offline stamp, and
    events are buffered exactly when a debounce timer is pending. *)
Definition sub_inv (s : subscriber) : Prop :=
  closed s = false ∧ ch_closed s = false
  ∧ (length (ch s) ≤ bufSize)%nat
  ∧ (online s = true → offlineSince s = 0)
  ∧ (buffer s = [] ↔ timer s = None).

(** The rows of the durable store that belong to other subscribers than
    the one stored under [key]. *)
Definition rows_of_others (key : string) (st : fsEventStore) : list FsEvent :=
  filter (λ r, fe_subscriber r ≠ key) (rows st).



End HubInvariants.

(* ===================================================================== *)
(** * The emitters of the file system ([dbfs/events.go])                  *)
(* ===================================================================== *)

Module Dbfs.
Import EventAlgebra EventHub.

(** [s] without the leading [prefix], when it starts with it. *)
Fixpoint strip_prefix (prefix s : string) : option string :=
  match prefix, s with
  | EmptyString, _ => Some s
  | String a p, String b r => if decide (a = b) then strip_prefix p r else None
  | String _ _, EmptyString => None
  end.

(** [strings.TrimPrefix(s, prefix)] *)
Definition TrimPrefix (s prefix : string) : string :=
  default s (strip_prefix prefix s).

Section Events.

(** [*File], with what the event code reads of it: [file.Model.ID],
    [file.Uri(true).Path()], [file.Ancestors()] and [file.AncestorsChain()]. *)
Variable File : Type.
Variable Model_ID : File → Z.
Variable Uri_Path : File → string.
Variable Ancestors : File → list File.
Variable AncestorsChain : File → list File.
(** [hashid.EncodeFileID(f.hasher, id)] *)
Variable EncodeFileID : Z → string.
(** [fs.Separator] *)
Variable Separator : string.

(** [type foundSubscriber struct]: the subscriber, by its handle, and the
    root it was found under. *)
Record foundSubscriber := mkFound {
  found_sub : nat;
  root : File;
}.

(** [foundSubscriber.relativePath(file)]. [res[0]] and [fs.Separator[0]]
    panic on an empty string. *)
Definition relativePath (s : foundSubscriber) (file : File) : outcome string :=
  let res := TrimPrefix (Uri_Path file) (Uri_Path (root s)) in
  let res := if decide (res = EmptyString) then Separator else res in
  match res, Separator with
  | String r0 _, String s0 _ =>
      Done (if decide (r0 ≠ s0) then Separator +:+ res else res)
  | _, _ => Panic "index out of range [0] with length 0"
  end.

(** The filter of [getEligibleSubscriber]: the subscriber of the client
    that made the request is excluded. [requestInfo] is the [ClientID] of
    [requestinfo.RequestInfoFromContext(ctx)], [None] for nil. *)
Definition not_self (h : eventHub) (requestInfo : option string) (l : nat) : bool :=
  match requestInfo, heap h !! l with
  | Some clientID, Some s => negb (bool_decide (id s = clientID))
  | _, _ => true
  end.

(** [DBFS.getEligibleSubscriber(ctx, file, checkParentPerm)] *)
Definition getEligibleSubscriber (h : eventHub) (requestInfo : option string)
    (file : File) (checkParentPerm : bool) : list foundSubscriber :=
  let roots := if negb checkParentPerm then AncestorsChain file else Ancestors file in
  roots ≫= λ root,
    (λ l, mkFound l root)
    <$> filter (λ l, not_self h requestInfo l = true) (GetSubscribers h (Model_ID root)).

(** The loop [for _, subscriber := range subscribers { subscriber.Publish(...) }]
    of the emitters, with the event made by [mk] from the relative path. *)
Definition publish_all (mk : string → Event) (file : File) (now : Z)
    (subscribers : list foundSubscriber) (h : eventHub) : outcome eventHub :=
  fold_left
    (λ (acc : outcome eventHub) (subscriber : foundSubscriber),
       match acc with
       | Panic msg => Panic msg
       | Done h' =>
           match relativePath subscriber file with
           | Panic msg => Panic msg
           | Done from => Done (publish_to h' (found_sub subscriber) (mk from) now)
           end
       end)
    subscribers (Done h).

(** [DBFS.emitFileCreated(ctx, file)] *)
Definition emitFileCreated (h : eventHub) (requestInfo : option string) (file : File)
    (now : Z) : outcome eventHub :=
  publish_all
    (λ from, mkEvent EventTypeCreate (EncodeFileID (Model_ID file)) from EmptyString)
    file now (getEligibleSubscriber h requestInfo file true) h.

(** The path that [relativePath] returns, empty when it panics. *)
Definition relative_of (s : foundSubscriber) (file : File) : string :=
  match relativePath s file with
  | Done res => res
  | Panic _ => EmptyString
  end.

(** The events that [publish_all] publishes to the subscriber behind [l]. *)
Definition events_to (mk : string → Event) (file : File)
    (subscribers : list foundSubscriber) (l : nat) : list Event :=
  (λ s, mk (relative_of s file)) <$> filter (λ s, found_sub s = l) subscribers.

(** What a round of publishing does to the subscriber [s]: it appends
    [evs] to the buffer and, when [evs] is not empty, restarts the timer. *)
Definition published (s : subscriber) (evs : list Event) (now : Z) : subscriber :=
  mkSub (id s) (uid s) (ch s) (ch_closed s) (online s) (offlineSince s)
        (buffer s ++ evs)
        (if decide (evs = []) then timer s else Some (now + debounceDelay))
        (ownerCached s) (cachedAt s) (closed s).

End Events.
End Dbfs.

(* ===================================================================== *)
(** * Further sample inputs                                               *)
(* ===================================================================== *)

Module Samples.
Import EventAlgebra Encrypt EventHub PerFile KeyWrapping HubInvariants Dbfs.

(** The encryption of [sample_plaintext]. *)
Definition sample_ciphertext : list Z :=
  xor_from toy_block sample_key sample_iv 0 sample_plaintext.

(** A cryptor bound to the whole ciphertext for a request that starts at
    byte 5. *)
Definition sample_cursor : AES256CTR (S := bytesReader) :=
  mkCryptor (Some (mkReader sample_ciphertext 5)) true
    (Some (state_at sample_key sample_iv 5)) (Some sample_metadata) 5 0 (-1) false.

(** A cryptor on a source that claims to seek and cannot. *)
Definition cryptor_on_stuck_source : AES256CTR (S := scriptedReader) :=
  mkCryptor (Some []) true (Some (mkStream sample_key sample_iv 7))
    (Some sample_metadata) 0 7 (-1) true.

(** The cryptor that [NewAES256CTR] makes, over an in-memory source. *)
Definition fresh_cryptor : AES256CTR (S := bytesReader) := NewAES256CTR.

(** A base64 decoder stand-in: every text decodes to the bytes [[1; 2; 3]]. *)
Definition sample_DecodeString (s : string) : option (list Z) := Some [1; 2; 3].

(** C1 online with one buffered event, and offline with one. *)
Definition sub_online : subscriber :=
  mkSub "C1" 1 [] false true 0 [modify9] (Some 5000) sample_user 1000 false.
Definition sub_closed : subscriber :=
  mkSub "C1" 1 [] true false 4000 [] None sample_user 1000 true.

(** Files by their path; the folder [/a] is topic 42 and the only ancestor. *)
Definition sample_Uri_Path (p : string) : string := p.
Definition sample_Model_ID (p : string) : Z := if decide (p = "/a") then 42 else 7.
Definition sample_Ancestors (p : string) : list string := ["/a"].
Definition sample_AncestorsChain (p : string) : list string := [p; "/a"].
Definition sample_EncodeFileID (i : Z) : string := "f7".
End Samples.

(* ===================================================================== *)
(** * Properties of the event algebra                                     *)
(* ===================================================================== *)

Section EventAlgebraProperties.
Import EventAlgebra.

Lemma remove_from_order_elem id id' order :
  NoDup order → id' ∈ remove_from_order id order ↔ id' ∈ order ∧ id' ≠ id.
Proof.
  induction 1 as [|x l Hx Hnd IH]; simpl.
  - set_solver.
  - destruct (decide (x = id)) as [->|Hne].
    + split; [intros Hin; split; [set_solver | intros ->; done] | set_solver].
    + rewrite !elem_of_cons, IH. naive_solver.
Qed.

Lemma remove_from_order_Forall (P : string → Prop) id order :
  Forall P order → Forall P (remove_from_order id order).
Proof.
  induction 1; simpl; [constructor|]. case_decide; [done | by constructor].
Qed.

Lemma remove_from_order_NoDup id order :
  NoDup order → NoDup (remove_from_order id order).
Proof.
  induction 1 as [|x l Hx Hnd IH]; simpl; [constructor|].
  case_decide; [done|]. constructor; [|done].
  rewrite remove_from_order_elem by done. naive_solver.
Qed.

Lemma acc_ok_insert states order id st :
  is_Some (states !! id) → acc_ok (states, order) → acc_ok (<[id := st]> states, order).
Proof.
  intros Hs [Hnd Hdom]. split; [done|]. intros id'. simpl in *.
  rewrite Hdom. destruct (decide (id = id')) as [->|Hne].
  - rewrite lookup_insert_eq. split; eauto.
  - by rewrite lookup_insert_ne.
Qed.

Lemma acc_ok_drop states order id :
  acc_ok (states, order) → acc_ok (delete id states, remove_from_order id order).
Proof.
  intros [Hnd Hdom]. split; simpl in *.
  - by apply remove_from_order_NoDup.
  - intros id'. rewrite remove_from_order_elem by done. rewrite Hdom.
    destruct (decide (id = id')) as [->|Hne].
    + rewrite lookup_delete_eq. split; [naive_solver | intros [? ?]; done].
    + rewrite lookup_delete_ne by done. naive_solver.
Qed.

Lemma acc_ok_fresh states order id st :
  states !! id = None → acc_ok (states, order) → acc_ok (<[id := st]> states, order ++ [id]).
Proof.
  intros Hs [Hnd Hdom]. simpl in *. split; simpl.
  - apply NoDup_app. split; [done|]. split; [|apply NoDup_singleton].
    intros x Hx Hx'. apply list_elem_of_singleton in Hx' as ->.
    apply Hdom in Hx. rewrite Hs in Hx. by destruct Hx.
  - intros id'. rewrite elem_of_app, list_elem_of_singleton, Hdom.
    destruct (decide (id = id')) as [->|Hne].
    + rewrite lookup_insert_eq. naive_solver.
    + rewrite lookup_insert_ne by done. naive_solver.
Qed.

Lemma step_acc_ok acc e : acc_ok acc → acc_ok (step acc e).
Proof.
  destruct acc as [states order]. intros Hok. unfold step.
  destruct (states !! FileID e) as [state|] eqn:Hlk.
  - assert (is_Some (states !! FileID e)) as Hs by eauto.
    repeat case_decide;
      first [ done | by apply acc_ok_insert | by apply acc_ok_drop ].
  - by apply acc_ok_fresh.
Qed.

Lemma fold_step_acc_ok xs acc : acc_ok acc → acc_ok (fold_left step xs acc).
Proof.
  revert acc. induction xs as [|e xs IH]; intros acc Hok; simpl; [done|].
  apply IH. by apply step_acc_ok.
Qed.

Lemma run_acc_ok xs : acc_ok (run xs).
Proof.
  apply fold_step_acc_ok. split; simpl; [constructor|].
  intros id. rewrite lookup_empty. split; [set_solver | intros [? ?]; done].
Qed.

Lemma emit_FileID id st ev : emit id st = Some ev → FileID ev = id.
Proof. unfold emit. repeat case_decide; naive_solver. Qed.

Lemma emit_normal id st ev : emit id st = Some ev → normal ev.
Proof.
  unfold normal, emit, state_of. repeat case_decide; intros; simplify_eq/=;
   repeat case_decide; try done.
Qed.

Lemma build_ids_sublist states order :
  (FileID <$> build states order) `sublist_of` order.
Proof.
  induction order as [|id order IH]; simpl; [done|].
  destruct (states !! id) as [st|]; [|by apply sublist_cons].
  destruct (emit id st) as [ev|] eqn:He; [|by apply sublist_cons].
  simpl. rewrite (emit_FileID _ _ _ He). by apply sublist_skip.
Qed.

Lemma build_normal states order : Forall normal (build states order).
Proof.
  induction order as [|id order IH]; simpl; [constructor|].
  destruct (states !! id) as [st|]; [|done].
  destruct (emit id st) as [ev|] eqn:He; [|done].
  constructor; [by eapply emit_normal | done].
Qed.

Lemma fold_step_fresh xs states order :
  NoDup (FileID <$> xs) →
  (∀ e, e ∈ xs → states !! FileID e = None) →
  fold_left step xs (states, order)
  = (foldl (λ m e, <[FileID e := state_of e]> m) states xs, order ++ (FileID <$> xs)).
Proof.
  revert states order. induction xs as [|e xs IH]; intros states order Hnd Hfresh.
  - simpl. by rewrite app_nil_r.
  - simpl. rewrite (Hfresh e) by set_solver.
    apply NoDup_cons in Hnd as [Hne Hnd].
    rewrite IH; [by rewrite <- app_assoc | done |].
    intros e' He'. rewrite lookup_insert_ne; [apply Hfresh; set_solver|].
    intros Heq. apply Hne. rewrite Heq. apply list_elem_of_fmap. eauto.
Qed.

Lemma foldl_insert_lookup_notin xs (states : gmap string eventState) id :
  id ∉ FileID <$> xs →
  foldl (λ m e, <[FileID e := state_of e]> m) states xs !! id = states !! id.
Proof.
  revert states. induction xs as [|e xs IH]; intros states Hid; simpl; [done|].
  rewrite IH by set_solver. rewrite lookup_insert_ne; [done|]. set_solver.
Qed.

Lemma build_fresh xs (states : gmap string eventState) :
  Forall normal xs →
  (∀ e, e ∈ xs → states !! FileID e = Some (state_of e)) →
  build states (FileID <$> xs) = xs.
Proof.
  induction 1 as [|e xs Hn Hall IH]; intros Hlk; simpl; [done|].
  rewrite (Hlk e) by set_solver. rewrite Hn. f_equal. apply IH.
  intros e' He'. apply Hlk. set_solver.
Qed.

Lemma foldl_insert_lookup_in xs (states : gmap string eventState) e :
  NoDup (FileID <$> xs) → e ∈ xs →
  foldl (λ m e, <[FileID e := state_of e]> m) states xs !! FileID e = Some (state_of e).
Proof.
  revert states. induction xs as [|e' xs IH]; intros states Hnd He; [set_solver|].
  simpl in *. apply NoDup_cons in Hnd as [Hne Hnd].
  apply elem_of_cons in He as [->|He].
  - rewrite foldl_insert_lookup_notin by done. by rewrite lookup_insert_eq.
  - by apply IH.
Qed.

Lemma DebounceEvents_fixed xs :
  NoDup (FileID <$> xs) → Forall normal xs → DebounceEvents xs = xs.
Proof.
  intros Hnd Hn. unfold DebounceEvents. destruct xs as [|e0 xs0]; [done|].
  remember (e0 :: xs0) as xs eqn:Hxs. clear Hxs. unfold run.
  rewrite fold_step_fresh by (done || intros; apply lookup_empty).
  rewrite app_nil_l. apply build_fresh; [done|].
  intros e He. by apply foldl_insert_lookup_in.
Qed.

Lemma DebounceEvents_ids_NoDup xs : NoDup (FileID <$> DebounceEvents xs).
Proof.
  unfold DebounceEvents. destruct xs as [|e0 xs0]; [constructor|].
  pose proof (run_acc_ok (e0 :: xs0)) as [Hnd _].
  destruct (run (e0 :: xs0)) as [states order]. simpl in *.
  eapply sublist_NoDup; [done | apply build_ids_sublist].
Qed.

Lemma DebounceEvents_normal xs : Forall normal (DebounceEvents xs).
Proof.
  unfold DebounceEvents. destruct xs as [|e0 xs0]; [constructor|].
  destruct (run (e0 :: xs0)) as [states order]. apply build_normal.
Qed.

(** C2: the event algebra is idempotent: the output of [DebounceEvents],
    fed back in, is returned unchanged. *)
Theorem DebounceEvents_idempotent (xs : list Event) :
  DebounceEvents (DebounceEvents xs) = DebounceEvents xs.
Proof.
  apply DebounceEvents_fixed.
  - apply DebounceEvents_ids_NoDup.
  - apply DebounceEvents_normal.
Qed.

(** ** Output order *)

Lemma run_snoc xs e : run (xs ++ [e]) = step (run xs) e.
Proof. unfold run. by rewrite fold_left_app. Qed.

Lemma introduces_snoc_lt xs e f i :
  (i < length xs)%nat → introduces (xs ++ [e]) f i = introduces xs f i.
Proof.
  intros Hi. unfold introduces.
  rewrite lookup_app_l by done. rewrite take_app_le by lia. done.
Qed.

Lemma introduces_snoc_last xs e f :
  introduces (xs ++ [e]) f (length xs)
  = bool_decide (FileID e = f) && bool_decide ((run xs).1 !! f = None).
Proof.
  unfold introduces. rewrite list_lookup_middle by done.
  by rewrite take_app_length.
Qed.

Lemma filter_ext_in {A} (P Q : A → Prop) `{!∀ x, Decision (P x), !∀ x, Decision (Q x)}
    (l : list A) :
  (∀ x, x ∈ l → P x ↔ Q x) → filter P l = filter Q l.
Proof.
  induction l as [|x l IH]; intros Hext; [done|].
  rewrite !filter_cons. rewrite IH by (intros; apply Hext; set_solver).
  destruct (decide (P x)) as [HP|HP], (decide (Q x)) as [HQ|HQ]; try done;
    exfalso; apply (Hext x) in HP || apply (Hext x) in HQ; done || set_solver.
Qed.

Lemma sublist_Forall {A} (P : A → Prop) l1 l2 :
  l1 `sublist_of` l2 → Forall P l2 → Forall P l1.
Proof.
  intros Hsub. rewrite !Forall_forall. intros H x Hx. apply H.
  by eapply elem_of_sublist.
Qed.

Lemma filter_introduces_snoc xs e f :
  filter (λ i, introduces (xs ++ [e]) f i = true) (seq 0 (length xs))
  = filter (λ i, introduces xs f i = true) (seq 0 (length xs)).
Proof.
  apply filter_ext_in. intros i Hi.
  apply elem_of_seq in Hi. rewrite introduces_snoc_lt by lia. done.
Qed.

Lemma birth_snoc xs e f :
  birth (xs ++ [e]) f
  = if introduces (xs ++ [e]) f (length xs) then Some (length xs) else birth xs f.
Proof.
  unfold birth. rewrite length_app. simpl length.
  replace (length xs + 1)%nat with (S (length xs)) by lia.
  rewrite seq_S, filter_app, filter_introduces_snoc. simpl.
  rewrite filter_cons, filter_nil.
  destruct (introduces (xs ++ [e]) f (length xs)) eqn:Hi.
  - rewrite decide_True by done. by rewrite last_snoc.
  - rewrite decide_False by (by intros ?). by rewrite app_nil_r.
Qed.

Lemma birth_lt xs f b : birth xs f = Some b → (b < length xs)%nat.
Proof.
  unfold birth. intros H. apply last_Some_elem_of in H.
  apply list_elem_of_filter in H as [_ H]. apply elem_of_seq in H. lia.
Qed.

Lemma StronglySorted_mono_in {A} (R R' : relation A) l :
  (∀ x y, x ∈ l → y ∈ l → R x y → R' x y) →
  StronglySorted R l → StronglySorted R' l.
Proof.
  intros Himp Hs. induction Hs as [|x l Hs IH Hall]; constructor.
  - apply IH. intros. apply Himp; set_solver.
  - rewrite Forall_forall in *. intros y Hy. apply Himp; [set_solver..|by apply Hall].
Qed.

Lemma StronglySorted_snoc_all {A} (R : relation A) l y :
  StronglySorted R l → Forall (λ x, R x y) l → StronglySorted R (l ++ [y]).
Proof.
  intros Hs Hall. induction Hs as [|x l Hs IH Hx]; simpl.
  - repeat constructor.
  - apply Forall_cons in Hall as [Hxy Hall]. constructor; [by apply IH|].
    apply Forall_app. split; [done | by repeat constructor].
Qed.

Lemma StronglySorted_sublist' {A} (R : relation A) l1 l2 :
  l1 `sublist_of` l2 → StronglySorted R l2 → StronglySorted R l1.
Proof.
  induction 1 as [|x l1 l2 Hsub IH|x l1 l2 Hsub IH]; intros Hs; [done|..].
  - apply StronglySorted_inv in Hs as [Hs Hall]. constructor; [by apply IH|].
    rewrite Forall_forall in *. intros y Hy. apply Hall.
    by eapply elem_of_sublist.
  - apply StronglySorted_inv in Hs as [Hs _]. by apply IH.
Qed.

Lemma StronglySorted_lookup_lt {A} (R : relation A) l (i j : nat) a b :
  StronglySorted R l → l !! i = Some a → l !! j = Some b → (i < j)%nat → R a b.
Proof.
  intros Hs. revert i j. induction Hs as [|x l Hs IH Hall]; intros i j Hi Hj Hlt.
  - done.
  - destruct j as [|j]; [lia|]. destruct i as [|i]; simpl in *.
    + simplify_eq. rewrite Forall_forall in Hall. apply Hall.
      by eapply list_elem_of_lookup_2.
    + apply (IH i j); [done..|lia].
Qed.

Lemma remove_from_order_sublist id order :
  remove_from_order id order `sublist_of` order.
Proof.
  induction order as [|x l IH]; simpl; [done|].
  case_decide; [by apply sublist_cons | by apply sublist_skip].
Qed.

Lemma step_order_cases states order e :
  match states !! FileID e with
  | None => (step (states, order) e).2 = order ++ [FileID e]
  | Some _ => (step (states, order) e).2 `sublist_of` order
  end.
Proof.
  unfold step. destruct (states !! FileID e) as [st|]; [|done].
  repeat case_decide; simpl; first [done | apply remove_from_order_sublist].
Qed.

Lemma order_inv_run xs : order_inv xs.
Proof.
  induction xs as [|e xs IH] using rev_ind.
  - split; constructor.
  - destruct IH as [Hs Hb]. unfold order_inv. rewrite run_snoc.
    pose proof (run_acc_ok xs) as [Hnd Hdom].
    destruct (run xs) as [states order] eqn:Hrun. simpl in Hs, Hb, Hnd, Hdom.
    pose proof (step_order_cases states order e) as Hcase.
    destruct (states !! FileID e) as [st|] eqn:Hlk.
    + (* the event finds an entry: no birth changes *)
      assert (∀ f, birth (xs ++ [e]) f = birth xs f) as Hsame.
      { intros f. rewrite birth_snoc, introduces_snoc_last, Hrun. simpl.
        destruct (decide (FileID e = f)) as [<-|Hne].
        - rewrite Hlk. rewrite (bool_decide_eq_false_2 (Some st = None)) by done.
          by rewrite andb_false_r.
        - by rewrite (bool_decide_eq_false_2 _ Hne). }
      split.
      * eapply StronglySorted_mono_in;
          [|eapply StronglySorted_sublist'; [exact Hcase | exact Hs]].
        intros x y _ _ (a & b & Ha & Hb' & Hab). exists a, b.
        by rewrite !Hsame.
      * eapply Forall_impl; [eapply sublist_Forall; [exact Hcase|exact Hb]|].
        intros f. simpl. by rewrite Hsame.
    + (* the event introduces a fresh entry *)
      assert (FileID e ∉ order) as Hnotin.
      { intros Hin. apply Hdom in Hin. rewrite Hlk in Hin. by destruct Hin. }
      assert (birth (xs ++ [e]) (FileID e) = Some (length xs)) as Hnew.
      { rewrite birth_snoc, introduces_snoc_last, Hrun. simpl.
        rewrite bool_decide_eq_true_2 by done.
        rewrite bool_decide_eq_true_2 by done. done. }
      assert (∀ f, f ∈ order → birth (xs ++ [e]) f = birth xs f) as Hsame.
      { intros f Hf. rewrite birth_snoc, introduces_snoc_last.
        rewrite (bool_decide_eq_false_2 (FileID e = f)); [done|].
        intros <-. done. }
      rewrite Hcase. split.
      * apply StronglySorted_snoc_all.
        -- eapply StronglySorted_mono_in; [|exact Hs].
           intros x y Hx Hy (a & b & Ha & Hb' & Hab). exists a, b.
           by rewrite !Hsame.
        -- rewrite Forall_forall in *. intros f Hf.
           destruct (Hb f Hf) as [a Ha]. exists a, (length xs).
           rewrite Hsame by done. split_and!; [done..|].
           by eapply birth_lt.
      * apply Forall_app. split.
        -- rewrite Forall_forall in *. intros f Hf. rewrite Hsame by done. eauto.
        -- repeat constructor. rewrite Hnew. eauto.
Qed.

Lemma DebounceEvents_order (xs : list Event) (i j : nat) (e1 e2 : Event) :
  DebounceEvents xs !! i = Some e1 →
  DebounceEvents xs !! j = Some e2 →
  (i < j)%nat →
  ∃ a b : nat, birth xs (FileID e1) = Some a
             ∧ birth xs (FileID e2) = Some b ∧ (a < b)%nat.
Proof.
  intros H1 H2 Hlt.
  assert (StronglySorted (born_before xs) (FileID <$> DebounceEvents xs)) as Hs.
  { unfold DebounceEvents. destruct xs as [|e0 xs0]; [constructor|].
    destruct (order_inv_run (e0 :: xs0)) as [Hs _].
    destruct (run (e0 :: xs0)) as [states order]. simpl in Hs.
    eapply StronglySorted_sublist'; [apply build_ids_sublist | done]. }
  change (born_before xs (FileID e1) (FileID e2)).
  eapply (StronglySorted_lookup_lt _ _ i j); [exact Hs | | | done].
  - by rewrite list_lookup_fmap, H1.
  - by rewrite list_lookup_fmap, H2.
Qed.

Lemma step_lookup_other acc e f :
  FileID e ≠ f → (step acc e).1 !! f = acc.1 !! f.
Proof.
  destruct acc as [states order]. intros Hne. unfold step.
  destruct (states !! FileID e) as [st|]; repeat case_decide; simpl;
    rewrite ?lookup_insert_ne, ?lookup_delete_ne by done; done.
Qed.

Lemma fold_step_lookup_other xs acc f :
  Forall (λ e, FileID e ≠ f) xs → (fold_left step xs acc).1 !! f = acc.1 !! f.
Proof.
  revert acc. induction xs as [|e xs IH]; intros acc Hall; [done|].
  apply Forall_cons in Hall as [He Hall]. simpl.
  rewrite IH by done. by apply step_lookup_other.
Qed.

Lemma first_appearance_Some xs f a :
  first_appearance xs f = Some a →
  (∃ e, xs !! a = Some e ∧ FileID e = f) ∧ Forall (λ e, FileID e ≠ f) (take a xs).
Proof.
  revert a. induction xs as [|e xs IH]; intros a; simpl; [done|].
  case_decide as He.
  - intros [= <-]. split; [eauto | constructor].
  - destruct (first_appearance xs f) as [a'|] eqn:Hfa; [|done].
    intros [= <-]. destruct (IH a' eq_refl) as [Hlk Hall].
    split; [done|]. simpl. by constructor.
Qed.

Lemma first_appearance_le xs f (b : nat) e :
  xs !! b = Some e → FileID e = f →
  ∃ a, first_appearance xs f = Some a ∧ (a ≤ b)%nat.
Proof.
  revert b. induction xs as [|e' xs IH]; intros b Hlk Hf; [done|]. simpl.
  case_decide as He; [exists 0%nat; split; [done|lia]|].
  destruct b as [|b]; simpl in Hlk; [by simplify_eq|].
  destruct (IH b Hlk Hf) as (a & -> & Hle). exists (S a). split; [done|lia].
Qed.

Lemma first_appearance_introduces xs f a :
  first_appearance xs f = Some a → introduces xs f a = true.
Proof.
  intros Hfa. destruct (first_appearance_Some _ _ _ Hfa) as [(e & Hlk & He) Hall].
  unfold introduces. rewrite Hlk. rewrite bool_decide_eq_true_2 by done.
  unfold run. rewrite fold_step_lookup_other by done.
  by rewrite bool_decide_eq_true_2 by apply lookup_empty.
Qed.

Lemma birth_introduces xs f b : birth xs f = Some b → introduces xs f b = true.
Proof.
  unfold birth. intros H. apply last_Some_elem_of in H.
  by apply list_elem_of_filter in H as [H _].
Qed.

(** An entry that was introduced only once was introduced by the first
    event of its file. *)
Lemma birth_first_appearance xs f b :
  birth xs f = Some b →
  (∀ i, (i < b)%nat → introduces xs f i = false) →
  first_appearance xs f = Some b.
Proof.
  intros Hb Hno. pose proof (birth_introduces _ _ _ Hb) as Hi.
  unfold introduces in Hi. destruct (xs !! b) as [e|] eqn:Hlk; [|done].
  apply andb_true_iff in Hi as [He _]. apply bool_decide_eq_true in He.
  destruct (first_appearance_le _ _ _ _ Hlk He) as (a & Hfa & Hle).
  destruct (decide (a = b)) as [->|Hne]; [done|].
  pose proof (first_appearance_introduces _ _ _ Hfa) as Hia.
  rewrite Hno in Hia by lia. done.
Qed.

(** C6 (as amended): the events of [DebounceEvents xs] appear in the order
    in which their accumulator entries were introduced, an entry being
    introduced by the first event of its file or, after the entry of that
    file was dropped, by the next event of the file; an entry that was
    introduced only once was introduced at the first appearance of its
    file. *)
Theorem DebounceEvents_order_by_introduction (xs : list Event) :
  ordered_by_introduction xs (DebounceEvents xs)
  ∧ ∀ f b, birth xs f = Some b →
           (∀ i, (i < b)%nat → introduces xs f i = false) →
           first_appearance xs f = Some b.
Proof.
  split.
  - intros i j e1 e2. apply DebounceEvents_order.
  - intros f b. apply birth_first_appearance.
Qed.

Lemma DebounceEvents_order_by_introduction_witness :
  born_before reintroduced "B" "A" ∧ first_appearance reintroduced "B" = Some 1%nat.
Proof.
  destruct (DebounceEvents_order_by_introduction reintroduced) as [Hord Hfirst].
  split.
  - apply (Hord 0%nat 1%nat (mkEvent "create" "B" "/b" EmptyString)
             (mkEvent "create" "A" "/a" EmptyString));
      [reflexivity | reflexivity | lia].
  - apply Hfirst; [reflexivity|].
    intros i Hi. destruct i as [|i]; [reflexivity | lia].
Defined.

(** C6 (as stated) fails: file A appears first in the input, its entry is
    dropped by its Delete and re-introduced by a later Create, and the
    output lists B before A. *)
Lemma DebounceEvents_first_appearance_counterexample :
  DebounceEvents reintroduced
  = [ mkEvent "create" "B" "/b" EmptyString; mkEvent "create" "A" "/a" EmptyString ]
  ∧ first_appearance reintroduced "A" = Some 0%nat
  ∧ first_appearance reintroduced "B" = Some 1%nat
  ∧ ¬ ordered_by_first_appearance reintroduced (DebounceEvents reintroduced).
Proof.
  split_and!; [reflexivity..|].
  intros H.
  destruct (H 0%nat 1%nat (mkEvent "create" "B" "/b" EmptyString)
              (mkEvent "create" "A" "/a" EmptyString))
    as (a & b & Ha & Hb & Hlt); [reflexivity | reflexivity | lia |].
  vm_compute in Ha, Hb. simplify_eq. lia.
Qed.

End EventAlgebraProperties.

(* ===================================================================== *)
(** * Properties of the cryptor                                           *)
(* ===================================================================== *)

Section CounterArithmetic.
Import Encrypt.

Lemma byte_split (x : Z) : 0 ≤ x → Z.land x 255 = x mod 256 ∧ Z.shiftr x 8 = x / 256.
Proof.
  intros Hx. split.
  - change 255 with (Z.ones 8). by rewrite Z.land_ones.
  - by rewrite Z.shiftr_div_pow2.
Qed.

Lemma is_bytes_insert (l : list Z) (i : nat) (v : Z) :
  is_bytes l → 0 ≤ v < 256 → is_bytes (<[i := v]> l).
Proof. intros Hl Hv. by apply Forall_insert. Qed.

Lemma is_bytes_nth (l : list Z) (i : nat) : is_bytes l → 0 ≤ nth i l 0 < 256.
Proof.
  intros Hl. destruct (decide (i < length l)%nat) as [Hi|Hi].
  - unfold is_bytes in Hl. rewrite Forall_forall in Hl. apply Hl.
    apply list_elem_of_In. apply nth_In. done.
  - rewrite nth_overflow by lia. lia.
Qed.

Lemma be_val_insert (l : list Z) (i : nat) (v : Z) :
  (i < length l)%nat →
  be_val (<[i := v]> l) = be_val l + (v - nth i l 0) * 256 ^ Z.of_nat (length l - 1 - i).
Proof.
  revert i. induction l as [|b l IH]; intros i Hi; [simpl in Hi; lia|].
  destruct i as [|i].
  - replace (length (b :: l) - 1 - 0)%nat with (length l) by (simpl; lia).
    simpl. set (w := 256 ^ _). lia.
  - replace (length (b :: l) - 1 - S i)%nat with (length l - 1 - i)%nat by (simpl; lia).
    simpl in *. rewrite length_insert. rewrite IH by lia. lia.
Qed.

Lemma be_val_bound (l : list Z) : is_bytes l → 0 ≤ be_val l < 256 ^ Z.of_nat (length l).
Proof.
  induction 1 as [|b l Hb Hl IH]; simpl length; simpl be_val; [simpl; lia|].
  rewrite Nat2Z.inj_succ, Z.pow_succ_r by lia.
  assert (0 < 256 ^ Z.of_nat (length l)) by (apply Z.pow_pos_nonneg; lia).
  nia.
Qed.

Lemma be_val_inj (l1 l2 : list Z) :
  length l1 = length l2 → is_bytes l1 → is_bytes l2 → be_val l1 = be_val l2 → l1 = l2.
Proof.
  revert l2. induction l1 as [|a l1 IH]; intros [|b l2] Hlen H1 H2 Hv;
    simpl in *; try done.
  apply Forall_cons in H1 as [Ha H1]. apply Forall_cons in H2 as [Hb H2].
  injection Hlen as Hlen. rewrite Hlen in Hv.
  pose proof (be_val_bound l1 H1) as B1. pose proof (be_val_bound l2 H2) as B2.
  rewrite Hlen in B1.
  assert (a = b) as -> by nia.
  f_equal. apply IH; [done..|lia].
Qed.

Lemma pow256_16 : 256 ^ 16 = M128.
Proof. reflexivity. Qed.

Lemma pow256_step (n : nat) :
  (S n ≤ 16)%nat → 256 ^ Z.of_nat (16 - n) = 256 * 256 ^ Z.of_nat (16 - S n).
Proof.
  intros Hn. replace (16 - n)%nat with (S (16 - S n)) by lia.
  rewrite Nat2Z.inj_succ, Z.pow_succ_r by lia. done.
Qed.

Lemma carry_loop_val (n : nat) (c : list Z) (carry : Z) :
  (n ≤ 16)%nat → length c = 16%nat → is_bytes c → 0 ≤ carry < 2 ^ 56 →
  let r := carry_loop n c carry in
  length r = 16%nat ∧ is_bytes r ∧
  ∃ q, be_val r = be_val c + carry * 256 ^ Z.of_nat (16 - n) - q * M128.
Proof.
  revert c carry. induction n as [|j IH]; intros c carry Hn Hlen Hb Hc;
    cbn [carry_loop]; cbv zeta.
  - split_and!; [done..|]. exists carry. change (256 ^ Z.of_nat (16 - 0)) with M128. lia.
  - destruct (0 <? carry) eqn:Hpos; [|split_and!; [done..|exists 0; apply Z.ltb_ge in Hpos; lia]].
    apply Z.ltb_lt in Hpos.
    pose proof (is_bytes_nth c j Hb) as Hnth.
    assert (uint64 (nth j c 0 + carry) = nth j c 0 + carry) as Hsum.
    { unfold uint64. apply Z.mod_small. lia. }
    rewrite Hsum. set (sum := nth j c 0 + carry) in *.
    destruct (byte_split sum) as [-> ->]; [lia|].
    pose proof (Z.mod_pos_bound sum 256 ltac:(lia)) as Hm.
    pose proof (Z.div_mod sum 256 ltac:(lia)) as Hdm.
    assert (0 ≤ sum / 256 < 2 ^ 56) as Hq.
    { split; [apply Z.div_pos; lia|]. apply Z.div_lt_upper_bound; lia. }
    destruct (IH (<[j := sum mod 256]> c) (sum / 256)) as (Hl' & Hb' & q & Hv);
      [lia | by rewrite length_insert | by apply is_bytes_insert | done |].
    split_and!; [done..|]. exists q. rewrite Hv.
    rewrite be_val_insert by lia. rewrite Hlen.
    rewrite (pow256_step j) by lia.
    replace (16 - 1 - j)%nat with (16 - S j)%nat by lia.
    set (w := 256 ^ Z.of_nat (16 - S j)). clearbody w.
    set (sm := sum mod 256) in *. set (sq := sum / 256) in *. clearbody sm sq.
    assert (carry = 256 * sq + sm - nth j c 0) as -> by lia. ring.
Qed.

Lemma incr_loop_val (n : nat) (c : list Z) (blocks : Z) :
  (n ≤ 16)%nat → length c = 16%nat → is_bytes c → 0 ≤ blocks < 256 ^ Z.of_nat n →
  let r := incr_loop n c blocks in
  length r = 16%nat ∧ is_bytes r ∧
  ∃ q, be_val r = be_val c + blocks * 256 ^ Z.of_nat (16 - n) - q * M128.
Proof.
  revert c blocks. induction n as [|i IH]; intros c blocks Hn Hlen Hb Hk;
    cbn [incr_loop]; cbv zeta.
  - split_and!; [done..|]. exists 0. simpl in Hk. lia.
  - destruct (0 <? blocks) eqn:Hpos; [|split_and!; [done..|exists 0; apply Z.ltb_ge in Hpos; lia]].
    apply Z.ltb_lt in Hpos.
    pose proof (is_bytes_nth c i Hb) as Hnth.
    destruct (byte_split blocks) as [-> ->]; [lia|].
    pose proof (Z.mod_pos_bound blocks 256 ltac:(lia)) as Hbm.
    pose proof (Z.div_mod blocks 256 ltac:(lia)) as Hbdm.
    assert (uint64 (nth i c 0 + blocks mod 256) = nth i c 0 + blocks mod 256) as Hsum.
    { unfold uint64. apply Z.mod_small. lia. }
    rewrite Hsum. set (sum := nth i c 0 + blocks mod 256) in *.
    destruct (byte_split sum) as [-> ->]; [lia|].
    pose proof (Z.mod_pos_bound sum 256 ltac:(lia)) as Hm.
    pose proof (Z.div_mod sum 256 ltac:(lia)) as Hdm.
    assert (0 ≤ sum / 256 < 2 ^ 56) as Hq.
    { split; [apply Z.div_pos; lia|]. apply Z.div_lt_upper_bound; lia. }
    assert (0 ≤ blocks / 256 < 256 ^ Z.of_nat i) as Hk'.
    { split; [apply Z.div_pos; lia|]. apply Z.div_lt_upper_bound; [lia|].
      rewrite Nat2Z.inj_succ, Z.pow_succ_r in Hk by lia. lia. }
    set (c1 := <[i := sum mod 256]> c).
    assert (length c1 = 16%nat) as Hl1 by (by unfold c1; rewrite length_insert).
    assert (is_bytes c1) as Hb1 by (by apply is_bytes_insert).
    assert (be_val c1 = be_val c + (sum mod 256 - nth i c 0) * 256 ^ Z.of_nat (16 - S i)) as Hv1.
    { unfold c1. rewrite be_val_insert by lia. rewrite Hlen.
      by replace (16 - 1 - i)%nat with (16 - S i)%nat by lia. }
    set (c2 := if 255 <? sum then carry_loop i c1 (sum / 256) else c1).
    assert (length c2 = 16%nat ∧ is_bytes c2 ∧
            ∃ q, be_val c2 = be_val c1 + (sum / 256) * 256 ^ Z.of_nat (16 - i) - q * M128)
      as (Hl2 & Hb2 & q2 & Hv2).
    { unfold c2. destruct (255 <? sum) eqn:Hov.
      - apply carry_loop_val; [lia | done..].
      - apply Z.ltb_ge in Hov. split_and!; [done..|]. exists 0.
        rewrite (Z.div_small sum 256) by lia. lia. }
    destruct (IH c2 (blocks / 256)) as (Hl' & Hb' & q & Hv); [lia | done..|].
    split_and!; [done..|]. exists (q + q2). rewrite Hv, Hv2, Hv1.
    rewrite (pow256_step i) by lia.
    set (w := 256 ^ Z.of_nat (16 - S i)). clearbody w.
    set (sm := sum mod 256) in *. set (sq := sum / 256) in *.
    set (bm := blocks mod 256) in *. set (bq := blocks / 256) in *.
    clearbody sm sq bm bq.
    assert (blocks = 256 * bq + sm + 256 * sq - nth i c 0) as -> by lia. ring.
Qed.

Lemma incrementCounter_spec (c : list Z) (k : Z) :
  length c = 16%nat → is_bytes c → 0 ≤ k ≤ MaxInt64 →
  length (incrementCounter c k) = 16%nat ∧ is_bytes (incrementCounter c k) ∧
  be_val (incrementCounter c k) = (be_val c + k) mod M128.
Proof.
  intros Hlen Hb Hk. unfold incrementCounter.
  destruct (incr_loop_val 16 c k) as (Hl & Hb' & q & Hv); [lia | done.. | |].
  { change (256 ^ Z.of_nat 16) with (2 ^ 128). unfold MaxInt64 in Hk. lia. }
  split_and!; [done..|].
  pose proof (be_val_bound _ Hb') as Hbound. rewrite Hl in Hbound.
  change (256 ^ Z.of_nat 16) with M128 in Hbound.
  change (256 ^ Z.of_nat (16 - 16)) with 1 in Hv.
  apply (Z.mod_unique _ _ q); [lia|]. lia.
Qed.

(** C3: for a 16-byte counter and [1 ≤ k ≤ MaxInt64], adding [k] blocks in
    one call is adding [k - 1] blocks and then one, and the result is the
    big-endian sum modulo [2^128]. *)
Theorem incrementCounter_carry (iv : list Z) (k : Z) :
  length iv = 16%nat → is_bytes iv → 1 ≤ k ≤ MaxInt64 →
  incrementCounter iv k = incrementCounter (incrementCounter iv (k - 1)) 1
  ∧ be_val (incrementCounter iv k) = (be_val iv + k) mod 2 ^ 128.
Proof.
  intros Hlen Hb Hk.
  destruct (incrementCounter_spec iv k) as (Hl1 & Hb1 & Hv1); [done.. | lia |].
  destruct (incrementCounter_spec iv (k - 1)) as (Hl2 & Hb2 & Hv2); [done.. | lia |].
  destruct (incrementCounter_spec (incrementCounter iv (k - 1)) 1) as (Hl3 & Hb3 & Hv3);
    [done.. | unfold MaxInt64; lia |].
  split; [|done].
  apply be_val_inj; [congruence | done..|].
  rewrite Hv1, Hv3, Hv2. rewrite Z.add_mod_idemp_l by (unfold M128; lia).
  f_equal. lia.
Qed.

Lemma ctr_inc_loop_val (n : nat) (c : list Z) :
  (n ≤ 16)%nat → length c = 16%nat → is_bytes c →
  length (ctr_inc_loop n c) = 16%nat ∧ is_bytes (ctr_inc_loop n c) ∧
  ∃ q, be_val (ctr_inc_loop n c) = be_val c + 256 ^ Z.of_nat (16 - n) - q * M128.
Proof.
  revert c. induction n as [|i IH]; intros c Hn Hlen Hb; cbn [ctr_inc_loop]; cbv zeta.
  - split_and!; [done..|]. exists 1. change (256 ^ Z.of_nat (16 - 0)) with M128. lia.
  - pose proof (is_bytes_nth c i Hb) as Hnth.
    pose proof (Z.mod_pos_bound (nth i c 0 + 1) 256 ltac:(lia)) as Hm.
    set (c1 := <[i := (nth i c 0 + 1) mod 256]> c).
    assert (length c1 = 16%nat) as Hl1 by (by unfold c1; rewrite length_insert).
    assert (is_bytes c1) as Hb1 by (by apply is_bytes_insert).
    assert (be_val c1 = be_val c + ((nth i c 0 + 1) mod 256 - nth i c 0)
                                   * 256 ^ Z.of_nat (16 - S i)) as Hv1.
    { unfold c1. rewrite be_val_insert by lia. rewrite Hlen.
      by replace (16 - 1 - i)%nat with (16 - S i)%nat by lia. }
    destruct ((nth i c 0 + 1) mod 256 =? 0) eqn:Hz.
    + apply Z.eqb_eq in Hz.
      assert (nth i c 0 = 255) as H255.
      { destruct (decide (nth i c 0 = 255)) as [|Hne]; [done|].
        rewrite Z.mod_small in Hz by lia. lia. }
      destruct (IH c1) as (Hl' & Hb' & q & Hv); [lia | done..|].
      split_and!; [done..|]. exists q. rewrite Hv, Hv1, Hz, H255.
      rewrite (pow256_step i) by lia. lia.
    + apply Z.eqb_neq in Hz.
      assert ((nth i c 0 + 1) mod 256 = nth i c 0 + 1) as Hs.
      { apply Z.mod_small. split; [lia|].
        destruct (decide (nth i c 0 = 255)) as [H255|]; [|lia].
        rewrite H255 in Hz. done. }
      split_and!; [done..|]. exists 0. rewrite Hv1, Hs. lia.
Qed.

Lemma ctr_next_spec (c : list Z) :
  length c = 16%nat → is_bytes c →
  length (ctr_next c) = 16%nat ∧ is_bytes (ctr_next c) ∧
  be_val (ctr_next c) = (be_val c + 1) mod M128.
Proof.
  intros Hlen Hb. unfold ctr_next. rewrite Hlen.
  destruct (ctr_inc_loop_val 16 c) as (Hl & Hb' & q & Hv); [lia | done..|].
  split_and!; [done..|].
  pose proof (be_val_bound _ Hb') as Hbound. rewrite Hl in Hbound.
  change (256 ^ Z.of_nat 16) with M128 in Hbound.
  change (256 ^ Z.of_nat (16 - 16)) with 1 in Hv.
  apply (Z.mod_unique _ _ q); lia.
Qed.

Lemma iter_ctr_next_spec (m : nat) (c : list Z) :
  length c = 16%nat → is_bytes c →
  length (Nat.iter m ctr_next c) = 16%nat ∧ is_bytes (Nat.iter m ctr_next c) ∧
  be_val (Nat.iter m ctr_next c) = (be_val c + Z.of_nat m) mod M128.
Proof.
  intros Hlen Hb. induction m as [|m (Hl & Hb' & Hv)].
  - simpl. split_and!; [done..|]. rewrite Z.add_0_r. symmetry. apply Z.mod_small.
    pose proof (be_val_bound _ Hb) as Hbound. rewrite Hlen in Hbound. exact Hbound.
  - change (Nat.iter (S m) ctr_next c) with (ctr_next (Nat.iter m ctr_next c)).
    destruct (ctr_next_spec _ Hl Hb') as (Hl2 & Hb2 & Hv2).
    split_and!; [done..|]. rewrite Hv2, Hv.
    rewrite Z.add_mod_idemp_l by (unfold M128; lia). f_equal. lia.
Qed.

(** [incrementCounter] agrees with the cipher library's own counter steps. *)
Lemma incrementCounter_iter (c : list Z) (k : Z) :
  length c = 16%nat → is_bytes c → 0 ≤ k ≤ MaxInt64 →
  incrementCounter c k = Nat.iter (Z.to_nat k) ctr_next c.
Proof.
  intros Hlen Hb Hk.
  destruct (incrementCounter_spec c k) as (Hl1 & Hb1 & Hv1); [done..|].
  destruct (iter_ctr_next_spec (Z.to_nat k) c) as (Hl2 & Hb2 & Hv2); [done..|].
  apply be_val_inj; [congruence | done..|].
  rewrite Hv1, Hv2. f_equal. lia.
Qed.

End CounterArithmetic.

Section RoundTripProofs.
Import Encrypt.

Variable aes_encrypt : list Z → list Z → list Z.
Variable GetMasterKey : option (list Z).

Abbreviation xor_from := (xor_from aes_encrypt).
Abbreviation keystream_byte := (keystream_byte aes_encrypt).

Lemma succ_div_mod_16 (a : nat) :
  (S (a mod 16) = 16 → S a / 16 = S (a / 16) ∧ S a mod 16 = 0)%nat
  ∧ (S (a mod 16) ≠ 16 → S a / 16 = a / 16 ∧ S a mod 16 = S (a mod 16))%nat.
Proof.
  pose proof (Nat.div_mod_eq a 16) as Hdm.
  pose proof (Nat.mod_upper_bound a 16 ltac:(done)) as Hm.
  split; intros H; split.
  - symmetry. apply (Nat.div_unique _ _ _ 0); lia.
  - symmetry. apply (Nat.mod_unique _ _ (S (a / 16))); lia.
  - symmetry. apply (Nat.div_unique _ _ _ (S (a mod 16))); lia.
  - symmetry. apply (Nat.mod_unique _ _ (a / 16)); lia.
Qed.

Lemma state_at_succ K iv (a : nat) :
  (if decide (S (a mod 16) = 16%nat)
   then mkStream K (ctr_next (Nat.iter (a / 16)%nat ctr_next iv)) 0
   else mkStream K (Nat.iter (a / 16)%nat ctr_next iv) (S (a mod 16)))
  = state_at K iv (S a).
Proof.
  unfold state_at. destruct (succ_div_mod_16 a) as [H1 H2]. case_decide as Hm.
  - destruct (H1 Hm) as [-> ->]. done.
  - destruct (H2 Hm) as [-> ->]. done.
Qed.

Lemma XORKeyStream_state_at K iv (a : nat) (l : list Z) :
  XORKeyStream aes_encrypt (state_at K iv a) l
  = (state_at K iv (a + length l), xor_from K iv a l).
Proof.
  revert a. induction l as [|b l IH]; intros a.
  - simpl. by rewrite Nat.add_0_r.
  - cbn [XORKeyStream Encrypt.xor_from].
    change (ctr_used (state_at K iv a)) with (a mod 16)%nat.
    change (ctr_key (state_at K iv a)) with K.
    change (ctr_counter (state_at K iv a)) with (Nat.iter (a / 16)%nat ctr_next iv).
    rewrite state_at_succ, IH. simpl length. unfold Encrypt.keystream_byte.
    replace (S a + length l)%nat with (a + S (length l))%nat by lia. done.
Qed.

Lemma xor_from_length K iv a l : length (xor_from K iv a l) = length l.
Proof. revert a. induction l as [|b l IH]; intros a; simpl; [done|]. by rewrite IH. Qed.

Lemma xor_from_involutive K iv a l : xor_from K iv a (xor_from K iv a l) = l.
Proof.
  revert a. induction l as [|b l IH]; intros a; simpl; [done|].
  rewrite IH. f_equal. rewrite Z.lxor_assoc, Z.lxor_nilpotent. apply Z.lxor_0_r.
Qed.

Lemma xor_from_take K iv a (n : nat) l :
  take n (xor_from K iv a l) = xor_from K iv a (take n l).
Proof.
  revert a n. induction l as [|b l IH]; intros a [|n]; simpl; try done.
  by rewrite IH.
Qed.

Lemma xor_from_drop K iv a (s : nat) l :
  drop s (xor_from K iv a l) = xor_from K iv (a + s) (drop s l).
Proof.
  revert a s. induction l as [|b l IH]; intros a [|s]; simpl; try done.
  - by rewrite Nat.add_0_r.
  - rewrite IH. by replace (S a + s)%nat with (a + S s)%nat by lia.
Qed.

Lemma copy_iv_16 (iv : list Z) : length iv = 16%nat → copy_iv iv = iv.
Proof.
  intros Hlen. unfold copy_iv. rewrite Hlen. simpl replicate.
  rewrite app_nil_r. apply take_ge. lia.
Qed.

Lemma state_at_block K iv (m : nat) :
  mkStream K (Nat.iter m ctr_next iv) 0 = state_at K iv (16 * m).
Proof.
  unfold state_at.
  replace (16 * m / 16)%nat with m
    by (apply (Nat.div_unique _ _ _ 0); lia).
  replace (16 * m mod 16)%nat with 0%nat
    by (apply (Nat.mod_unique _ _ m); lia).
  done.
Qed.

Lemma initCipherStream_at (m : EncryptMetadata) (a : nat) :
  length (KeyPlainText m) = 32%nat → length (IV m) = 16%nat → is_bytes (IV m) →
  Z.of_nat a ≤ MaxInt64 →
  initCipherStream aes_encrypt m (Z.of_nat a)
  = Some (state_at (KeyPlainText m) (IV m) a).
Proof.
  intros HK Hiv Hb Ha. unfold initCipherStream, NewCipher.
  rewrite decide_True by (right; right; done).
  rewrite copy_iv_16 by done.
  pose proof (Nat.div_mod_eq a 16) as Hdm.
  pose proof (Nat.mod_upper_bound a 16 ltac:(done)) as Hm.
  rewrite Z.quot_div_nonneg, Z.rem_mod_nonneg by lia.
  change 16 with (Z.of_nat 16). rewrite <- Nat2Z.inj_div, <- Nat2Z.inj_mod.
  assert (incrementCounter (IV m) (Z.of_nat (a / 16))
          = Nat.iter (a / 16)%nat ctr_next (IV m)) as Hinc.
  { rewrite incrementCounter_iter; [by rewrite Nat2Z.id | done..|].
    split; [lia|]. etrans; [|exact Ha]. apply inj_le. lia. }
  assert ((if 0 <? Z.of_nat a then incrementCounter (IV m) (Z.of_nat (a / 16))
           else IV m) = Nat.iter (a / 16)%nat ctr_next (IV m)) as ->.
  { destruct (0 <? Z.of_nat a) eqn:Hpos; [done|].
    apply Z.ltb_ge in Hpos. assert (a = 0%nat) as -> by lia. done. }
  unfold NewCTR. rewrite state_at_block, Nat2Z.id.
  destruct (0 <? Z.of_nat (a mod 16)) eqn:Hr.
  - rewrite XORKeyStream_state_at. cbn [fst]. rewrite length_replicate.
    do 2 f_equal. lia.
  - apply Z.ltb_ge in Hr. do 2 f_equal. lia.
Qed.

Lemma read_bytes_at (e : AES256CTR (S := bytesReader)) K iv (a s n : nat) (C : list Z) :
  src e = Some (mkReader C (Z.of_nat s)) → eof e = false →
  stream e = Some (state_at K iv a) →
  read_bytes aes_encrypt e n = Some (xor_from K iv a (take n (drop s C))).
Proof.
  intros Hsrc Heof Hst. unfold read_bytes, Read. rewrite Hsrc, Heof.
  cbn [src_Read bytesReader_Source]. unfold bytesReader_Read.
  cbn [rd_data rd_off]. rewrite Nat2Z.id.
  destruct (Z.of_nat (length C) <=? Z.of_nat s) eqn:Hend.
  - apply Z.leb_le in Hend. rewrite drop_ge by lia. by rewrite take_nil.
  - cbn [stream]. rewrite Hst. case_decide as Hlen.
    + by rewrite XORKeyStream_state_at.
    + assert (take n (drop s C) = []) as -> by (apply nil_length_inv; lia). done.
Qed.

Lemma bound_cryptor_ok (m : EncryptMetadata) (r : bytesReader) (seekable : bool)
    (sz : Z) (a : nat) :
  Algorithm m = CipherAES256CTR →
  length (KeyPlainText m) = 32%nat → length (IV m) = 16%nat → is_bytes (IV m) →
  Z.of_nat a ≤ MaxInt64 →
  bound_cryptor aes_encrypt GetMasterKey m r seekable sz (Z.of_nat a)
  = Some (mkCryptor (Some r) seekable (Some (state_at (KeyPlainText m) (IV m) a))
            (Some m) (Z.of_nat a) 0 sz false).
Proof.
  intros Halg HK Hiv Hb Ha. unfold bound_cryptor, LoadMetadata.
  rewrite decide_False by (intros H; by apply H).
  rewrite decide_True by lia.
  unfold SetSource. cbn [metadata]. rewrite initCipherStream_at by done. done.
Qed.

Lemma encrypt_xor (m : EncryptMetadata) (P : list Z) :
  Algorithm m = CipherAES256CTR →
  length (KeyPlainText m) = 32%nat → length (IV m) = 16%nat → is_bytes (IV m) →
  encrypt aes_encrypt GetMasterKey m P = Some (xor_from (KeyPlainText m) (IV m) 0 P).
Proof.
  intros Halg HK Hiv Hb. unfold encrypt.
  rewrite (bound_cryptor_ok m _ true _ 0) by (done || unfold MaxInt64; lia).
  erewrite (read_bytes_at _ _ _ 0 0); [|done..].
  rewrite drop_0, take_ge by lia. done.
Qed.


End RoundTripProofs.

Section RoundTripTheorem.
Import Encrypt.
Variable aes_encrypt : list Z → list Z → list Z.
Variable GetMasterKey : option (list Z).

Lemma xor_from_lookup K iv (a i : nat) (l : list Z) :
  xor_from aes_encrypt K iv a l !! i
  = (λ b, Z.lxor b (keystream_byte aes_encrypt K iv (a + i))) <$> l !! i.
Proof.
  revert a i. induction l as [|b l IH]; intros a i; [done|].
  destruct i as [|i]; simpl.
  - by rewrite Nat.add_0_r.
  - rewrite IH. by replace (S a + i)%nat with (a + S i)%nat by lia.
Qed.

Lemma Seek_start_at (m : EncryptMetadata) (C : list Z) (c s : nat) (sz : Z) :
  length (KeyPlainText m) = 32%nat → length (IV m) = 16%nat → is_bytes (IV m) →
  Z.of_nat (c + s) ≤ MaxInt64 →
  Seek aes_encrypt
    (mkCryptor (Some (mkReader C (Z.of_nat c))) true
       (Some (state_at (KeyPlainText m) (IV m) c)) (Some m) (Z.of_nat c) 0 sz false)
    (Z.of_nat s) SeekStart
  = (Z.of_nat s, None,
     mkCryptor (Some (mkReader C (Z.of_nat (c + s)))) true
       (Some (state_at (KeyPlainText m) (IV m) (c + s))) (Some m) (Z.of_nat c)
       (Z.of_nat s) sz false).
Proof.
  intros HK Hiv Hb Hfit.
  unfold Seek. cbn [metadata src seeker negb counterOffset]. unfold Seek_newPos.
  change (Z.of_nat s =? SeekStart) with (Z.of_nat s =? 0).
  rewrite Z.eqb_refl.
  assert ((Z.of_nat s <? 0) = false) as -> by (apply Z.ltb_ge; lia).
  assert (int64 (Z.of_nat c + Z.of_nat s) = Z.of_nat (c + s)) as ->.
  { unfold int64. rewrite Z.mod_small; unfold MaxInt64 in Hfit; lia. }
  cbn [src_Seek bytesReader_Source]. unfold bytesReader_Seek.
  rewrite Z.eqb_refl.
  assert ((Z.of_nat (c + s) <? 0) = false) as -> by (apply Z.ltb_ge; lia).
  rewrite initCipherStream_at by done. done.
Qed.

(** C1: for a plaintext [P], a 32-byte key, a 16-byte IV and
    [c + s + n ≤ |P|]. The cipher stream that [initCipherStream] makes for
    the absolute position [c + s] is the stream that stands at byte [c + s]
    of the object: its key is the file key, its counter is the IV plus
    [(c + s) / 16] as a big-endian number modulo 2^128, and [(c + s) mod 16]
    bytes of that block are used up. The encryption of [P] is [P] with byte
    [i] xored with byte [i] of the key stream (the AES encryption of the
    successive counters). Reading [n] bytes of it after [Seek(c + s,
    SeekStart)], or after [SetSource] with [counterOffset = c + s] on the
    object sliced at [c + s], or after [Seek(s, SeekStart)] on a cryptor
    bound with [counterOffset = c], gives [P[c+s : c+s+n]]. *)
Theorem cipher_round_trip (m : EncryptMetadata) (P : list Z) (c s n : nat) :
  Algorithm m = CipherAES256CTR →
  length (KeyPlainText m) = 32%nat → length (IV m) = 16%nat → is_bytes (IV m) →
  Z.of_nat (length P) ≤ MaxInt64 →
  (c + s + n ≤ length P)%nat →
  (initCipherStream aes_encrypt m (Z.of_nat (c + s))
   = Some (state_at (KeyPlainText m) (IV m) (c + s))
   ∧ ctr_key (state_at (KeyPlainText m) (IV m) (c + s)) = KeyPlainText m
   ∧ be_val (ctr_counter (state_at (KeyPlainText m) (IV m) (c + s)))
     = (be_val (IV m) + Z.of_nat ((c + s) / 16)) mod 2 ^ 128
   ∧ ctr_used (state_at (KeyPlainText m) (IV m) (c + s)) = ((c + s) mod 16)%nat)
  ∧ ∃ C, encrypt aes_encrypt GetMasterKey m P = Some C
     ∧ length C = length P
     ∧ (∀ i b, P !! i = Some b →
               C !! i = Some (Z.lxor b (keystream_byte aes_encrypt (KeyPlainText m) (IV m) i)))
     ∧ decrypt_seek aes_encrypt GetMasterKey m C (Z.of_nat (c + s)) n
       = Some (take n (drop (c + s) P))
     ∧ decrypt_slice aes_encrypt GetMasterKey m C (Z.of_nat (c + s)) n
       = Some (take n (drop (c + s) P))
     ∧ decrypt_seek_offset aes_encrypt GetMasterKey m C (Z.of_nat c) (Z.of_nat s) n
       = Some (take n (drop (c + s) P)).
Proof.
  intros Halg HK Hiv Hb HP Hsn.
  split.
  { split; [apply initCipherStream_at; [done..|lia]|]. split; [done|].
    split; [|done].
    destruct (iter_ctr_next_spec ((c + s) / 16) (IV m) Hiv Hb) as (_ & _ & Hv).
    exact Hv. }
  exists (xor_from aes_encrypt (KeyPlainText m) (IV m) 0 P).
  split; [by apply encrypt_xor|].
  split; [apply xor_from_length|].
  split; [intros i b Hi; by rewrite xor_from_lookup, Hi|].
  assert (∀ a l, xor_from aes_encrypt (KeyPlainText m) (IV m) a
                 (take n (drop a (xor_from aes_encrypt (KeyPlainText m) (IV m) 0 l)))
               = take n (drop a l)) as Hback.
  { intros a l. rewrite xor_from_drop. simpl. rewrite <- xor_from_take.
    by rewrite xor_from_involutive. }
  split_and!.
  - unfold decrypt_seek.
    rewrite (bound_cryptor_ok aes_encrypt GetMasterKey m _ true _ 0)
      by (done || unfold MaxInt64; lia).
    rewrite (Seek_start_at m _ 0 (c + s)) by (done || simpl; lia).
    erewrite (read_bytes_at _ _ _ _ (c + s) (0 + (c + s))); [|done..].
    by rewrite Hback.
  - unfold decrypt_slice. rewrite Nat2Z.id.
    rewrite (bound_cryptor_ok aes_encrypt GetMasterKey m _ false _ (c + s)) by (done || lia).
    erewrite (read_bytes_at _ _ _ _ (c + s) 0); [|done..].
    rewrite drop_0. by rewrite Hback.
  - unfold decrypt_seek_offset.
    rewrite (bound_cryptor_ok aes_encrypt GetMasterKey m _ true _ c) by (done || lia).
    rewrite (Seek_start_at m _ c s) by (done || lia).
    erewrite (read_bytes_at _ _ _ _ (c + s) (c + s)); [|done..].
    by rewrite Hback.
Qed.
End RoundTripTheorem.

Section CursorProofs.
Import Encrypt.
Variable aes_encrypt : list Z → list Z → list Z.
Context {S : Type} `{!Source S}.

(** C8: a structural error of [Seek] is returned with the cryptor, and so
    its cursor (pos, eof, cipher stream, counterOffset), exactly as before. *)
Theorem Seek_structural_error_atomic (e : AES256CTR (S := S)) (offset whence : Z) :
  Seek_structural_error e offset whence →
  ∃ err, Seek aes_encrypt e offset whence = (0, Some err, e).
Proof.
  intros Herr. unfold Seek.
  destruct (metadata e) as [m|] eqn:Hm; [|eauto].
  destruct (src e) as [s|] eqn:Hs; [|eauto].
  destruct (seeker e) eqn:Hk; simpl; [|eauto].
  destruct (Seek_newPos e offset whence) as [err|newPos] eqn:Hnp; [eauto|].
  destruct (newPos <? 0) eqn:Hneg; [eauto|]. exfalso.
  apply Z.ltb_ge in Hneg.
  destruct Herr as [Hx|[Hx|[Hx|[Hw|[Hsz|Hn]]]]]; [congruence..| | |].
  - destruct Hw as (H0 & H1 & H2). unfold Seek_newPos in Hnp.
    rewrite (proj2 (Z.eqb_neq _ _) H0), (proj2 (Z.eqb_neq _ _) H1),
      (proj2 (Z.eqb_neq _ _) H2) in Hnp. done.
  - destruct Hsz as [-> Hsz]. unfold Seek_newPos in Hnp. simpl in Hnp.
    rewrite (proj2 (Z.ltb_lt _ _) Hsz) in Hnp. done.
  - destruct Hn as (p & Hp & Hlt). rewrite Hnp in Hp. injection Hp as <-. lia.
Qed.


End CursorProofs.

Section CursorExamples.
Import Encrypt.

Lemma Seek_structural_error_atomic_witness :
  ∃ err, Seek toy_block (NewAES256CTR (S := bytesReader)) 10 SeekStart
         = (0, Some err, NewAES256CTR).
Proof. apply Seek_structural_error_atomic. left. reflexivity. Defined.



Lemma incrementCounter_carry_witness :
  incrementCounter (replicate 16 255) 2
  = incrementCounter (incrementCounter (replicate 16 255) (2 - 1)) 1
  ∧ be_val (incrementCounter (replicate 16 255) 2)
    = (be_val (replicate 16 255) + 2) mod 2 ^ 128.
Proof.
  apply incrementCounter_carry; [reflexivity | | unfold MaxInt64; lia].
  unfold is_bytes. simpl. repeat (constructor; [lia|]). constructor.
Defined.

Lemma cipher_round_trip_witness :
  (initCipherStream toy_block sample_metadata (Z.of_nat (7 + 10))
   = Some (state_at sample_key sample_iv (7 + 10))
   ∧ ctr_key (state_at sample_key sample_iv (7 + 10)) = sample_key
   ∧ be_val (ctr_counter (state_at sample_key sample_iv (7 + 10)))
     = (be_val sample_iv + Z.of_nat ((7 + 10) / 16)) mod 2 ^ 128
   ∧ ctr_used (state_at sample_key sample_iv (7 + 10)) = ((7 + 10) mod 16)%nat)
  ∧ ∃ C, encrypt toy_block None sample_metadata sample_plaintext = Some C
     ∧ length C = length sample_plaintext
     ∧ (∀ i b, sample_plaintext !! i = Some b →
               C !! i = Some (Z.lxor b (keystream_byte toy_block sample_key sample_iv i)))
     ∧ decrypt_seek toy_block None sample_metadata C (Z.of_nat (7 + 10)) 5
       = Some (take 5 (drop (7 + 10) sample_plaintext))
     ∧ decrypt_slice toy_block None sample_metadata C (Z.of_nat (7 + 10)) 5
       = Some (take 5 (drop (7 + 10) sample_plaintext))
     ∧ decrypt_seek_offset toy_block None sample_metadata C (Z.of_nat 7) (Z.of_nat 10) 5
       = Some (take 5 (drop (7 + 10) sample_plaintext)).
Proof.
  apply (cipher_round_trip toy_block None sample_metadata sample_plaintext 7 10 5);
    [reflexivity | reflexivity | reflexivity | | unfold MaxInt64; simpl; lia | simpl; lia].
  unfold is_bytes. simpl. repeat (constructor; [lia|]). constructor.
Defined.

End CursorExamples.

(* ===================================================================== *)
(** * Properties of the subscribers and of the hub                        *)
(* ===================================================================== *)

Section HubProofs.
Import EventAlgebra EventHub.
Variable IsAnonymousUser : User → bool.
Variable FromStringOrNil : string → string.



(** ** The sweeper *)

Lemma Since_exceeds now t : offlineMaxAge < Since now t ↔ offlineMaxAge < now - t.
Proof.
  unfold Since, offlineMaxAge, maxDuration, minDuration, Hour, Second.
  destruct (Z.ltb_spec (2 ^ 63 - 1) (now - t)); [lia|].
  destruct (Z.ltb_spec (now - t) (- 2 ^ 63)); lia.
Qed.

Lemma shouldExpire_expired s now : shouldExpire s now = true ↔ expired s now.
Proof.
  unfold shouldExpire, expired.
  rewrite !andb_true_iff, !negb_true_iff, Z.eqb_neq, Z.ltb_lt, Since_exceeds.
  split; intros H; split_and!; try apply H; destruct H as ((? & ?) & ?) || destruct H as (? & ? & ?); lia.
Qed.

Lemma close_fst s st : (close FromStringOrNil s st).1 = closed_form s.
Proof.
  unfold close, closed_form. destruct (closed s); [done|].
  by destruct (DeleteBySubscriber st (FromStringOrNil (id s))).
Qed.

Lemma closed_form_closed s : closed (closed_form s) = true.
Proof. unfold closed_form. by destruct (closed s) eqn:H. Qed.

Lemma closed_form_idem s : closed_form (closed_form s) = closed_form s.
Proof. unfold closed_form at 1. by rewrite closed_form_closed. Qed.

Lemma shouldExpire_closed_form s now :
  shouldExpire (closed_form s) now = shouldExpire s now.
Proof. unfold closed_form. by destruct (closed s). Qed.

Lemma swept_from_refl now hp : swept_from now hp hp.
Proof. intros l. by left. Qed.

Lemma swept_from_close now hp0 hp l s :
  swept_from now hp0 hp → hp !! l = Some s → shouldExpire s now = true →
  swept_from now hp0 (<[l := closed_form s]> hp).
Proof.
  intros Hsw Hl Hexp l'. destruct (decide (l = l')) as [<-|Hne].
  - rewrite lookup_insert_eq. right. destruct (Hsw l) as [Heq|(s0 & H0 & He0 & Hc0)].
    + exists s. by rewrite <- Heq.
    + exists s0. split_and!; [done..|].
      rewrite Hl in Hc0. injection Hc0 as ->. by rewrite closed_form_idem.
  - rewrite lookup_insert_ne by done. apply Hsw.
Qed.

Lemma swept_from_trans now hp0 hp1 hp2 :
  swept_from now hp0 hp1 → swept_from now hp1 hp2 → swept_from now hp0 hp2.
Proof.
  intros H01 H12 l.
  destruct (H12 l) as [Heq|(s1 & H1 & He1 & Hc1)]; [rewrite Heq; apply H01|].
  destruct (H01 l) as [Heq|(s0 & H0 & He0 & Hc0)].
  - right. exists s1. by rewrite <- Heq.
  - right. exists s0. split_and!; [done..|].
    rewrite H1 in Hc0. injection Hc0 as ->. by rewrite Hc1, closed_form_idem.
Qed.

Lemma will_expire_swept now hp0 hp l :
  swept_from now hp0 hp → will_expire hp now l = will_expire hp0 now l.
Proof.
  intros Hsw. unfold will_expire.
  destruct (Hsw l) as [->|(s0 & -> & He0 & ->)]; [done|].
  by rewrite shouldExpire_closed_form.
Qed.

Lemma swept_from_stays_closed now hp1 hp2 l s :
  swept_from now hp1 hp2 → hp1 !! l = Some (closed_form s) →
  hp2 !! l = Some (closed_form s).
Proof.
  intros Hsw Hl. destruct (Hsw l) as [->|(s1 & H1 & _ & ->)]; [done|].
  rewrite Hl in H1. injection H1 as <-. by rewrite closed_form_idem.
Qed.

(** The step of the inner loop on a subscriber that is not swept: the
    accumulator is unchanged. *)
Ltac kept_entry :=
  match goal with
  | Hi : ?m !! ?i = None,
    Hwe : _ = will_expire ?hpIn ?now ?x,
    H1 : ∀ sid, _ !! sid = _,
    H3 : ∀ sid l s, ?m !! sid = Some l → _ |- _ =>
      simpl; split_and!; [|done|];
      [ intros sid; destruct (decide (i = sid)) as [<-|Hne];
        [ rewrite lookup_insert_eq, <- Hwe; rewrite H1, Hi; done
        | rewrite lookup_insert_ne by done; apply H1 ]
      | intros sid l s Hl Hs He; destruct (decide (i = sid)) as [<-|Hne];
        [ rewrite lookup_insert_eq in Hl; injection Hl as <-; exfalso;
          unfold will_expire in Hwe; rewrite Hs, He in Hwe; done
        | rewrite lookup_insert_ne in Hl by done; by eapply H3 ] ]
  end.

Lemma sweep_subs_spec now (m subs0 : gmap string nat) hpIn st0 :
  let r := sweep_subs FromStringOrNil now m (subs0, hpIn, st0) in
  (∀ sid, r.1.1 !! sid =
          match m !! sid with
          | Some l => if will_expire hpIn now l then None else subs0 !! sid
          | None => subs0 !! sid
          end)
  ∧ swept_from now hpIn r.1.2
  ∧ (∀ sid l s, m !! sid = Some l → hpIn !! l = Some s → shouldExpire s now = true →
                r.1.2 !! l = Some (closed_form s)).
Proof.
  unfold sweep_subs.
  apply (map_fold_weak_ind (λ r m,
    (∀ sid, r.1.1 !! sid =
          match m !! sid with
          | Some l => if will_expire hpIn now l then None else subs0 !! sid
          | None => subs0 !! sid
          end)
    ∧ swept_from now hpIn r.1.2
    ∧ (∀ sid l s, m !! sid = Some l → hpIn !! l = Some s → shouldExpire s now = true →
                  r.1.2 !! l = Some (closed_form s)))).
  - simpl. split_and!; [intros sid; by rewrite lookup_empty | apply swept_from_refl |].
    intros sid l s Hl. by rewrite lookup_empty in Hl.
  - clear m. intros i x m [[subs' hp] st] Hi (H1 & H2 & H3). simpl in H1, H2, H3.
    pose proof (will_expire_swept now hpIn hp x H2) as Hwe.
    unfold will_expire in Hwe at 1.
    destruct (hp !! x) as [sub|] eqn:Hx; [destruct (shouldExpire sub now) eqn:Hexp|].
    + destruct (close FromStringOrNil sub st) as [sub' st'] eqn:Hcl.
      assert (sub' = closed_form sub) as -> by (by rewrite <- (close_fst sub st), Hcl).
      simpl. split_and!.
      * intros sid. destruct (decide (i = sid)) as [<-|Hne].
        -- by rewrite lookup_delete_eq, lookup_insert_eq, <- Hwe.
        -- rewrite lookup_delete_ne, lookup_insert_ne by done. apply H1.
      * by apply swept_from_close.
      * intros sid l s Hl Hs He.
        assert (swept_from now hp (<[x := closed_form sub]> hp)) as Hstep.
        { apply swept_from_close; [apply swept_from_refl | done..]. }
        destruct (decide (i = sid)) as [<-|Hne].
        -- rewrite lookup_insert_eq in Hl. injection Hl as <-.
           rewrite lookup_insert_eq. f_equal.
           destruct (H2 x) as [Heq|(s0 & H0 & _ & Hc0)].
           ++ rewrite Hx, Hs in Heq. by injection Heq as ->.
           ++ rewrite Hs in H0. injection H0 as <-. rewrite Hx in Hc0.
              injection Hc0 as ->. by rewrite closed_form_idem.
        -- rewrite lookup_insert_ne in Hl by done.
           eapply swept_from_stays_closed; [exact Hstep|]. by eapply H3.
    + kept_entry.
    + kept_entry.
Qed.

Lemma sweep_topics_spec now (m tps0 : gmap Z (gmap string nat)) hpIn st0 :
  let r := sweep_topics FromStringOrNil now m (tps0, hpIn, st0) in
  (∀ topic sid,
     (r.1.1 !! topic ≫= λ subs : gmap string nat, subs !! sid) =
     match m !! topic with
     | Some subs =>
         match subs !! sid with
         | Some l => if will_expire hpIn now l then None else Some l
         | None => None
         end
     | None => tps0 !! topic ≫= λ subs : gmap string nat, subs !! sid
     end)
  ∧ (∀ topic subs', is_Some (m !! topic) → r.1.1 !! topic = Some subs' → subs' ≠ ∅)
  ∧ (∀ topic, m !! topic = None → r.1.1 !! topic = tps0 !! topic)
  ∧ swept_from now hpIn r.1.2
  ∧ (∀ topic subs sid l s,
       m !! topic = Some subs → subs !! sid = Some l →
       hpIn !! l = Some s → shouldExpire s now = true →
       r.1.2 !! l = Some (closed_form s)).
Proof.
  unfold sweep_topics.
  apply (map_fold_weak_ind (λ r m,
    (∀ topic sid,
       (r.1.1 !! topic ≫= λ subs : gmap string nat, subs !! sid) =
       match m !! topic with
       | Some subs =>
           match subs !! sid with
           | Some l => if will_expire hpIn now l then None else Some l
           | None => None
           end
       | None => tps0 !! topic ≫= λ subs : gmap string nat, subs !! sid
       end)
    ∧ (∀ topic subs', is_Some (m !! topic) → r.1.1 !! topic = Some subs' → subs' ≠ ∅)
    ∧ (∀ topic, m !! topic = None → r.1.1 !! topic = tps0 !! topic)
    ∧ swept_from now hpIn r.1.2
    ∧ (∀ topic subs sid l s,
         m !! topic = Some subs → subs !! sid = Some l →
         hpIn !! l = Some s → shouldExpire s now = true →
         r.1.2 !! l = Some (closed_form s)))).
  - simpl. split_and!.
    + intros topic sid. by rewrite lookup_empty.
    + intros topic subs' [? H]. by rewrite lookup_empty in H.
    + done.
    + apply swept_from_refl.
    + intros topic subs sid l s H. by rewrite lookup_empty in H.
  - clear m. intros i x m [[tps hp] st] Hi (H1 & H2 & H5 & H3 & H4).
    simpl in H1, H2, H3, H4, H5.
    pose proof (sweep_subs_spec now x x hp st) as Hin.
    destruct (sweep_subs FromStringOrNil now x (x, hp, st)) as [[subs' hp1] st1] eqn:Hsw.
    simpl in Hin. destruct Hin as (I1 & I2 & I3). simpl.
    assert (∀ sid, subs' !! sid =
                   match x !! sid with
                   | Some l => if will_expire hpIn now l then None else Some l
                   | None => None
                   end) as Hsubs'.
    { intros sid. rewrite I1. destruct (x !! sid) as [l|] eqn:Hl; [|done].
      by rewrite (will_expire_swept now hpIn hp l H3). }
    split_and!.
    + intros topic sid. destruct (decide (i = topic)) as [<-|Hne].
      * rewrite lookup_insert_eq, <- Hsubs'. case_decide as Hsz.
        -- rewrite lookup_delete_eq. simpl.
           apply map_size_empty_iff in Hsz. subst subs'. by rewrite lookup_empty.
        -- by rewrite lookup_insert_eq.
      * rewrite (lookup_insert_ne m) by done. rewrite <- H1.
        case_decide; [by rewrite lookup_delete_ne | by rewrite lookup_insert_ne].
    + intros topic sb Hsome Hlk. destruct (decide (i = topic)) as [<-|Hne].
      * case_decide as Hsz.
        -- by rewrite lookup_delete_eq in Hlk.
        -- rewrite lookup_insert_eq in Hlk. injection Hlk as <-.
           intros ->. apply Hsz, map_size_empty.
      * rewrite lookup_insert_ne in Hsome by done. apply (H2 topic); [done|].
        revert Hlk. case_decide; [by rewrite lookup_delete_ne | by rewrite lookup_insert_ne].
    + intros topic Hnone. apply lookup_insert_None in Hnone as [Hnone Hne].
      rewrite <- H5 by done.
      case_decide; [by rewrite lookup_delete_ne | by rewrite lookup_insert_ne].
    + by eapply swept_from_trans.
    + intros topic sb sid l s Htop Hl Hs He.
      destruct (decide (i = topic)) as [<-|Hne].
      * rewrite lookup_insert_eq in Htop. injection Htop as <-.
        destruct (H3 l) as [Heq|(s0 & H0 & _ & Hc0)].
        -- apply (I3 sid l s); [done | by rewrite Heq | done].
        -- rewrite Hs in H0. injection H0 as <-.
           rewrite <- (closed_form_idem s).
           apply (I3 sid l (closed_form s)); [done..|].
           by rewrite shouldExpire_closed_form.
      * rewrite lookup_insert_ne in Htop by done.
        eapply swept_from_stays_closed; [exact I2|]. by eapply H4.
Qed.

(** ** Flushing: where the buffer goes *)

Lemma setOnline_owner_nil s st now :
  closed s = false → ownerCached (setOnline FromStringOrNil s st now).1 = None.
Proof.
  intros Hc. unfold setOnline. rewrite Hc.
  by destruct (TakeBySubscriber st (FromStringOrNil (id s)) (uid s)) as [[events|] st'].
Qed.

Lemma flush_offline_nil_owner s st :
  closed s = false → online s = false → buffer s ≠ [] → ownerCached s = None →
  flush FromStringOrNil s st = Panic "nil pointer dereference: s.ownerCached.ID".
Proof.
  intros Hc Hon Hbuf Hown. unfold flush, flushLocked.
  rewrite decide_False by (by destruct (buffer s)).
  by rewrite Hc, Hon, Hown.
Qed.

Lemma Unsubscribe_online (h : eventHub) (topic : Z) (sid : string) (now : Z)
    (l : nat) (s : subscriber) :
  hub_closed h = false → registered h topic sid = Some l → heap h !! l = Some s →
  closed s = false → online s = true → buffer s ≠ [] →
  Unsubscribe FromStringOrNil h topic sid now
  = Done (mkHub (topics h)
            (<[l := mkSub (id s) (uid s)
                      (fold_left try_send (DebounceEvents (buffer s)) (ch s))
                      (ch_closed s) false now [] None (ownerCached s) (cachedAt s)
                      false]> (heap h))
            (fsEventClient h) false).
Proof.
  intros Hopen Hreg Hl Hc Hon Hbuf. unfold Unsubscribe.
  rewrite Hopen, Hreg. simpl. rewrite Hl. simpl.
  unfold Stop, flushLocked. cbn [buffer closed online].
  rewrite decide_False by (by destruct (buffer s)).
  rewrite Hc, Hon. cbn [negb].
  unfold setOffline, flushLocked. cbn [buffer closed online length].
  by rewrite decide_True.
Qed.

End HubProofs.

Section SweeperProofs.
Import EventAlgebra EventHub.
Variable FromStringOrNil : string → string.

Lemma purge_nil st : purge [] st = st.
Proof.
  unfold purge. destruct st as [rs f]. simpl. destruct f; [done|]. f_equal.
  induction rs as [|r rs IH]; [done|].
  rewrite filter_cons, decide_True by (apply not_elem_of_nil). by rewrite IH.
Qed.

Lemma filter_filter_and {A} (P Q R : A → Prop) `{!∀ x, Decision (P x)}
    `{!∀ x, Decision (Q x)} `{!∀ x, Decision (R x)} (l : list A) :
  (∀ x, R x ↔ P x ∧ Q x) → filter P (filter Q l) = filter R l.
Proof.
  intros Hiff. induction l as [|x l IH]; [done|].
  rewrite !filter_cons. destruct (decide (Q x)) as [HQ|HQ].
  - rewrite filter_cons. destruct (decide (P x)) as [HP|HP].
    + rewrite decide_True by (by apply Hiff). by rewrite IH.
    + rewrite decide_False by (intros HR; apply Hiff in HR; tauto). done.
  - rewrite decide_False by (intros HR; apply Hiff in HR; tauto). done.
Qed.

Lemma purge_purge ks1 ks2 st : purge ks2 (purge ks1 st) = purge (ks1 ++ ks2) st.
Proof.
  unfold purge. destruct st as [rs f]. simpl. destruct f; simpl; [done|].
  f_equal. apply filter_filter_and. intros r. rewrite elem_of_app. tauto.
Qed.

Lemma DeleteBySubscriber_purge key ks st :
  (DeleteBySubscriber (purge ks st) key).2 = purge (ks ++ [key]) st.
Proof.
  unfold DeleteBySubscriber, purge. destruct st as [rs f]. simpl.
  destruct f; simpl; [done|]. f_equal. apply filter_filter_and.
  intros r. rewrite elem_of_app, list_elem_of_singleton. tauto.
Qed.

Lemma close_snd s st :
  (close FromStringOrNil s st).2
  = if closed s then st else (DeleteBySubscriber st (FromStringOrNil (id s))).2.
Proof.
  unfold close. destruct (closed s); [done|].
  by destruct (DeleteBySubscriber st (FromStringOrNil (id s))).
Qed.

Lemma closed_form_changed s : closed_form s ≠ s → closed s = false.
Proof. unfold closed_form. destruct (closed s); [done|done]. Qed.

Lemma closed_form_open s : closed s = false → closed_form s ≠ s.
Proof.
  intros Hc Heq. pose proof (closed_form_closed s) as H. rewrite Heq in H. congruence.
Qed.

(** The inner loop: which heap entries change, and what is deleted from
    the store. *)
Lemma sweep_subs_store now (m subs0 : gmap string nat) hpIn stIn :
  let r := sweep_subs FromStringOrNil now m (subs0, hpIn, stIn) in
  swept_from now hpIn r.1.2
  ∧ (∀ l, r.1.2 !! l ≠ hpIn !! l →
          ∃ sid s, m !! sid = Some l ∧ hpIn !! l = Some s
                   ∧ shouldExpire s now = true ∧ closed s = false)
  ∧ ∃ ks, r.2 = purge ks stIn
        ∧ ∀ key, key ∈ ks ↔
                 ∃ sid l s, m !! sid = Some l ∧ hpIn !! l = Some s
                            ∧ shouldExpire s now = true ∧ closed s = false
                            ∧ FromStringOrNil (id s) = key.
Proof.
  unfold sweep_subs.
  apply (map_fold_weak_ind (λ r m,
    swept_from now hpIn r.1.2
    ∧ (∀ l, r.1.2 !! l ≠ hpIn !! l →
            ∃ sid s, m !! sid = Some l ∧ hpIn !! l = Some s
                     ∧ shouldExpire s now = true ∧ closed s = false)
    ∧ ∃ ks, r.2 = purge ks stIn
          ∧ ∀ key, key ∈ ks ↔
                   ∃ sid l s, m !! sid = Some l ∧ hpIn !! l = Some s
                              ∧ shouldExpire s now = true ∧ closed s = false
                              ∧ FromStringOrNil (id s) = key)).
  - simpl. split_and!; [apply swept_from_refl | done |].
    exists []. split; [by rewrite purge_nil|]. intros key. split.
    + by intros ?%elem_of_nil.
    + intros (sid & l & s & H & _). by rewrite lookup_empty in H.
  - clear m. intros i x m [[subs' hp] st] Hi (H1 & H2 & ks & Hst & Hks).
    simpl in H1, H2, Hst.
    assert (∀ l, hp !! l ≠ hpIn !! l →
                 ∃ sid s, <[i:=x]> m !! sid = Some l ∧ hpIn !! l = Some s
                          ∧ shouldExpire s now = true ∧ closed s = false) as H2'.
    { intros l Hl. destruct (H2 l Hl) as (sid & s & Hm & Hs).
      exists sid, s. split; [|done]. rewrite lookup_insert_ne; [done|]. congruence. }
    assert (∀ key, (∃ sid l s, <[i:=x]> m !! sid = Some l ∧ hpIn !! l = Some s
                               ∧ shouldExpire s now = true ∧ closed s = false
                               ∧ FromStringOrNil (id s) = key)
                   ↔ key ∈ ks
                     ∨ (∃ s, hpIn !! x = Some s ∧ shouldExpire s now = true
                             ∧ closed s = false ∧ FromStringOrNil (id s) = key)) as Hins.
    { intros key. rewrite Hks. split.
      - intros (sid & l & s & Hm & Hrest). destruct (decide (i = sid)) as [<-|Hne].
        + rewrite lookup_insert_eq in Hm. injection Hm as <-. right. eauto.
        + rewrite lookup_insert_ne in Hm by done. left. exists sid, l, s. done.
      - intros [(sid & l & s & Hm & Hrest)|(s & Hrest)].
        + exists sid, l, s. split; [|done]. rewrite lookup_insert_ne; [done|]. congruence.
        + exists i, x, s. by rewrite lookup_insert_eq. }
    destruct (hp !! x) as [sub|] eqn:Hx; [destruct (shouldExpire sub now) eqn:Hexp|].
    + pose proof (close_fst FromStringOrNil sub st) as Hf.
      pose proof (close_snd sub st) as Hs.
      destruct (close FromStringOrNil sub st) as [sub' st'] eqn:Hcl.
      simpl in Hf, Hs. subst sub' st'. simpl. split_and!.
      * by apply swept_from_close.
      * intros l Hl. destruct (decide (hp !! l = hpIn !! l)) as [Heq|Hne]; [|by apply H2'].
        destruct (decide (x = l)) as [<-|Hxl].
        -- rewrite lookup_insert_eq in Hl. exists i, sub.
           rewrite lookup_insert_eq, <- Heq. split_and!; [done..|].
           apply closed_form_changed. intros E. apply Hl. by rewrite E, <- Heq.
        -- rewrite lookup_insert_ne in Hl by done. done.
      * destruct (closed sub) eqn:Hc.
        -- exists ks. split; [done|]. intros key. rewrite Hins. split; [by left|].
           intros [?|(s & Hs & He & Hcs & Hk)]; [done|].
           destruct (H1 x) as [Heq|(s0 & H0 & _ & Hc0)].
           ++ rewrite Hx, Hs in Heq. injection Heq as ->. congruence.
           ++ rewrite Hs in H0. injection H0 as <-.
              destruct (H2 x) as (sid & s' & Hm & Hs' & He' & Hc').
              { rewrite Hc0, Hs. intros [= E]. by apply (closed_form_open s). }
              apply Hks. exists sid, x, s'. rewrite Hs in Hs'. injection Hs' as <-. done.
        -- exists (ks ++ [FromStringOrNil (id sub)]).
           split; [rewrite Hst; apply DeleteBySubscriber_purge|].
           assert (hpIn !! x = Some sub) as Hin.
           { destruct (H1 x) as [Heq|(s0 & H0 & _ & Hc0)]; [congruence|].
             rewrite Hx in Hc0. injection Hc0 as ->.
             rewrite closed_form_closed in Hc. done. }
           intros key. rewrite Hins, elem_of_app, list_elem_of_singleton. split.
           ++ intros [?| ->]; [by left|]. right. exists sub. done.
           ++ intros [?|(s & Hs & _ & _ & Hk)]; [by left|]. right. congruence.
    + simpl. split_and!; [done | done |]. exists ks. split; [done|].
      intros key. rewrite Hins. split; [by left|].
      intros [?|(s & Hs & He & Hcs & Hk)]; [done|]. exfalso.
      destruct (H1 x) as [Heq|(s0 & H0 & _ & Hc0)].
      * rewrite Hx, Hs in Heq. congruence.
      * rewrite Hx in Hc0. injection Hc0 as ->. rewrite Hs in H0. injection H0 as <-.
        rewrite shouldExpire_closed_form in Hexp. congruence.
    + simpl. split_and!; [done | done |]. exists ks. split; [done|].
      intros key. rewrite Hins. split; [by left|].
      intros [?|(s & Hs & He & Hcs & Hk)]; [done|]. exfalso.
      destruct (H1 x) as [Heq|(s0 & H0 & _ & Hc0)]; congruence.
Qed.

(** The outer loop. *)
Lemma sweep_topics_store now (m tps0 : gmap Z (gmap string nat)) hp0 st0 :
  let r := sweep_topics FromStringOrNil now m (tps0, hp0, st0) in
  swept_from now hp0 r.1.2
  ∧ (∀ l, r.1.2 !! l ≠ hp0 !! l →
          ∃ topic subs sid s, m !! topic = Some subs ∧ subs !! sid = Some l
                   ∧ hp0 !! l = Some s ∧ shouldExpire s now = true ∧ closed s = false)
  ∧ ∃ ks, r.2 = purge ks st0
        ∧ ∀ key, key ∈ ks ↔
                 ∃ topic subs sid l s, m !! topic = Some subs ∧ subs !! sid = Some l
                            ∧ hp0 !! l = Some s
                            ∧ shouldExpire s now = true ∧ closed s = false
                            ∧ FromStringOrNil (id s) = key.
Proof.
  unfold sweep_topics.
  apply (map_fold_weak_ind (λ r m,
    swept_from now hp0 r.1.2
    ∧ (∀ l, r.1.2 !! l ≠ hp0 !! l →
            ∃ topic subs sid s, m !! topic = Some subs ∧ subs !! sid = Some l
                     ∧ hp0 !! l = Some s ∧ shouldExpire s now = true ∧ closed s = false)
    ∧ ∃ ks, r.2 = purge ks st0
          ∧ ∀ key, key ∈ ks ↔
                   ∃ topic subs sid l s, m !! topic = Some subs ∧ subs !! sid = Some l
                              ∧ hp0 !! l = Some s
                              ∧ shouldExpire s now = true ∧ closed s = false
                              ∧ FromStringOrNil (id s) = key)).
  - simpl. split_and!; [apply swept_from_refl | done |].
    exists []. split; [by rewrite purge_nil|]. intros key. split.
    + by intros ?%elem_of_nil.
    + intros (topic & subs & sid & l & s & H & _). by rewrite lookup_empty in H.
  - clear m. intros i x m [[tps hp] st] Hi (H1 & H2 & ks & Hst & Hks).
    simpl in H1, H2, Hst.
    pose proof (sweep_subs_store now x x hp st) as Hin.
    destruct (sweep_subs FromStringOrNil now x (x, hp, st)) as [[subs' hp1] st1] eqn:Hsw.
    simpl in Hin. destruct Hin as (I1 & I2 & ks1 & Hst1 & Hks1). simpl.
    assert (∀ l, hp !! l ≠ hp0 !! l →
                 ∃ topic subs sid s, <[i:=x]> m !! topic = Some subs ∧ subs !! sid = Some l
                   ∧ hp0 !! l = Some s ∧ shouldExpire s now = true ∧ closed s = false) as H2'.
    { intros l Hl. destruct (H2 l Hl) as (topic & subs & sid & s & Hm & Hs).
      exists topic, subs, sid, s. split; [|done].
      rewrite lookup_insert_ne; [done|]. congruence. }
    split_and!.
    + by eapply swept_from_trans.
    + intros l Hl. destruct (decide (hp !! l = hp0 !! l)) as [Heq|Hne]; [|by apply H2'].
      destruct (I2 l) as (sid & s & Hx & Hs & He & Hc); [by rewrite Heq|].
      exists i, x, sid, s. rewrite lookup_insert_eq, <- Heq. done.
    + exists (ks ++ ks1). split; [by rewrite Hst1, Hst, purge_purge|].
      intros key. rewrite elem_of_app, Hks, Hks1. split.
      * intros [(topic & subs & sid & l & s & Hm & Hrest)|(sid & l & s & Hx & Hs & He & Hc & Hk)].
        -- exists topic, subs, sid, l, s. split; [|done].
           rewrite lookup_insert_ne; [done|]. congruence.
        -- exists i, x, sid, l, s. rewrite lookup_insert_eq. split_and!; try done.
           destruct (H1 l) as [Heq|(s0 & H0 & _ & Hc0)]; [congruence|].
           rewrite Hs in Hc0. injection Hc0 as ->.
           rewrite closed_form_closed in Hc. done.
      * intros (topic & subs & sid & l & s & Hm & Hl & Hs & He & Hc & Hk).
        destruct (decide (i = topic)) as [<-|Hne].
        -- rewrite lookup_insert_eq in Hm. injection Hm as <-.
           destruct (decide (hp !! l = hp0 !! l)) as [Heq|Hneq].
           ++ right. exists sid, l, s. rewrite Heq. done.
           ++ left. destruct (H2 l Hneq) as (t' & sb' & sid' & s' & Hm' & Hl' & Hs' & He' & Hc').
              exists t', sb', sid', l, s'. rewrite Hs in Hs'. injection Hs' as <-. done.
        -- rewrite lookup_insert_ne in Hm by done. left.
           exists topic, subs, sid, l, s. done.
Qed.

(** C9: one run of the sweeper over an open hub removes exactly the
    expired subscribers. A registered subscriber that is offline, stamped
    and offline for more than 14 days is no longer registered and is closed:
    unless it was closed before, its channel is closed, its buffer dropped
    and its timer stopped. A registered subscriber that is online, or not
    stamped, or offline for at most 14 days stays registered, unchanged. No
    topic is left empty, the sweep registers nothing, the hub stays open and
    no other subscriber is touched. The durable store loses exactly the
    records of the subscribers the sweep closed (a failing store keeps what
    it has). *)
Theorem cleanup_removes_exactly_expired (h : eventHub) (now : Z) :
  hub_closed h = false →
  let h' := cleanupExpiredSubscribers FromStringOrNil h now in
  (∀ topic sid l s,
     registered h topic sid = Some l → heap h !! l = Some s →
     (expired s now →
        registered h' topic sid = None
        ∧ heap h' !! l
          = Some (if closed s then s
                  else mkSub (id s) (uid s) (ch s) true (online s) (offlineSince s)
                         [] None (ownerCached s) (cachedAt s) true)
        ∧ ∃ s', heap h' !! l = Some s' ∧ closed s' = true)
     ∧ (online s = true ∨ offlineSince s = 0 ∨ now - offlineSince s ≤ offlineMaxAge →
        registered h' topic sid = Some l ∧ heap h' !! l = Some s))
  ∧ (∀ topic subs, topics h' !! topic = Some subs → subs ≠ ∅)
  ∧ (∀ topic sid l, registered h' topic sid = Some l → registered h topic sid = Some l)
  ∧ hub_closed h' = false
  ∧ (∀ l, heap h' !! l ≠ heap h !! l →
          ∃ topic sid s, registered h topic sid = Some l ∧ heap h !! l = Some s
                         ∧ expired s now ∧ closed s = false)
  ∧ ∃ ks : list string,
      (∀ key, key ∈ ks ↔
              ∃ topic sid l s, registered h topic sid = Some l ∧ heap h !! l = Some s
                               ∧ expired s now ∧ closed s = false
                               ∧ FromStringOrNil (id s) = key)
      ∧ fsEventClient h'
        = if failing (fsEventClient h) then fsEventClient h
          else mkStore (filter (λ r, fe_subscriber r ∉ ks) (rows (fsEventClient h))) false.
Proof.
  intros Hopen. unfold cleanupExpiredSubscribers. rewrite Hopen.
  pose proof (sweep_topics_spec FromStringOrNil now (topics h) (topics h) (heap h)
                (fsEventClient h)) as Hsp.
  pose proof (sweep_topics_store now (topics h) (topics h) (heap h) (fsEventClient h)) as Hstore.
  destruct (sweep_topics FromStringOrNil now (topics h)
              (topics h, heap h, fsEventClient h)) as [[tps' hp'] st'] eqn:Hsw.
  simpl in Hsp. destruct Hsp as (H1 & H2 & H5 & H3 & H4).
  simpl in Hstore. destruct Hstore as (_ & S2 & ks & Hst & Hks). simpl.
  assert (∀ topic sid,
            registered (mkHub tps' hp' st' false) topic sid =
            match registered h topic sid with
            | Some l => if will_expire (heap h) now l then None else Some l
            | None => None
            end) as Hreg.
  { intros topic sid. unfold registered. simpl. rewrite H1.
    destruct (topics h !! topic) as [subs|]; simpl; [|done].
    by destruct (subs !! sid). }
  assert (∀ topic sid l, registered h topic sid = Some l
                         ↔ ∃ subs, topics h !! topic = Some subs ∧ subs !! sid = Some l)
    as Hregd.
  { intros topic sid l. unfold registered.
    destruct (topics h !! topic) as [subs|]; simpl; [|split; [done|by intros (? & ? & ?)]].
    split; [eauto|]. by intros (? & [= <-] & ?). }
  split_and!.
  - intros topic sid l s Hr Hl. rewrite Hreg, Hr. unfold will_expire. rewrite Hl.
    split.
    + intros Hexp. apply shouldExpire_expired in Hexp. rewrite Hexp.
      assert (hp' !! l = Some (closed_form s)) as Hcf.
      { apply Hregd in Hr as (subs & Ht & Hs). by apply (H4 topic subs sid l s). }
      split; [done|]. split.
      * rewrite Hcf. unfold closed_form. by destruct (closed s).
      * exists (closed_form s). split; [done|apply closed_form_closed].
    + intros Hkeep.
      assert (shouldExpire s now = false) as Hno.
      { destruct (shouldExpire s now) eqn:He; [|done].
        apply shouldExpire_expired in He. destruct He as (Hon & Hz & Hage).
        destruct Hkeep as [?|[?|?]]; [congruence | done | lia]. }
      rewrite Hno. split; [done|].
      destruct (H3 l) as [->|(s0 & H0 & He0 & _)]; [done|].
      rewrite Hl in H0. injection H0 as <-. congruence.
  - intros topic subs Hlk. apply (H2 topic); [|done].
    destruct (topics h !! topic) as [sb|] eqn:Ht; [eauto|].
    rewrite H5 in Hlk by done. congruence.
  - intros topic sid l. rewrite Hreg.
    destruct (registered h topic sid) as [l'|]; [|done].
    destruct (will_expire (heap h) now l'); [done|]. done.
  - done.
  - intros l Hl. destruct (S2 l Hl) as (topic & subs & sid & s & Ht & Hs & Hh & He & Hc).
    exists topic, sid, s. split_and!; try done.
    + apply Hregd. eauto.
    + by apply shouldExpire_expired.
  - exists ks. split.
    + intros key. rewrite Hks. split.
      * intros (topic & subs & sid & l & s & Ht & Hs & Hh & He & Hc & Hk).
        exists topic, sid, l, s. split_and!; try done.
        -- apply Hregd. eauto.
        -- by apply shouldExpire_expired.
      * intros (topic & sid & l & s & Hr & Hh & He & Hc & Hk).
        apply Hregd in Hr as (subs & Ht & Hs).
        exists topic, subs, sid, l, s. split_and!; try done.
        by apply shouldExpire_expired.
    + rewrite Hst. unfold purge. destruct (failing (fsEventClient h)); done.
Qed.

End SweeperProofs.

Section HubExamples.
Import EventAlgebra EventHub.

(** C10 fails on the code (a defect of the code): [setOnline] sets the owner
    cache to nil, and a flush of an offline subscriber with a non-empty
    buffer and a nil owner cache dereferences it; a client that subscribes,
    disconnects, resumes and disconnects again reaches that flush with the
    next published event. *)
Theorem flush_offline_dereferences_nil_owner :
  (∀ F s st now, closed s = false → ownerCached (setOnline F s st now).1 = None)
  ∧ (∀ F s st,
       closed s = false → online s = false → buffer s ≠ [] → ownerCached s = None →
       flush F s st = Panic "nil pointer dereference: s.ownerCached.ID")
  ∧ run_from_new (removelast resume_then_publish)
    = Some (Done (mkSub "C1" 1 [] false false 4000 [modify9] (Some (5000 + debounceDelay))
                    None 1000 false,
                  mkStore [] false))
  ∧ run_from_new resume_then_publish
    = Some (Panic "nil pointer dereference: s.ownerCached.ID").
Proof.
  split_and!.
  - intros F s st now. apply setOnline_owner_nil.
  - intros F s st. apply flush_offline_nil_owner.
  - vm_compute; reflexivity.
  - vm_compute; reflexivity.
Qed.

(** C5 fails on the code (a defect of the code): [Unsubscribe] runs [Stop]
    while the subscriber is still online, so a non-empty buffer is sent
    through the algebra to the live channel and the durable store is left as
    it was; with the channel full, the buffered event is dropped. *)
Theorem Unsubscribe_drops_buffered_event :
  (∀ F h topic sid now l s,
     hub_closed h = false → registered h topic sid = Some l → heap h !! l = Some s →
     closed s = false → online s = true → buffer s ≠ [] →
     Unsubscribe F h topic sid now
     = Done (mkHub (topics h)
               (<[l := mkSub (id s) (uid s)
                         (fold_left try_send (DebounceEvents (buffer s)) (ch s))
                         (ch_closed s) false now [] None (ownerCached s) (cachedAt s)
                         false]> (heap h))
               (fsEventClient h) false))
  ∧ observe hub_channel_full
    = (Some 0%nat,
       Some (mkSub "C1" 1 sixteen_creates false true 0 [modify9]
               (Some (7000 + debounceDelay)) sample_user 1000 false),
       [])
  ∧ match Unsubscribe sample_uuid hub_channel_full 42 "C1" 8000 with
    | Done h' => Some (observe h')
    | Panic _ => None
    end
    = Some (Some 0%nat,
            Some (mkSub "C1" 1 sixteen_creates false false 8000 []
                    None sample_user 1000 false),
            []).
Proof.
  split_and!.
  - intros F h topic sid now l s. apply Unsubscribe_online.
  - vm_compute; reflexivity.
  - vm_compute; reflexivity.
Qed.



Lemma cleanup_removes_exactly_expired_witness :
  registered (cleanupExpiredSubscribers sample_uuid hub_offline (4001 + offlineMaxAge))
    42 "C1" = None
  ∧ heap (cleanupExpiredSubscribers sample_uuid hub_offline (4001 + offlineMaxAge)) !! 0%nat
    = Some (mkSub "C1" 1 [] true false 4000 [] None sample_user 1000 true)
  ∧ registered (cleanupExpiredSubscribers sample_uuid hub_offline (4000 + offlineMaxAge))
      42 "C1" = Some 0%nat.
Proof.
  split_and!.
  - destruct (cleanup_removes_exactly_expired sample_uuid hub_offline
                (4001 + offlineMaxAge) eq_refl) as (H & _).
    destruct (H 42 "C1" 0%nat
                (mkSub "C1" 1 [] false false 4000 [] None sample_user 1000 false))
      as [Hexp _]; [vm_compute; reflexivity.. |].
    apply Hexp. unfold expired. simpl. lia.
  - destruct (cleanup_removes_exactly_expired sample_uuid hub_offline
                (4001 + offlineMaxAge) eq_refl) as (H & _).
    destruct (H 42 "C1" 0%nat
                (mkSub "C1" 1 [] false false 4000 [] None sample_user 1000 false))
      as [Hexp _]; [vm_compute; reflexivity.. |].
    apply Hexp. unfold expired. simpl. lia.
  - destruct (cleanup_removes_exactly_expired sample_uuid hub_offline
                (4000 + offlineMaxAge) eq_refl) as (H & _).
    destruct (H 42 "C1" 0%nat
                (mkSub "C1" 1 [] false false 4000 [] None sample_user 1000 false))
      as [_ Hkeep]; [vm_compute; reflexivity.. |].
    apply Hkeep. right. right. simpl. lia.
Defined.

End HubExamples.

(* ===================================================================== *)
(** * Further properties of the event algebra                           *)
(* ===================================================================== *)

Section EventAlgebraMore.
Import EventAlgebra PerFile.

Lemma fold_step_order_subseteq xs acc :
  (fold_left step xs acc).2 ⊆ acc.2 ++ (FileID <$> xs).
Proof.
  revert acc. induction xs as [|e xs IH]; intros [states order]; cbn [fold_left].
  - simpl. by rewrite app_nil_r.
  - etrans; [apply IH|]. pose proof (step_order_cases states order e) as Hc.
    remember (step (states, order) e) as acc1 eqn:Hacc. clear Hacc.
    intros x Hx. simpl. apply elem_of_app in Hx as [Hx|Hx].
    + destruct (states !! FileID e).
      * apply elem_of_app. left. eapply elem_of_sublist; [exact Hx | exact Hc].
      * rewrite Hc in Hx. set_solver.
    + set_solver.
Qed.

Lemma DebounceEvents_ids_from_input xs e :
  e ∈ DebounceEvents xs → FileID e ∈ FileID <$> xs.
Proof.
  unfold DebounceEvents. destruct xs as [|e0 xs0]; [set_solver|].
  pose proof (fold_step_order_subseteq (e0 :: xs0) (∅, [])) as Hsub.
  fold (run (e0 :: xs0)) in Hsub. destruct (run (e0 :: xs0)) as [states order].
  intros He. apply Hsub. simpl.
  eapply elem_of_sublist; [|apply build_ids_sublist].
  apply list_elem_of_fmap. eauto.
Qed.

(** X1: the output of [DebounceEvents] has at most one event per file, and
    every event of the output is about a file of the input. *)
Theorem DebounceEvents_one_event_per_file (xs : list Event) :
  NoDup (FileID <$> DebounceEvents xs)
  ∧ ∀ e, e ∈ DebounceEvents xs → ∃ e', e' ∈ xs ∧ FileID e' = FileID e.
Proof.
  split; [apply DebounceEvents_ids_NoDup|].
  intros e He. apply DebounceEvents_ids_from_input in He.
  apply list_elem_of_fmap in He as (e' & Heq & He'). eauto.
Qed.

(** X2: every event of the output of [DebounceEvents] has one of the four
    event types, and only a rename carries a destination ([To]). *)
Theorem DebounceEvents_output_form (xs : list Event) :
  Forall (λ e, (EType e = EventTypeCreate ∨ EType e = EventTypeModify
                ∨ EType e = EventTypeRename ∨ EType e = EventTypeDelete)
               ∧ (EType e ≠ EventTypeRename → To e = EmptyString))
         (DebounceEvents xs).
Proof.
  eapply Forall_impl; [apply DebounceEvents_normal|]. intros e Hn.
  unfold normal, emit, state_of in Hn. simpl in Hn.
  repeat case_decide; simplify_eq; destruct e; simplify_eq/=; naive_solver.
Qed.

Lemma step_lookup_same acc acc' e :
  acc.1 !! FileID e = acc'.1 !! FileID e →
  (step acc e).1 !! FileID e = (step acc' e).1 !! FileID e.
Proof.
  destruct acc as [st o], acc' as [st' o']. simpl. intros Heq. unfold step.
  rewrite <- Heq. destruct (st !! FileID e) as [s|] eqn:Hs;
    repeat case_decide; simpl; rewrite ?lookup_insert_eq, ?lookup_delete_eq; congruence.
Qed.

Lemma fold_step_lookup_filter xs f acc acc' :
  acc.1 !! f = acc'.1 !! f →
  (fold_left step xs acc).1 !! f = (fold_left step (events_of f xs) acc').1 !! f.
Proof.
  revert acc acc'. induction xs as [|e xs IH]; intros acc acc' Heq; [done|].
  unfold events_of. rewrite filter_cons. case_decide as He; simpl.
  - apply IH. subst f. by apply step_lookup_same.
  - apply IH. by rewrite step_lookup_other.
Qed.

Lemma run_lookup_events_of xs f : (run xs).1 !! f = (run (events_of f xs)).1 !! f.
Proof. by apply fold_step_lookup_filter. Qed.

Lemma filter_build states order f :
  NoDup order →
  filter (λ e, FileID e = f) (build states order)
  = if decide (f ∈ order) then file_result states f else [].
Proof.
  induction 1 as [|x order Hx Hnd IH].
  - case_decide; [set_solver | done].
  - assert (filter (λ e, FileID e = f) (build states (x :: order))
            = (if decide (x = f) then file_result states f else [])
              ++ filter (λ e, FileID e = f) (build states order)) as ->.
    { cbn [build]. unfold file_result. destruct (decide (x = f)) as [->|Hxf].
      - destruct (states !! f) as [st|]; [|done]. simpl.
        destruct (emit f st) as [ev|] eqn:He; [|done].
        rewrite filter_cons, decide_True by (by eapply emit_FileID). done.
      - destruct (states !! x) as [st|]; [|done].
        destruct (emit x st) as [ev|] eqn:He; [|done].
        rewrite filter_cons, decide_False; [done|].
        by rewrite (emit_FileID _ _ _ He). }
    rewrite IH. destruct (decide (x = f)) as [->|Hne].
    + rewrite (decide_False (P := f ∈ order)) by done.
      rewrite (decide_True (P := f ∈ f :: order)) by set_solver.
      by rewrite app_nil_r.
    + destruct (decide (f ∈ order)).
      * by rewrite decide_True by set_solver.
      * by rewrite decide_False by set_solver.
Qed.

Lemma events_of_DebounceEvents xs f :
  events_of f (DebounceEvents xs) = file_result (run xs).1 f.
Proof.
  unfold events_of, DebounceEvents. destruct xs as [|e0 xs0]; [done|].
  pose proof (run_acc_ok (e0 :: xs0)) as [Hnd Hdom].
  destruct (run (e0 :: xs0)) as [states order]. simpl in *.
  rewrite filter_build by done. case_decide as Hin; [done|].
  unfold file_result. destruct (states !! f) eqn:Hs; [|done].
  exfalso. apply Hin, Hdom. eauto.
Qed.

Lemma events_of_all f xs : Forall (λ e, FileID e = f) xs → events_of f xs = xs.
Proof.
  induction 1 as [|e xs He Hall IH]; [done|].
  unfold events_of in *. by rewrite filter_cons, decide_True, IH.
Qed.

Lemma events_of_Forall f xs : Forall (λ e, FileID e = f) (events_of f xs).
Proof. apply Forall_forall. intros e He. by apply list_elem_of_filter in He as [? _]. Qed.

(** X3: files do not interfere. The events of a file [f] in the output of
    [DebounceEvents] are the output of [DebounceEvents] on the events of [f]
    alone. *)
Theorem DebounceEvents_per_file (xs : list Event) (f : string) :
  events_of f (DebounceEvents xs) = DebounceEvents (events_of f xs).
Proof.
  rewrite events_of_DebounceEvents. unfold file_result.
  rewrite run_lookup_events_of. fold (file_result (run (events_of f xs)).1 f).
  rewrite <- events_of_DebounceEvents.
  apply events_of_all. apply Forall_forall. intros e He.
  apply DebounceEvents_ids_from_input in He.
  apply list_elem_of_fmap in He as (e' & -> & He').
  pose proof (events_of_Forall f xs) as Hall. rewrite Forall_forall in Hall. by apply Hall.
Qed.

Lemma step_first acc e :
  acc.1 !! FileID e = None →
  (step acc e).1 !! FileID e = Some (state_of e).
Proof.
  destruct acc as [st o]. simpl. intros H. unfold step. rewrite H. simpl.
  by rewrite lookup_insert_eq.
Qed.

Lemma step_rename_on_rename acc e st :
  acc.1 !! FileID e = Some st → baseType st = EventTypeRename →
  EType e = EventTypeRename →
  (step acc e).1 !! FileID e
  = if decide (originalSrc st = To e) then None
    else Some (mkState EventTypeRename (originalSrc st) (To e)).
Proof.
  destruct acc as [sts o]. simpl. intros H Hb He. unfold step. rewrite H, He, Hb.
  repeat (case_decide; try done); simpl.
  - by rewrite lookup_delete_eq.
  - by rewrite lookup_insert_eq.
Qed.

(** X4: a file whose only events are a rename from [a] to [b] and then a
    rename from [b] back to [a] has no event in the output, whatever
    happens to other files in between. *)
Theorem DebounceEvents_rename_round_trip (xs : list Event) (f a b : string) :
  events_of f xs = [ mkEvent EventTypeRename f a b; mkEvent EventTypeRename f b a ] →
  events_of f (DebounceEvents xs) = [].
Proof.
  intros Hf. rewrite events_of_DebounceEvents. unfold file_result.
  rewrite run_lookup_events_of, Hf. unfold run. cbn [fold_left].
  set (r1 := mkEvent EventTypeRename f a b). set (r2 := mkEvent EventTypeRename f b a).
  change f with (FileID r2).
  erewrite step_rename_on_rename; [|apply (step_first _ r1); apply lookup_empty|done..].
  simpl. by rewrite decide_True.
Qed.

Lemma fold_step_base_create mids acc f st :
  acc.1 !! f = Some st → baseType st = EventTypeCreate →
  Forall (λ e, FileID e = f ∧
               (EType e = EventTypeCreate ∨ EType e = EventTypeModify
                ∨ EType e = EventTypeRename)) mids →
  ∃ st', (fold_left step mids acc).1 !! f = Some st' ∧ baseType st' = EventTypeCreate.
Proof.
  revert acc st. induction mids as [|e mids IH]; intros [sts o] st Hlk Hb Hall; simpl in *.
  - eauto.
  - apply Forall_cons in Hall as [[Hf Ht] Hall]. subst f.
    assert (∃ st1, (step (sts, o) e).1 !! FileID e = Some st1
                   ∧ baseType st1 = EventTypeCreate) as (st1 & H1 & Hb1).
    { unfold step. rewrite Hlk, Hb.
      destruct Ht as [Ht|[Ht|Ht]]; rewrite Ht; repeat (case_decide; try done); simpl;
        rewrite ?lookup_insert_eq; eauto. }
    by eapply IH.
Qed.

(** X5: a file that is created, then created, modified or renamed any
    number of times, and then deleted, has no event in the output. *)
Theorem DebounceEvents_ephemeral (xs mids : list Event) (f : string) (c d : Event) :
  events_of f xs = c :: mids ++ [d] →
  EType c = EventTypeCreate → EType d = EventTypeDelete →
  Forall (λ e, EType e = EventTypeCreate ∨ EType e = EventTypeModify
               ∨ EType e = EventTypeRename) mids →
  events_of f (DebounceEvents xs) = [].
Proof.
  intros Hf Hc Hd Hmids. rewrite events_of_DebounceEvents. unfold file_result.
  rewrite run_lookup_events_of, Hf.
  pose proof (events_of_Forall f xs) as Hall. rewrite Hf in Hall.
  apply Forall_cons in Hall as [Hcf Hall]. apply Forall_app in Hall as [Hmf Hdf].
  rewrite Forall_singleton in Hdf. simpl in Hcf, Hdf.
  unfold run. cbn [fold_left]. rewrite fold_left_app. cbn [fold_left].
  destruct (fold_step_base_create mids (step (∅, []) c) f (state_of c))
    as (st' & Hlk & Hb); [| done |..].
  { rewrite <- Hcf. apply step_first, lookup_empty. }
  { rewrite Forall_forall in *. intros e He. split; [by apply Hmf | by apply Hmids]. }
  destruct (fold_left step mids (step (∅, []) c)) as [sts o]. simpl in Hlk.
  unfold step. rewrite Hdf, Hlk, Hd, Hb. repeat (case_decide; try done). simpl.
  by rewrite <- Hdf, lookup_delete_eq.
Qed.

Lemma fold_step_rename_chain rest acc f a dst :
  acc.1 !! f = Some (mkState EventTypeRename a dst) →
  Forall (λ e, FileID e = f ∧ EType e = EventTypeRename ∧ To e ≠ a) rest →
  (fold_left step rest acc).1 !! f
  = Some (mkState EventTypeRename a (default dst (To <$> last rest))).
Proof.
  revert acc dst. induction rest as [|e rest IH]; intros acc dst Hlk Hall; [done|].
  apply Forall_cons in Hall as [(Hf & Ht & Hne) Hall]. subst f. cbn [fold_left].
  assert ((step acc e).1 !! FileID e = Some (mkState EventTypeRename a (To e))) as H1.
  { rewrite (step_rename_on_rename acc e _ Hlk eq_refl Ht). simpl.
    by rewrite decide_False by (intros ?; by apply Hne). }
  rewrite (IH _ (To e) H1 Hall).
  assert (default (To e) (To <$> last rest) = default dst (To <$> last (e :: rest))) as ->; [|done].
  destruct rest as [|e' rest].
  - reflexivity.
  - rewrite last_cons_cons. destruct (last (e' :: rest)) eqn:Hl; [done|].
    by apply last_None in Hl.
Qed.

(** X6: a file whose events are renames, none of which leads back to the
    first source path, gives one rename from the first source to the last
    destination. *)
Theorem DebounceEvents_rename_chain (xs rest : list Event) (f : string) (r : Event) :
  events_of f xs = r :: rest →
  EType r = EventTypeRename →
  Forall (λ e, EType e = EventTypeRename ∧ To e ≠ EFrom r) rest →
  events_of f (DebounceEvents xs)
  = [ mkEvent EventTypeRename f (EFrom r) (default (To r) (To <$> last rest)) ].
Proof.
  intros Hf Hr Hrest. rewrite events_of_DebounceEvents. unfold file_result.
  rewrite run_lookup_events_of, Hf.
  pose proof (events_of_Forall f xs) as Hall. rewrite Hf in Hall.
  apply Forall_cons in Hall as [Hrf Hall]. simpl in Hrf.
  unfold run. cbn [fold_left].
  rewrite (fold_step_rename_chain rest _ f (EFrom r) (To r)).
  - simpl. unfold emit. simpl. repeat (case_decide; try done); reflexivity.
  - rewrite <- Hrf, step_first by apply lookup_empty. unfold state_of. by rewrite Hr.
  - rewrite Forall_forall in *. intros e He. destruct (Hrest e He). split_and!; auto.
Qed.

(** X7: a file whose last event is a delete gives no event, or one delete:
    a deleted file is never reported as created, modified or renamed. *)
Theorem DebounceEvents_delete_last (xs pre : list Event) (f : string) (d : Event) :
  events_of f xs = pre ++ [d] → EType d = EventTypeDelete →
  events_of f (DebounceEvents xs) = []
  ∨ ∃ from, events_of f (DebounceEvents xs) = [ mkEvent EventTypeDelete f from EmptyString ].
Proof.
  intros Hf Hd. rewrite events_of_DebounceEvents. unfold file_result.
  rewrite run_lookup_events_of, Hf.
  pose proof (events_of_Forall f xs) as Hall. rewrite Hf in Hall.
  apply Forall_app in Hall as [_ Hdf]. rewrite Forall_singleton in Hdf.
  rewrite run_snoc. destruct (run pre) as [sts o]. unfold step.
  rewrite Hdf. destruct (sts !! f) as [st|] eqn:Hlk.
  - rewrite Hd. repeat (case_decide; try done); simpl;
      rewrite ?lookup_delete_eq, ?lookup_insert_eq, ?Hlk; simpl; eauto.
    unfold emit. repeat (case_decide; try done); eauto.
  - simpl. rewrite lookup_insert_eq. simpl. unfold emit. simpl. rewrite Hd. simpl. eauto.
Qed.

End EventAlgebraMore.

(* ===================================================================== *)
(** * Key wrapping, metadata and vaults                                 *)
(* ===================================================================== *)

Section KeyWrapProofs.
Import Encrypt KeyWrapping.
Variable aes_encrypt : list Z → list Z → list Z.

Lemma NewCTR_state_at block iv : NewCTR block iv = state_at block iv 0.
Proof. reflexivity. Qed.

Lemma NewCipher_Some mk block : NewCipher mk = Some block → block = mk.
Proof. unfold NewCipher. case_decide; congruence. Qed.

Lemma key_wrap_inverse (masterKey data iv : list Z) :
  (length masterKey = 16 ∨ length masterKey = 24 ∨ length masterKey = 32)%nat →
  length iv = 16%nat →
  ∃ wrapped,
    EncryptWithMasterKey aes_encrypt (Some iv) masterKey data = Some wrapped
    ∧ length wrapped = (16 + length data)%nat
    ∧ take 16 wrapped = iv
    ∧ DecryptWithMasterKey aes_encrypt masterKey wrapped = Some data.
Proof.
  intros Hmk Hiv. unfold EncryptWithMasterKey, DecryptWithMasterKey, NewCipher.
  rewrite decide_True by done. eexists. split; [done|].
  rewrite NewCTR_state_at, XORKeyStream_state_at. cbn [snd].
  rewrite length_app, xor_from_length, Hiv. split; [done|].
  rewrite take_app_length' by done. split; [done|].
  rewrite decide_False by lia. rewrite drop_app_length' by done.
  rewrite NewCTR_state_at, XORKeyStream_state_at. cbn [snd].
  by rewrite xor_from_involutive.
Qed.

(** X8: with a master key of 16, 24 or 32 bytes and a 16-byte IV from the
    random source, [EncryptWithMasterKey] returns the IV followed by as many
    bytes as the data, and [DecryptWithMasterKey] of that under the same
    master key returns the data. *)
Theorem key_wrap_round_trip (masterKey data iv : list Z) :
  (length masterKey = 16 ∨ length masterKey = 24 ∨ length masterKey = 32)%nat →
  length iv = 16%nat →
  ∃ wrapped,
    EncryptWithMasterKey aes_encrypt (Some iv) masterKey data = Some wrapped
    ∧ length wrapped = (16 + length data)%nat
    ∧ take 16 wrapped = iv
    ∧ DecryptWithMasterKey aes_encrypt masterKey wrapped = Some data.
Proof.
  intros Hmk Hiv. unfold EncryptWithMasterKey. unfold NewCipher at 1.
  rewrite decide_True by done.
  exists (iv ++ xor_from aes_encrypt masterKey iv 0 data).
  rewrite NewCTR_state_at, XORKeyStream_state_at. cbn [snd].
  split; [done|]. split; [by rewrite length_app, xor_from_length, Hiv|].
  split; [by rewrite take_app_length'|].
  unfold DecryptWithMasterKey, NewCipher.
  rewrite decide_False by (rewrite length_app; lia).
  rewrite decide_True by done. rewrite take_app_length', drop_app_length' by done.
  rewrite NewCTR_state_at, XORKeyStream_state_at. cbn [snd].
  by rewrite xor_from_involutive.
Qed.

(** X9: the metadata that [GenerateMetadata] makes carries the algorithm,
    the file key in plain text and wrapped, and the IV; [LoadMetadata] of it
    with the plain-text key stripped (as it is stored), under the same master
    key, recovers the file key and the IV. *)
Theorem metadata_round_trip (masterKey key iv wrap_iv : list Z)
    (e : AES256CTR (S := bytesReader)) :
  (length masterKey = 16 ∨ length masterKey = 24 ∨ length masterKey = 32)%nat →
  length wrap_iv = 16%nat →
  ∃ m,
    GenerateMetadata aes_encrypt (Some masterKey) (Some key) (Some iv) (Some wrap_iv)
    = Some m
    ∧ Algorithm m = CipherAES256CTR ∧ KeyPlainText m = key ∧ IV m = iv
    ∧ length (Key m) = (16 + length key)%nat
    ∧ LoadMetadata aes_encrypt (Some masterKey) e
        (Some (mkMetadata (Algorithm m) (Key m) [] (IV m)))
      = (None,
         mkCryptor (src e) (seeker e) (stream e)
           (Some (mkMetadata CipherAES256CTR [] key iv))
           (counterOffset e) (pos e) (size e) (eof e)).
Proof.
  intros Hmk Hw.
  destruct (key_wrap_inverse masterKey key wrap_iv Hmk Hw)
    as (wrapped & Henc & Hlen & _ & Hdec).
  unfold GenerateMetadata. rewrite Henc. eexists. split; [done|].
  cbn [Algorithm KeyPlainText IV Key]. split_and!; [done..|].
  unfold LoadMetadata. cbn [Algorithm KeyPlainText IV Key].
  rewrite decide_False by (intros H; by apply H).
  rewrite decide_False by (simpl; lia).
  unfold DecriptKey. by rewrite Hdec.
Qed.

(** X10: advancing a 16-byte counter by [a] blocks and then by [b] blocks
    is advancing it by [a + b] blocks, when [a + b] is an [int64]. *)
Theorem incrementCounter_additive (counter : list Z) (a b : Z) :
  length counter = 16%nat → is_bytes counter →
  0 ≤ a → 0 ≤ b → a + b ≤ MaxInt64 →
  incrementCounter (incrementCounter counter a) b = incrementCounter counter (a + b).
Proof.
  intros Hlen Hb Ha Hb' Hab.
  destruct (incrementCounter_spec counter a) as (Hl1 & Hb1 & Hv1); [done.. | lia |].
  destruct (incrementCounter_spec (incrementCounter counter a) b) as (Hl2 & Hb2 & Hv2);
    [done.. | lia |].
  destruct (incrementCounter_spec counter (a + b)) as (Hl3 & Hb3 & Hv3); [done.. | lia |].
  apply be_val_inj; [congruence | done..|].
  rewrite Hv2, Hv3, Hv1. rewrite Z.add_mod_idemp_l by (unfold M128; lia).
  f_equal. lia.
Qed.

End KeyWrapProofs.

Section VaultProofs.
Import Encrypt KeyWrapping.

(** X11: once the environment vault or the file vault has returned a key
    that is not empty, every later call returns that same key from the
    package-level cache, whatever the variable, the file (or the path of the
    vault) and the decoder have become. *)
Theorem vault_cache_sticky (DecodeString DecodeString' : string → option (list Z))
    (cache cache' key : list Z) :
  key ≠ [] →
  (∀ env env',
     env_GetMasterKey DecodeString cache env = (Some key, cache') →
     env_GetMasterKey DecodeString' cache' env' = (Some key, cache'))
  ∧ (∀ file file',
     file_GetMasterKey DecodeString cache file = (Some key, cache') →
     file_GetMasterKey DecodeString' cache' file' = (Some key, cache')).
Proof.
  intros Hk.
  assert ((0 < length key)%nat) as Hpos.
  { destruct key; [done|]. simpl. lia. }
  split.
  - intros env env'. unfold env_GetMasterKey.
    destruct (decide (0 < length cache)%nat).
    + intros [= -> <-]. by rewrite decide_True.
    + destruct (decide (env = EmptyString)); [done|].
      destruct (DecodeString env); [|done]. intros [= -> <-].
      by rewrite decide_True.
  - intros file file'. unfold file_GetMasterKey.
    destruct (decide (0 < length cache)%nat).
    + intros [= -> <-]. by rewrite decide_True.
    + destruct file as [k|]; [|done].
      destruct (DecodeString k); [|done]. intros [= -> <-].
      by rewrite decide_True.
Qed.

End VaultProofs.

(* ===================================================================== *)
(** * The cursor of the cryptor                                         *)
(* ===================================================================== *)

Section CursorInvariant.
Import Encrypt KeyWrapping.
Variable aes_encrypt : list Z → list Z → list Z.
Variable GetMasterKey : option (list Z).

Lemma int64_small (x : Z) : - 2 ^ 63 ≤ x ≤ MaxInt64 → int64 x = x.
Proof. unfold int64, MaxInt64. intros H. rewrite Z.mod_small; lia. Qed.

Lemma int64_range (x : Z) : - 2 ^ 63 ≤ int64 x ≤ MaxInt64.
Proof.
  unfold int64, MaxInt64.
  pose proof (Z.mod_pos_bound (x + 2 ^ 63) (2 ^ 64) ltac:(lia)). lia.
Qed.

Lemma int64_overflow (x : Z) : MaxInt64 < x < 2 ^ 64 → int64 x < 0.
Proof.
  unfold int64, MaxInt64. intros H.
  replace (x + 2 ^ 63) with ((x - 2 ^ 63) + 1 * 2 ^ 64) by lia.
  rewrite Z.mod_add by lia. rewrite Z.mod_small; lia.
Qed.

Lemma initCipherStream_Z (m : EncryptMetadata) (abs : Z) :
  valid_metadata m → 0 ≤ abs ≤ MaxInt64 →
  initCipherStream aes_encrypt m abs
  = Some (state_at (KeyPlainText m) (IV m) (Z.to_nat abs)).
Proof.
  intros (Halg & HK & Hiv & Hb) Habs.
  rewrite <- (initCipherStream_at aes_encrypt m (Z.to_nat abs)); try done.
  - by rewrite Z2Nat.id by lia.
  - rewrite Z2Nat.id; lia.
Qed.


Lemma Read_aligned (m : EncryptMetadata) (C : list Z)
    (e : AES256CTR (S := bytesReader)) (n : nat) :
  valid_metadata m → Z.of_nat (length C) ≤ MaxInt64 →
  aligned m C e → eof e = false →
  let a := Z.to_nat (counterOffset e + pos e) in
  let out := take n (drop a C) in
  ∃ err e',
    Read aes_encrypt e n
    = Some (xor_from aes_encrypt (KeyPlainText m) (IV m) a out, err, e')
    ∧ aligned m C e'
    ∧ pos e' = pos e + Z.of_nat (length out)
    ∧ counterOffset e' = counterOffset e
    ∧ (err = None ∧ eof e' = false
       ∨ err = Some EOF ∧ eof e' = true ∧ (length C ≤ a)%nat).
Proof.
  intros Hv HC (Hm & Hsk & Hc0 & Hp0 & Hcp & Hsrc & Hst) Heof a out.
  unfold Read. rewrite Hsrc, Heof.
  cbn [src_Read bytesReader_Source]. unfold bytesReader_Read. cbn [rd_data rd_off].
  fold a. fold out.
  destruct (Z.of_nat (length C) <=? counterOffset e + pos e) eqn:Hend.
  - apply Z.leb_le in Hend.
    assert (out = []) as Hout.
    { unfold out. rewrite drop_ge by (unfold a; lia). apply take_nil. }
    rewrite Hout. rewrite decide_True by done. eexists _, _. split; [done|].
    unfold aligned. cbn. rewrite Z.add_0_r.
    split_and!; try done. right. split_and!; [done..|]. unfold a. lia.
  - apply Z.leb_gt in Hend. cbn [stream]. rewrite Hst.
    assert (length out ≤ length C - a)%nat as Hlen.
    { unfold out. rewrite length_take, length_drop. lia. }
    case_decide as Hpos.
    + rewrite XORKeyStream_state_at.
      cbn [src seeker stream metadata counterOffset pos size eof].
      rewrite int64_small by (unfold MaxInt64 in *; unfold a in Hlen; lia).
      eexists _, _. split; [done|]. unfold aligned. cbn.
      split_and!; try done; try lia.
      * do 2 f_equal. lia.
      * do 2 f_equal. lia.
      * by left.
    + assert (out = []) as Hout by (apply nil_length_inv; lia).
      rewrite Hout. eexists _, _. split; [done|]. unfold aligned. cbn.
      rewrite !Z.add_0_r. split_and!; try done. by left.
Qed.

Lemma Seek_aligned (m : EncryptMetadata) (C : list Z)
    (e : AES256CTR (S := bytesReader)) (offset whence r : Z)
    (err : option error) (e' : AES256CTR (S := bytesReader)) :
  valid_metadata m → - 2 ^ 63 ≤ offset ≤ MaxInt64 →
  aligned m C e →
  Seek aes_encrypt e offset whence = (r, err, e') →
  aligned m C e' ∧ counterOffset e' = counterOffset e
  ∧ match err with
    | None => Seek_newPos e offset whence = inr r ∧ pos e' = r ∧ eof e' = false
    | Some _ => r = 0 ∧ pos e' = pos e ∧ eof e' = eof e
    end.
Proof.
  intros Hv Hoff Hal Hseek.
  pose proof Hal as (Hm & Hsk & Hc0 & Hp0 & Hcp & Hsrc & Hst).
  unfold Seek in Hseek. rewrite Hm, Hsrc, Hsk in Hseek. cbn [negb] in Hseek.
  destruct (Seek_newPos e offset whence) as [er|newPos] eqn:Hnp;
    [by simplify_eq|].
  assert (- 2 ^ 63 ≤ newPos ≤ MaxInt64) as Hrange.
  { unfold Seek_newPos in Hnp.
    repeat match type of Hnp with
           | (if ?b then _ else _) = _ => destruct b
           end; simplify_eq; (done || apply int64_range). }
  destruct (newPos <? 0) eqn:Hneg; [by simplify_eq|].
  apply Z.ltb_ge in Hneg.
  cbn [src_Seek bytesReader_Source] in Hseek. unfold bytesReader_Seek in Hseek.
  rewrite Z.eqb_refl in Hseek. cbn [rd_data rd_off] in Hseek.
  destruct (int64 (counterOffset e + newPos) <? 0) eqn:Habs.
  - simplify_eq. by split_and!.
  - apply Z.ltb_ge in Habs.
    assert (counterOffset e + newPos ≤ MaxInt64) as Hfit.
    { destruct (Z.le_gt_cases (counterOffset e + newPos) MaxInt64) as [|Hgt]; [done|].
      pose proof (int64_overflow (counterOffset e + newPos)) as Hov.
      unfold MaxInt64 in *. lia. }
    rewrite int64_small in Hseek by (unfold MaxInt64 in *; lia).
    rewrite initCipherStream_Z in Hseek by (done || lia).
    simplify_eq. split_and!; try done.
Qed.


Lemma Read_in_sync (m : EncryptMetadata) (C : list Z)
    (e : AES256CTR (S := bytesReader)) (n : nat) :
  valid_metadata m → Z.of_nat (length C) ≤ MaxInt64 → in_sync m C e →
  let a := Z.to_nat (counterOffset e + pos e) in
  let out := take n (drop a C) in
  ∃ err e',
    Read aes_encrypt e n
    = Some (xor_from aes_encrypt (KeyPlainText m) (IV m) a out, err, e')
    ∧ in_sync m C e'
    ∧ counterOffset e' = counterOffset e
    ∧ pos e' = pos e + Z.of_nat (length out)
    ∧ (if decide (length C ≤ a)%nat then err = Some EOF else err = None).
Proof.
  intros Hv HC [Hal Heof] a out.
  pose proof Hal as (Hm & Hsk & Hc0 & Hp0 & Hcp & Hsrc & Hst).
  destruct (eof e) eqn:He.
  - specialize (Heof eq_refl).
    unfold Read. rewrite Hsrc, He.
    assert (out = []) as ->.
    { unfold out. rewrite drop_ge by (unfold a; lia). apply take_nil. }
    eexists _, _. split; [done|].
    split; [by split|]. split; [done|]. split; [simpl; lia|].
    rewrite decide_True by (unfold a; lia). done.
  - destruct (Read_aligned m C e n Hv HC Hal He)
      as (err & e' & HR & Hal' & Hpos & Hco & Herr).
    fold a in HR, Hpos, Herr. fold out in HR, Hpos.
    exists err, e'. split; [done|].
    split; [|split; [done|split; [done|]]].
    + split; [done|]. intros Ht.
      destruct Herr as [[_ He']|(_ & _ & Hge)]; [congruence|].
      rewrite Hpos, Hco. unfold out. rewrite drop_ge by done. rewrite take_nil.
      simpl. unfold a in Hge. lia.
    + destruct Herr as [[-> He']|(-> & _ & Hge)].
      * case_decide as Hd; [|done]. exfalso.
        unfold Read in HR. rewrite Hsrc, He in HR.
        cbn [src_Read bytesReader_Source] in HR. unfold bytesReader_Read in HR.
        cbn [rd_data rd_off] in HR.
        rewrite (proj2 (Z.leb_le _ _)) in HR by (unfold a in Hd; lia).
        rewrite decide_True in HR by done. congruence.
      * rewrite decide_True by lia. done.
Qed.

Lemma xor_from_app K iv (a : nat) (l1 l2 : list Z) :
  xor_from aes_encrypt K iv a (l1 ++ l2)
  = xor_from aes_encrypt K iv a l1 ++ xor_from aes_encrypt K iv (a + length l1) l2.
Proof.
  revert a. induction l1 as [|b l1 IH]; intros a; simpl.
  - by rewrite Nat.add_0_r.
  - rewrite IH. by replace (S a + length l1)%nat with (a + S (length l1))%nat by lia.
Qed.

Lemma decrypt_window (m : EncryptMetadata) (P : list Z) (a n : nat) :
  xor_from aes_encrypt (KeyPlainText m) (IV m) a
    (take n (drop a (xor_from aes_encrypt (KeyPlainText m) (IV m) 0 P)))
  = take n (drop a P).
Proof.
  rewrite xor_from_drop, xor_from_take. simpl. apply xor_from_involutive.
Qed.


(** X13: on a cryptor in step with the encryption [C] of a plaintext [P],
    [Read] of [n] bytes returns [P] from the byte [counterOffset + pos] on, at
    most [n] bytes, advances [pos] by what it returned, stays in step, and
    returns [io.EOF] exactly when the cursor is at or past the end. *)
Theorem Read_decrypts_at_cursor (m : EncryptMetadata) (P C : list Z)
    (e : AES256CTR (S := bytesReader)) (n : nat) :
  valid_metadata m → Z.of_nat (length P) ≤ MaxInt64 →
  encrypt aes_encrypt GetMasterKey m P = Some C →
  in_sync m C e →
  let a := Z.to_nat (counterOffset e + pos e) in
  ∃ err e',
    Read aes_encrypt e n = Some (take n (drop a P), err, e')
    ∧ in_sync m C e'
    ∧ counterOffset e' = counterOffset e
    ∧ pos e' = pos e + Z.of_nat (length (take n (drop a P)))
    ∧ (if decide (length P ≤ a)%nat then err = Some EOF else err = None).
Proof.
  intros Hv HP Henc Hsync a.
  pose proof Hv as (Halg & HK & Hiv & Hb).
  rewrite (encrypt_xor aes_encrypt GetMasterKey) in Henc by done.
  injection Henc as <-.
  assert (length (xor_from aes_encrypt (KeyPlainText m) (IV m) 0 P) = length P)
    as HlC by apply xor_from_length.
  destruct (Read_in_sync m _ e n Hv ltac:(rewrite HlC; exact HP) Hsync)
    as (err & e' & HR & Hs' & Hco & Hpos & Herr).
  fold a in HR, Hpos, Herr. rewrite decrypt_window in HR.
  rewrite HlC in Herr.
  rewrite !length_take, !length_drop, HlC in Hpos.
  exists err, e'. split_and!; try done.
  rewrite !length_take, !length_drop. done.
Qed.

(** X16: on a cryptor in step with [C], reading [n1] bytes and then [n2]
    bytes returns, together, the bytes of one read of [n1 + n2] bytes, and
    leaves the same position, cipher stream and source. *)
Theorem Read_split (m : EncryptMetadata) (C : list Z)
    (e : AES256CTR (S := bytesReader)) (n1 n2 : nat) :
  valid_metadata m → Z.of_nat (length C) ≤ MaxInt64 → in_sync m C e →
  ∃ o1 err1 e1 o2 err2 e2 err e12,
    Read aes_encrypt e n1 = Some (o1, err1, e1)
    ∧ Read aes_encrypt e1 n2 = Some (o2, err2, e2)
    ∧ Read aes_encrypt e (n1 + n2) = Some (o1 ++ o2, err, e12)
    ∧ pos e12 = pos e2 ∧ stream e12 = stream e2 ∧ src e12 = src e2.
Proof.
  intros Hv HC Hsync.
  destruct (Read_in_sync m C e n1 Hv HC Hsync)
    as (err1 & e1 & HR1 & Hs1 & Hco1 & Hpos1 & _).
  destruct (Read_in_sync m C e1 n2 Hv HC Hs1)
    as (err2 & e2 & HR2 & Hs2 & Hco2 & Hpos2 & _).
  destruct (Read_in_sync m C e (n1 + n2) Hv HC Hsync)
    as (err & e12 & HR & Hs12 & Hco & Hpos & _).
  set (a := Z.to_nat (counterOffset e + pos e)) in *.
  set (o1 := take n1 (drop a C)) in *.
  pose proof Hsync as [(_ & _ & Hc0 & Hp0 & _) _].
  assert (Z.to_nat (counterOffset e1 + pos e1) = (a + length o1)%nat) as Ha1.
  { rewrite Hco1, Hpos1. unfold a. lia. }
  rewrite Ha1 in HR2, Hpos2.
  assert (take (n1 + n2) (drop a C) = o1 ++ take n2 (drop (a + length o1) C)) as Hsplit.
  { unfold o1. rewrite <- take_take_drop. f_equal. rewrite drop_drop.
    destruct (decide (n1 ≤ length (drop a C))%nat) as [Hle|Hgt].
    - by rewrite length_take_le by done.
    - rewrite length_take_ge by lia. rewrite length_drop in *.
      rewrite !drop_ge by lia. done. }
  rewrite Hsplit, xor_from_app in HR. rewrite Hsplit in Hpos.
  assert (pos e12 = pos e2) as Hp.
  { rewrite Hpos, Hpos2, Hpos1, length_app. lia. }
  do 8 eexists. split_and!; [exact HR1 | exact HR2 | exact HR | done | |].
  - destruct Hs12 as [(_ & _ & _ & _ & _ & _ & ->) _].
    destruct Hs2 as [(_ & _ & _ & _ & _ & _ & ->) _]. congruence.
  - destruct Hs12 as [(_ & _ & _ & _ & _ & -> & _) _].
    destruct Hs2 as [(_ & _ & _ & _ & _ & -> & _) _]. congruence.
Qed.


End CursorInvariant.

Section SeekFailure.
Import Encrypt.
Variable aes_encrypt : list Z → list Z → list Z.
Context {S : Type} `{!Source S}.

(** X15: whatever the source, a [Seek] that returns an error returns
    position 0 and leaves the position, the [eof] flag, the cipher stream,
    the counter offset, the metadata and the size as they were. *)
Theorem Seek_failure_keeps_cursor (e : AES256CTR (S := S)) (offset whence r : Z)
    (err : error) (e' : AES256CTR (S := S)) :
  Seek aes_encrypt e offset whence = (r, Some err, e') →
  r = 0 ∧ pos e' = pos e ∧ eof e' = eof e ∧ stream e' = stream e
  ∧ counterOffset e' = counterOffset e ∧ metadata e' = metadata e
  ∧ size e' = size e.
Proof.
  unfold Seek. intros H.
  repeat match type of H with
         | match ?x with _ => _ end = _ => destruct x eqn:?
         | (if ?b then _ else _) = _ => destruct b eqn:?
         | (let '(_, _) := ?x in _) = _ => destruct x eqn:?
         end; simplify_eq; done.
Qed.

End SeekFailure.

(* ===================================================================== *)
(** * Further properties of the subscribers                             *)
(* ===================================================================== *)

Section SubscriberProofs.
Import EventAlgebra EventHub HubInvariants.
Variable FromStringOrNil : string → string.
Variable GetLoginUserByID : Z → option User.

Lemma fold_try_send (evs : list Event) (c : list Event) :
  fold_left try_send evs c = c ++ take (bufSize - length c) evs.
Proof.
  revert c. induction evs as [|e evs IH]; intros c; simpl.
  - by rewrite take_nil, app_nil_r.
  - rewrite IH. unfold try_send. case_decide as Hlen.
    + rewrite length_app. simpl.
      replace (bufSize - length c)%nat with (S (bufSize - (length c + 1)))%nat by lia.
      simpl. by rewrite <- app_assoc.
    + replace (bufSize - length c)%nat with 0%nat by lia. done.
Qed.

Lemma fold_try_send_length (evs c : list Event) :
  (length c ≤ bufSize)%nat → (length (fold_left try_send evs c) ≤ bufSize)%nat.
Proof. intros H. rewrite fold_try_send, length_app, length_take. lia. Qed.

(** X17: the flush of an online subscriber sends the debounced buffer to
    the channel in order, as far as the capacity of the channel allows, and
    drops the rest; the buffer and the timer are cleared and the durable
    store is not touched. *)
Theorem flush_online_delivers_prefix (s : subscriber) (st : fsEventStore) :
  closed s = false → online s = true → buffer s ≠ [] →
  flush FromStringOrNil s st
  = Done (mkSub (id s) (uid s)
            (ch s ++ take (bufSize - length (ch s)) (DebounceEvents (buffer s)))
            (ch_closed s) (online s) (offlineSince s) [] None
            (ownerCached s) (cachedAt s) (closed s), st).
Proof.
  intros Hc Hon Hbuf. unfold flush, flushLocked.
  rewrite decide_False by (by destruct (buffer s)).
  rewrite Hc, Hon. cbn [negb]. by rewrite fold_try_send.
Qed.


Lemma filter_none {A} (P : A → Prop) `{!∀ x, Decision (P x)} (l : list A) :
  Forall (λ x, ¬ P x) l → filter P l = [].
Proof.
  induction 1 as [|x l Hx Hl IH]; [done|].
  rewrite filter_cons, decide_False by done. done.
Qed.

Lemma filter_filter_impl {A} (P Q : A → Prop) `{!∀ x, Decision (P x)}
    `{!∀ x, Decision (Q x)} (l : list A) :
  (∀ x, P x → Q x) → filter P (filter Q l) = filter P l.
Proof.
  intros HPQ. induction l as [|x l IH]; [done|].
  rewrite !filter_cons. destruct (decide (Q x)) as [HQ|HQ].
  - rewrite filter_cons. destruct (decide (P x)); by rewrite IH.
  - rewrite decide_False by (intros HP; by apply HQ, HPQ). done.
Qed.


Lemma flushLocked_inv s st s' st' :
  sub_inv s ∨ (closed s = false ∧ ch_closed s = false ∧ (length (ch s) ≤ bufSize)%nat
               ∧ (online s = true → offlineSince s = 0) ∧ timer s = None) →
  flushLocked FromStringOrNil s st = Done (s', st') →
  sub_inv s' ∧ id s' = id s ∧ uid s' = uid s.
Proof.
  intros Hpre. unfold flushLocked. case_decide as Hlen.
  - intros [= <- <-]. split; [|done].
    destruct Hpre as [?|(? & ? & ? & ? & Ht)]; [done|].
    split_and!; try done. split; [done|]. intros _. by apply nil_length_inv.
  - assert (closed s = false ∧ ch_closed s = false ∧ (length (ch s) ≤ bufSize)%nat
            ∧ (online s = true → offlineSince s = 0)) as (Hc & Hcc & Hch & Hon).
    { destruct Hpre as [(?&?&?&?&?)|(?&?&?&?&?)]; done. }
    rewrite Hc. destruct (online s) eqn:Ho; cbn [negb].
    + intros [= <- <-]. split; [|done]. unfold sub_inv. cbn.
      split_and!; try done. by apply fold_try_send_length.
    + destruct (ownerCached s) as [owner|]; [|done].
      destruct (Create st (user_ID owner) (FromStringOrNil (id s)) (buffer s)) as [ok st1].
      intros [= <- <-]. split; [|done]. unfold sub_inv. cbn.
      split_and!; done.
Qed.

Lemma apply_op_inv op s st s' st' :
  sub_inv s →
  apply_op FromStringOrNil GetLoginUserByID op s st = Done (s', st') →
  sub_inv s' ∧ id s' = id s ∧ uid s' = uid s.
Proof.
  intros Hinv. pose proof Hinv as (Hc & Hcc & Hch & Hon & Hbt).
  destruct op as [evt now| |now|now| |now]; simpl.
  - unfold Publish. rewrite Hc. intros [= <- <-]. split; [|done].
    unfold sub_inv, publishLocked. cbn. split_and!; try done.
    split; [|done]. intros H. by apply app_nil in H as [_ ?].
  - unfold flush. apply flushLocked_inv. by left.
  - unfold setOnline. rewrite Hc.
    destruct (TakeBySubscriber st (FromStringOrNil (id s)) (uid s)) as [[events|] st1].
    + intros [= <- <-]. split; [|done]. unfold sub_inv. cbn.
      split_and!; try done.
      case_decide as Hlen.
      * split; [|done]. intros H. rewrite H in Hlen. simpl in Hlen. lia.
      * assert (buffer s ++ (fe_event <$> events) = []) as Hnil
          by (apply nil_length_inv; lia).
        rewrite Hnil. apply app_nil in Hnil as [Hb _]. split; [|done].
        intros _. by apply Hbt.
    + intros [= <- <-]. split; [|done]. unfold sub_inv. cbn. split_and!; done.
  - unfold setOffline. rewrite Hc. intros H.
    apply flushLocked_inv in H; [done|]. right. cbn. split_and!; done.
  - unfold Stop. intros H.
    apply flushLocked_inv in H; [done|]. right. cbn. split_and!; done.
  - unfold Owner.
    destruct ((userCacheTTL <? Since now (cachedAt s)) || bool_decide (ownerCached s = None)).
    + destruct (GetLoginUserByID (uid s)); simpl; intros [= <- <-]; done.
    + simpl. intros [= <- <-]. done.
Qed.

(** X19: after any sequence of publish, flush, set-online, set-offline,
    stop and owner operations that completes on a subscriber made by
    [newSubscriber], the channel is within its capacity and open, an online
    subscriber carries no offline stamp, events are buffered exactly when a
    timer is pending, and the id and the user are those of the creation. *)
Theorem run_ops_invariant (IsAnonymousUser : User → bool) (ops : list sub_op)
    (ctx_user : option User) (sid : string) (now : Z) (s0 : subscriber)
    (st : fsEventStore) (s' : subscriber) (st' : fsEventStore) :
  newSubscriber IsAnonymousUser ctx_user sid now = Some s0 →
  run_ops FromStringOrNil GetLoginUserByID ops s0 st = Done (s', st') →
  sub_inv s' ∧ id s' = sid ∧ Some (uid s') = user_ID <$> ctx_user.
Proof.
  intros Hnew.
  assert (sub_inv s0 ∧ id s0 = sid ∧ Some (uid s0) = user_ID <$> ctx_user) as H0.
  { unfold newSubscriber in Hnew. destruct ctx_user as [u|]; [|done].
    destruct (IsAnonymousUser u); [done|]. injection Hnew as <-.
    unfold sub_inv. cbn. split_and!; try done. lia. }
  clear Hnew. revert s0 st H0.
  induction ops as [|op ops IH]; intros s0 st (Hinv & Hid & Huid); simpl.
  - by intros [= <- <-].
  - destruct (apply_op FromStringOrNil GetLoginUserByID op s0 st) as [[s1 st1]|msg] eqn:Hop;
      [|done].
    apply apply_op_inv in Hop as (Hinv1 & Hid1 & Huid1); [|done].
    apply IH. split_and!; congruence.
Qed.

Lemma flushLocked_store s st s' st' :
  flushLocked FromStringOrNil s st = Done (s', st') →
  id s' = id s
  ∧ rows_of_others (FromStringOrNil (id s)) st' = rows_of_others (FromStringOrNil (id s)) st
  ∧ failing st' = failing st.
Proof.
  unfold flushLocked. case_decide; [by intros [= <- <-]|].
  destruct (closed s); [by intros [= <- <-]|].
  destruct (online s); cbn [negb]; [by intros [= <- <-]|].
  destruct (ownerCached s) as [owner|]; [|done].
  unfold Create. destruct (failing st) eqn:Hf; intros [= <- <-]; [done|].
  split; [done|]. split; [|done]. unfold rows_of_others. cbn [rows].
  rewrite filter_app. rewrite (filter_none _ (_ <$> _)); [by rewrite app_nil_r|].
  apply Forall_fmap, Forall_forall. intros e _ Hne. by apply Hne.
Qed.

Lemma apply_op_store op s st s' st' :
  apply_op FromStringOrNil GetLoginUserByID op s st = Done (s', st') →
  id s' = id s
  ∧ rows_of_others (FromStringOrNil (id s)) st' = rows_of_others (FromStringOrNil (id s)) st
  ∧ failing st' = failing st.
Proof.
  destruct op as [evt now| |now|now| |now]; simpl.
  - unfold Publish. destruct (closed s); by intros [= <- <-].
  - apply flushLocked_store.
  - unfold setOnline. destruct (closed s); [by intros [= <- <-]|].
    unfold TakeBySubscriber. destruct (failing st) eqn:Hf; intros [= <- <-]; [done|].
    split; [done|]. split; [|done]. unfold rows_of_others. cbn [rows].
    apply filter_filter_impl. intros r Hr [Hk _]. done.
  - unfold setOffline. destruct (closed s); [by intros [= <- <-]|].
    intros H. by apply flushLocked_store in H.
  - unfold Stop. intros H. by apply flushLocked_store in H.
  - unfold Owner.
    destruct ((userCacheTTL <? Since now (cachedAt s)) || bool_decide (ownerCached s = None)).
    + destruct (GetLoginUserByID (uid s)); simpl; intros [= <- <-]; done.
    + simpl. intros [= <- <-]. done.
Qed.

(** X20: the operations on a subscriber never create, change or delete a
    record of the durable store that is stored under another subscriber. *)
Theorem run_ops_store_isolation (ops : list sub_op) (s : subscriber)
    (st : fsEventStore) (s' : subscriber) (st' : fsEventStore) :
  run_ops FromStringOrNil GetLoginUserByID ops s st = Done (s', st') →
  rows_of_others (FromStringOrNil (id s)) st' = rows_of_others (FromStringOrNil (id s)) st
  ∧ failing st' = failing st.
Proof.
  revert s st. induction ops as [|op ops IH]; intros s st; simpl.
  - by intros [= <- <-].
  - destruct (apply_op FromStringOrNil GetLoginUserByID op s st) as [[s1 st1]|msg] eqn:Hop;
      [|done].
    apply apply_op_store in Hop as (Hid & Hrows & Hf).
    intros H. apply IH in H as [H1 H2]. rewrite Hid in H1. split; congruence.
Qed.

(** X21: on a closed subscriber every operation completes and changes
    neither the channel, the buffer, the online state nor the store. *)
Theorem closed_subscriber_inert (ops : list sub_op) (s : subscriber) (st : fsEventStore) :
  closed s = true →
  ∃ s', run_ops FromStringOrNil GetLoginUserByID ops s st = Done (s', st)
      ∧ closed s' = true ∧ ch s' = ch s ∧ buffer s' = buffer s
      ∧ online s' = online s ∧ offlineSince s' = offlineSince s.
Proof.
  revert s. induction ops as [|op ops IH]; intros s Hc; simpl.
  - by exists s.
  - assert (∃ s1, apply_op FromStringOrNil GetLoginUserByID op s st = Done (s1, st)
              ∧ closed s1 = true ∧ ch s1 = ch s ∧ buffer s1 = buffer s
              ∧ online s1 = online s ∧ offlineSince s1 = offlineSince s)
      as (s1 & -> & Hc1 & Hch & Hb & Ho & Hos).
    { destruct op as [evt now| |now|now| |now]; simpl.
      - unfold Publish. rewrite Hc. by exists s.
      - unfold flush, flushLocked. rewrite Hc. exists s. by case_decide.
      - unfold setOnline. rewrite Hc. by exists s.
      - unfold setOffline. rewrite Hc. by exists s.
      - unfold Stop, flushLocked. cbn. rewrite Hc. eexists. split; [by case_decide|done].
      - unfold Owner.
        destruct ((userCacheTTL <? Since now (cachedAt s)) || bool_decide (ownerCached s = None)).
        + destruct (GetLoginUserByID (uid s)); simpl; eexists; done.
        + by exists s. }
    destruct (IH s1 Hc1) as (s' & -> & ? & ? & ? & ? & ?).
    exists s'. split_and!; congruence.
Qed.

End SubscriberProofs.

(* ===================================================================== *)
(** * Further properties of the hub                                     *)
(* ===================================================================== *)

Section HubMoreProofs.
Import EventAlgebra EventHub HubInvariants.
Variable IsAnonymousUser : User → bool.
Variable FromStringOrNil : string → string.








(** X23: [Subscribe] of an authenticated user on an open hub in which the
    id has no open subscriber in the topic makes the subscriber of
    [newSubscriber] at a new place of the heap, registers it under the topic
    and the id, returns it with [resumed = false], and changes no other
    registration, no other subscriber and not the store. *)
Theorem Subscribe_new (h : eventHub) (ctx_user : option User) (topic : Z)
    (sid : string) (now : Z) (s0 : subscriber) :
  hub_closed h = false → live_subscriber h topic sid = None →
  newSubscriber IsAnonymousUser ctx_user sid now = Some s0 →
  ∃ l h',
    Subscribe IsAnonymousUser FromStringOrNil h ctx_user topic sid now
    = (Subscribed l false, h')
    ∧ heap h !! l = None ∧ heap h' = <[l := s0]> (heap h)
    ∧ registered h' topic sid = Some l
    ∧ (∀ t i, (t, i) ≠ (topic, sid) → registered h' t i = registered h t i)
    ∧ fsEventClient h' = fsEventClient h ∧ hub_closed h' = false.
Proof.
  intros Hopen Hlive Hnew.
  assert (heap h !! fresh (dom (heap h)) = None) as Hfresh.
  { apply not_elem_of_dom, is_fresh. }
  unfold live_subscriber in Hlive. rewrite Hopen in Hlive. unfold registered in Hlive.
  unfold Subscribe. rewrite Hopen, Hnew.
  destruct (topics h !! topic) as [subs|] eqn:Ht; simpl in *.
  - destruct (subs !! sid) as [l|] eqn:Hs; simpl in *.
    + destruct (heap h !! l) as [s|] eqn:Hl; simpl in *.
      * unfold isClosed. destruct (closed s) eqn:Hcl; [|done].
        eexists _, _. split; [done|]. simpl. split_and!; try done.
        -- unfold registered. simpl. rewrite lookup_insert_eq. simpl. by rewrite lookup_insert_eq.
        -- intros t i Hne. unfold registered. simpl.
           destruct (decide (topic = t)) as [<-|Hnt].
           ++ rewrite lookup_insert_eq, Ht. simpl.
              rewrite lookup_insert_ne by congruence.
              rewrite lookup_delete_ne by congruence. done.
           ++ rewrite !lookup_insert_ne by done. done.
      * eexists _, _. split; [done|]. simpl. split_and!; try done.
        -- unfold registered. simpl. rewrite lookup_insert_eq. simpl. by rewrite lookup_insert_eq.
        -- intros t i Hne. unfold registered. simpl.
           destruct (decide (topic = t)) as [<-|Hnt].
           ++ rewrite lookup_insert_eq, Ht. simpl.
              rewrite lookup_insert_ne by congruence. done.
           ++ rewrite !lookup_insert_ne by done. done.
    + eexists _, _. split; [done|]. simpl. split_and!; try done.
      * unfold registered. simpl. rewrite lookup_insert_eq. simpl. by rewrite lookup_insert_eq.
      * intros t i Hne. unfold registered. simpl.
        destruct (decide (topic = t)) as [<-|Hnt].
        -- rewrite lookup_insert_eq, Ht. simpl.
           rewrite lookup_insert_ne by congruence. done.
        -- rewrite !lookup_insert_ne by done. done.
  - rewrite lookup_empty. simpl.
    eexists _, _. split; [done|]. simpl. split_and!; try done.
    + unfold registered. simpl. rewrite lookup_insert_eq. simpl. by rewrite lookup_insert_eq.
    + intros t i Hne. unfold registered. simpl.
      destruct (decide (topic = t)) as [<-|Hnt].
      * rewrite lookup_insert_eq, Ht. simpl.
        rewrite lookup_insert_ne by congruence. done.
      * rewrite !lookup_insert_ne by done. done.
Qed.

End HubMoreProofs.

(* ===================================================================== *)
(** * Properties of the emitters                                        *)
(* ===================================================================== *)

Section DbfsProofs.
Import EventAlgebra EventHub Dbfs.
Variable File : Type.
Variable Model_ID : File → Z.
Variable Uri_Path : File → string.
Variable Ancestors : File → list File.
Variable AncestorsChain : File → list File.
Variable EncodeFileID : Z → string.
Variable Separator : string.

Lemma strip_prefix_app (p s : string) : strip_prefix p (p +:+ s) = Some s.
Proof.
  induction p as [|a p IH]; simpl; [by destruct s|].
  by rewrite decide_True.
Qed.

Lemma relativePath_Done (s : foundSubscriber File) (file : File)
    (c : Ascii.ascii) (sep : string) :
  Separator = String c sep →
  ∃ r, relativePath File Uri_Path Separator s file = Done (String c r).
Proof.
  intros ->. unfold relativePath.
  destruct (TrimPrefix (Uri_Path file) (Uri_Path (root File s))) as [|r0 r].
  - rewrite decide_True by done.
    rewrite decide_False by (intros H; by apply H). eauto.
  - rewrite decide_False by done.
    destruct (decide (r0 ≠ c)) as [?|Heq]; [simpl; eauto|].
    apply dec_stable in Heq as ->. eauto.
Qed.

(** X24: when the separator is not empty, [relativePath] does not panic
    and its result starts with the first byte of the separator; for a file
    under the root it is the path of the file after the path of the root, and
    for the root itself it is the separator. *)
Theorem relativePath_rooted (s : foundSubscriber File) (file : File)
    (c : Ascii.ascii) (sep : string) :
  Separator = String c sep →
  (∃ r, relativePath File Uri_Path Separator s file = Done (String c r))
  ∧ (∀ rel, Uri_Path file = Uri_Path (root File s) +:+ String c rel →
            relativePath File Uri_Path Separator s file = Done (String c rel))
  ∧ (Uri_Path file = Uri_Path (root File s) →
     relativePath File Uri_Path Separator s file = Done Separator).
Proof.
  intros Hsep. split; [by eapply relativePath_Done|].
  subst Separator. unfold relativePath. split.
  - intros rel ->. unfold TrimPrefix. rewrite strip_prefix_app. simpl.
    by rewrite decide_False by (intros H; by apply H).
  - intros ->. unfold TrimPrefix.
    assert (strip_prefix (Uri_Path (root File s)) (Uri_Path (root File s))
            = Some EmptyString) as ->.
    { induction (Uri_Path (root File s)) as [|a p IH]; simpl; [done|].
      by rewrite decide_True. }
    simpl. by rewrite decide_False by (intros H; by apply H).
Qed.

Lemma published_nil (s : subscriber) (now : Z) : published s [] now = s.
Proof. destruct s. unfold published. simpl. by rewrite app_nil_r. Qed.

Lemma published_cons (s : subscriber) (e : Event) (evs : list Event) (now : Z) :
  closed s = false →
  published (Publish s e now) evs now = published s (e :: evs) now.
Proof.
  intros Hc. unfold Publish. rewrite Hc. unfold published, publishLocked. cbn.
  rewrite <- app_assoc. simpl. f_equal. by destruct evs.
Qed.

Lemma publish_all_Panic mk file now subs msg :
  fold_left
    (λ (acc : outcome eventHub) (subscriber : foundSubscriber File),
       match acc with
       | Panic msg => Panic msg
       | Done h' =>
           match relativePath File Uri_Path Separator subscriber file with
           | Panic msg => Panic msg
           | Done from => Done (publish_to h' (found_sub File subscriber) (mk from) now)
           end
       end)
    subs (Panic msg) = Panic msg.
Proof. induction subs as [|x subs IH]; simpl; done. Qed.

Lemma publish_all_spec (mk : string → Event) (file : File) (now : Z)
    (subs : list (foundSubscriber File)) (h : eventHub) (c : Ascii.ascii) (sep : string) :
  Separator = String c sep →
  ∃ h', publish_all File Uri_Path Separator mk file now subs h = Done h'
      ∧ topics h' = topics h ∧ fsEventClient h' = fsEventClient h
      ∧ hub_closed h' = hub_closed h
      ∧ ∀ l, heap h' !! l
             = (λ s, if closed s then s
                     else published s
                            (events_to File Uri_Path Separator mk file subs l) now)
               <$> heap h !! l.
Proof.
  intros Hsep. revert h. induction subs as [|x subs IH]; intros h.
  - exists h. split; [done|]. split_and!; try done. intros l.
    destruct (heap h !! l) as [s|]; simpl; [|done].
    unfold events_to. simpl. rewrite published_nil. by destruct (closed s).
  - unfold publish_all. cbn [fold_left].
    destruct (relativePath_Done x file c sep Hsep) as (r & Hr).
    rewrite Hr.
    destruct (IH (publish_to h (found_sub File x) (mk (String c r)) now))
      as (h' & Hrun & Ht & Hst & Hcl & Hheap).
    exists h'. split; [exact Hrun|].
    assert (∀ h0 l0 e, topics (publish_to h0 l0 e now) = topics h0
                       ∧ fsEventClient (publish_to h0 l0 e now) = fsEventClient h0
                       ∧ hub_closed (publish_to h0 l0 e now) = hub_closed h0) as Hframe.
    { intros h0 l0 e. unfold publish_to. by destruct (heap h0 !! l0). }
    destruct (Hframe h (found_sub File x) (mk (String c r))) as (F1 & F2 & F3).
    split_and!; [congruence..|].
    intros l. rewrite Hheap. unfold events_to. rewrite filter_cons.
    unfold publish_to.
    destruct (decide (found_sub File x = l)) as [<-|Hne].
    + destruct (heap h !! found_sub File x) as [s|] eqn:Hl; simpl.
      * rewrite lookup_insert_eq. simpl. unfold relative_of at 2. rewrite Hr.
        destruct (closed s) eqn:Hc.
        -- unfold Publish. by rewrite Hc, Hc.
        -- assert (closed (Publish s (mk (String c r)) now) = false) as ->.
           { unfold Publish. rewrite Hc. done. }
           by rewrite published_cons.
      * by rewrite Hl.
    + destruct (heap h !! found_sub File x) as [s|] eqn:Hl; simpl; [|done].
      by rewrite lookup_insert_ne.
Qed.

Lemma elem_of_GetSubscribers (h : eventHub) (topic : Z) (l : nat) :
  l ∈ GetSubscribers h topic ↔ ∃ sid, registered h topic sid = Some l.
Proof.
  unfold GetSubscribers, registered.
  destruct (topics h !! topic) as [subs|]; simpl.
  - rewrite list_elem_of_fmap. split.
    + intros ([sid l'] & -> & Hin). apply elem_of_map_to_list in Hin. eauto.
    + intros (sid & Hs). exists (sid, l). split; [done|]. by apply elem_of_map_to_list.
  - split; [by intros ?%elem_of_nil | by intros (? & ?)].
Qed.

Lemma elem_of_getEligibleSubscriber (h : eventHub) (requestInfo : option string)
    (file : File) (checkParentPerm : bool) (x : foundSubscriber File) :
  x ∈ getEligibleSubscriber File Model_ID Ancestors AncestorsChain h requestInfo file
        checkParentPerm
  ↔ root File x ∈ (if negb checkParentPerm then AncestorsChain file else Ancestors file)
    ∧ (∃ sid, registered h (Model_ID (root File x)) sid = Some (found_sub File x))
    ∧ not_self h requestInfo (found_sub File x) = true.
Proof.
  unfold getEligibleSubscriber. rewrite list_elem_of_bind. split.
  - intros (rt & Hin & Hrt). apply list_elem_of_fmap in Hin as (l & -> & Hl).
    apply list_elem_of_filter in Hl as [Hk Hl]. simpl.
    split_and!; [done| by apply elem_of_GetSubscribers | done].
  - intros (Hrt & Hreg & Hk). exists (root File x). split; [|done].
    apply list_elem_of_fmap. exists (found_sub File x). split; [by destruct x|].
    apply list_elem_of_filter. split; [done|]. by apply elem_of_GetSubscribers.
Qed.

(** X25: [emitFileCreated] on behalf of the client [clientID] completes
    and leaves every subscriber with that id as it was; the registry, the
    store and the set of subscribers are unchanged. *)
Theorem emitFileCreated_no_echo (h : eventHub) (clientID : string) (file : File)
    (now : Z) (c : Ascii.ascii) (sep : string) :
  Separator = String c sep →
  ∃ h',
    emitFileCreated File Model_ID Uri_Path Ancestors AncestorsChain EncodeFileID
      Separator h (Some clientID) file now = Done h'
    ∧ topics h' = topics h ∧ fsEventClient h' = fsEventClient h
    ∧ dom (heap h') = dom (heap h)
    ∧ ∀ l s, heap h !! l = Some s → id s = clientID → heap h' !! l = Some s.
Proof.
  intros Hsep. unfold emitFileCreated.
  destruct (publish_all_spec
              (λ from, mkEvent EventTypeCreate (EncodeFileID (Model_ID file)) from EmptyString)
              file now
              (getEligibleSubscriber File Model_ID Ancestors AncestorsChain h
                 (Some clientID) file true) h c sep Hsep)
    as (h' & Hrun & Ht & Hst & Hcl & Hheap).
  exists h'. split_and!; try done.
  - apply set_eq. intros l. rewrite !elem_of_dom, Hheap.
    by rewrite fmap_is_Some.
  - intros l s Hl Hid. rewrite Hheap, Hl. simpl.
    destruct (closed s); [done|]. f_equal.
    unfold events_to. rewrite (filter_none _ _); [by rewrite published_nil|].
    apply Forall_forall. intros x Hx Hfs.
    apply elem_of_getEligibleSubscriber in Hx as (_ & _ & Hk).
    unfold not_self in Hk. rewrite Hfs, Hl in Hk.
    rewrite bool_decide_eq_true_2 in Hk by done. done.
Qed.

(** X26: after [emitFileCreated], every open subscriber that is
    registered under an ancestor of the file and is not the subscriber of the
    requesting client has had events published to it (buffer extended, timer
    restarted), all of them create events of the file, one of them with the
    path of the file relative to that ancestor. *)
Theorem emitFileCreated_fan_out (h : eventHub) (requestInfo : option string)
    (file : File) (now : Z) (c : Ascii.ascii) (sep : string) :
  Separator = String c sep →
  ∃ h',
    emitFileCreated File Model_ID Uri_Path Ancestors AncestorsChain EncodeFileID
      Separator h requestInfo file now = Done h'
    ∧ ∀ rt sid l s,
        rt ∈ Ancestors file → registered h (Model_ID rt) sid = Some l →
        heap h !! l = Some s → closed s = false → requestInfo ≠ Some (id s) →
        ∃ evs,
          heap h' !! l = Some (published s evs now)
          ∧ mkEvent EventTypeCreate (EncodeFileID (Model_ID file))
              (relative_of File Uri_Path Separator (mkFound File l rt) file) EmptyString
            ∈ evs
          ∧ Forall (λ e, EType e = EventTypeCreate
                         ∧ FileID e = EncodeFileID (Model_ID file)
                         ∧ To e = EmptyString) evs.
Proof.
  intros Hsep. unfold emitFileCreated.
  destruct (publish_all_spec
              (λ from, mkEvent EventTypeCreate (EncodeFileID (Model_ID file)) from EmptyString)
              file now
              (getEligibleSubscriber File Model_ID Ancestors AncestorsChain h
                 requestInfo file true) h c sep Hsep)
    as (h' & Hrun & Ht & Hst & Hcl & Hheap).
  exists h'. split; [done|].
  intros rt sid l s Hrt Hreg Hl Hc Hri. eexists. split_and!.
  - rewrite Hheap, Hl. simpl. by rewrite Hc.
  - unfold events_to. apply list_elem_of_fmap.
    exists (mkFound File l rt). split; [done|].
    apply list_elem_of_filter. split; [done|].
    apply elem_of_getEligibleSubscriber. simpl. split_and!; [done | eauto |].
    unfold not_self. rewrite Hl. destruct requestInfo as [cid|]; [|done].
    apply negb_true_iff, bool_decide_eq_false_2. congruence.
  - unfold events_to. apply Forall_fmap, Forall_forall. by intros x _.
Qed.

End DbfsProofs.

(* ===================================================================== *)
(** * The further properties on sample inputs                           *)
(* ===================================================================== *)

Section Witnesses.
Import EventAlgebra Encrypt EventHub PerFile KeyWrapping HubInvariants Dbfs Samples.

Lemma is_bytes_sample_iv : is_bytes sample_iv.
Proof. unfold is_bytes. simpl. repeat (constructor; [lia|]). constructor. Qed.

Lemma valid_sample_metadata : valid_metadata sample_metadata.
Proof. split_and!; [reflexivity..|apply is_bytes_sample_iv]. Qed.

Lemma in_sync_sample_cursor : in_sync sample_metadata sample_ciphertext sample_cursor.
Proof.
  split; [|intros H; discriminate H].
  unfold aligned, MaxInt64. simpl. split_and!; (reflexivity || lia).
Qed.

Lemma DebounceEvents_rename_round_trip_witness :
  events_of "A"
    (DebounceEvents [ mkEvent "rename" "A" "/a" "/b"; mkEvent "create" "B" "/c" EmptyString;
                      mkEvent "rename" "A" "/b" "/a" ]) = [].
Proof. apply (DebounceEvents_rename_round_trip _ "A" "/a" "/b"). reflexivity. Defined.

Lemma DebounceEvents_ephemeral_witness :
  events_of "A"
    (DebounceEvents [ mkEvent "create" "A" "/a" EmptyString; mkEvent "modify" "A" "/a" EmptyString;
                      mkEvent "create" "B" "/c" EmptyString;
                      mkEvent "delete" "A" "/a" EmptyString ]) = [].
Proof.
  apply (DebounceEvents_ephemeral _ [mkEvent "modify" "A" "/a" EmptyString] "A"
           (mkEvent "create" "A" "/a" EmptyString) (mkEvent "delete" "A" "/a" EmptyString));
    [reflexivity | reflexivity | reflexivity |].
  constructor; [|constructor]. right. left. reflexivity.
Defined.

Lemma DebounceEvents_rename_chain_witness :
  events_of "A"
    (DebounceEvents [ mkEvent "rename" "A" "/a" "/b"; mkEvent "create" "B" "/c" EmptyString;
                      mkEvent "rename" "A" "/b" "/c" ])
  = [ mkEvent "rename" "A" "/a" "/c" ].
Proof.
  apply (DebounceEvents_rename_chain _ [mkEvent "rename" "A" "/b" "/c"] "A"
           (mkEvent "rename" "A" "/a" "/b")); [reflexivity | reflexivity |].
  constructor; [|constructor]. split; [reflexivity|]. simpl. discriminate.
Defined.

Lemma DebounceEvents_delete_last_witness :
  events_of "A"
    (DebounceEvents [ mkEvent "modify" "A" "/a" EmptyString;
                      mkEvent "delete" "A" "/a" EmptyString ]) = []
  ∨ ∃ from,
      events_of "A"
        (DebounceEvents [ mkEvent "modify" "A" "/a" EmptyString;
                          mkEvent "delete" "A" "/a" EmptyString ])
      = [ mkEvent EventTypeDelete "A" from EmptyString ].
Proof.
  apply (DebounceEvents_delete_last _ [mkEvent "modify" "A" "/a" EmptyString] "A"
           (mkEvent "delete" "A" "/a" EmptyString)); reflexivity.
Defined.

Lemma key_wrap_round_trip_witness :
  ∃ wrapped,
    EncryptWithMasterKey toy_block (Some sample_iv) sample_key [1; 2; 3] = Some wrapped
    ∧ length wrapped = (16 + length [1; 2; 3])%nat
    ∧ take 16 wrapped = sample_iv
    ∧ DecryptWithMasterKey toy_block sample_key wrapped = Some [1; 2; 3].
Proof.
  apply (key_wrap_round_trip toy_block sample_key [1; 2; 3] sample_iv);
    [right; right; reflexivity | reflexivity].
Defined.

Lemma metadata_round_trip_witness :
  ∃ m,
    GenerateMetadata toy_block (Some sample_key) (Some (replicate 32 9)) (Some sample_iv)
      (Some (replicate 16 3)) = Some m
    ∧ Algorithm m = CipherAES256CTR ∧ KeyPlainText m = replicate 32 9 ∧ IV m = sample_iv
    ∧ length (Key m) = (16 + length (replicate 32 9))%nat
    ∧ LoadMetadata toy_block (Some sample_key) fresh_cryptor
        (Some (mkMetadata (Algorithm m) (Key m) [] (IV m)))
      = (None,
         mkCryptor (src fresh_cryptor) (seeker fresh_cryptor) (stream fresh_cryptor)
           (Some (mkMetadata CipherAES256CTR [] (replicate 32 9) sample_iv))
           (counterOffset fresh_cryptor) (pos fresh_cryptor) (size fresh_cryptor)
           (eof fresh_cryptor)).
Proof.
  apply (metadata_round_trip toy_block sample_key (replicate 32 9) sample_iv
           (replicate 16 3) fresh_cryptor); [right; right; reflexivity | reflexivity].
Defined.

Lemma incrementCounter_additive_witness :
  incrementCounter (incrementCounter sample_iv 1) 2 = incrementCounter sample_iv (1 + 2).
Proof.
  apply incrementCounter_additive;
    [reflexivity | apply is_bytes_sample_iv | lia | lia | unfold MaxInt64; lia].
Defined.

Lemma vault_cache_sticky_witness :
  env_GetMasterKey (λ _, None) [1; 2; 3] "other" = (Some [1; 2; 3], [1; 2; 3])
  ∧ file_GetMasterKey (λ _, None) [1; 2; 3] None = (Some [1; 2; 3], [1; 2; 3]).
Proof.
  destruct (vault_cache_sticky sample_DecodeString (λ _, None) [] [1; 2; 3] [1; 2; 3])
    as [Henv Hfile]; [discriminate|].
  split.
  - apply (Henv "a2V5" "other"). reflexivity.
  - apply (Hfile (Some "a2V5") None). reflexivity.
Defined.


Lemma Read_decrypts_at_cursor_witness :
  ∃ err e', Read toy_block sample_cursor 4 = Some ([5; 6; 7; 8], err, e') ∧ pos e' = 4.
Proof.
  destruct (Read_decrypts_at_cursor toy_block None sample_metadata sample_plaintext
              sample_ciphertext sample_cursor 4)
    as (err & e' & HR & _ & _ & Hpos & _);
    [apply valid_sample_metadata | unfold MaxInt64; simpl; lia
    | apply encrypt_xor; (reflexivity || apply is_bytes_sample_iv)
    | apply in_sync_sample_cursor |].
  exists err, e'. split; [exact HR | exact Hpos].
Defined.


Lemma Seek_failure_keeps_cursor_witness :
  Seek toy_block cryptor_on_stuck_source 3 SeekStart
  = (0, Some (Err "failed to seek source"), cryptor_on_stuck_source)
  ∧ pos cryptor_on_stuck_source = 7.
Proof.
  assert (Seek toy_block cryptor_on_stuck_source 3 SeekStart
          = (0, Some (Err "failed to seek source"), cryptor_on_stuck_source)) as H
    by reflexivity.
  split; [exact H|].
  destruct (Seek_failure_keeps_cursor toy_block cryptor_on_stuck_source 3 SeekStart 0
              (Err "failed to seek source") cryptor_on_stuck_source H) as (_ & Hp & _).
  exact Hp.
Defined.

Lemma Read_split_witness :
  ∃ o1 err1 e1 o2 err2 e2 err e12,
    Read toy_block sample_cursor 3 = Some (o1, err1, e1)
    ∧ Read toy_block e1 4 = Some (o2, err2, e2)
    ∧ Read toy_block sample_cursor (3 + 4) = Some (o1 ++ o2, err, e12)
    ∧ pos e12 = pos e2 ∧ stream e12 = stream e2 ∧ src e12 = src e2.
Proof.
  apply (Read_split toy_block sample_metadata sample_ciphertext sample_cursor 3 4);
    [apply valid_sample_metadata | unfold MaxInt64; simpl; lia | apply in_sync_sample_cursor].
Defined.

Lemma flush_online_delivers_prefix_witness :
  flush sample_uuid sub_online (mkStore [] false)
  = Done (mkSub "C1" 1 [modify9] false true 0 [] None sample_user 1000 false,
          mkStore [] false).
Proof.
  exact (flush_online_delivers_prefix sample_uuid sub_online (mkStore [] false)
           eq_refl eq_refl ltac:(discriminate)).
Defined.


Lemma run_ops_invariant_witness :
  sub_inv (mkSub "C1" 1 [modify9] false true 0 [] None sample_user 1000 false).
Proof.
  destruct (run_ops_invariant sample_uuid sample_users sample_IsAnonymousUser
              [OpPublish modify9 5000; OpFlush] sample_user "C1" 1000
              (mkSub "C1" 1 [] false true 0 [] None sample_user 1000 false)
              (mkStore [] false)
              (mkSub "C1" 1 [modify9] false true 0 [] None sample_user 1000 false)
              (mkStore [] false) eq_refl eq_refl) as (Hinv & _).
  exact Hinv.
Defined.

Lemma run_ops_store_isolation_witness :
  rows_of_others "C1" (mkStore [mkFsEvent 2 "C2" modify9; mkFsEvent 1 "C1" modify9] false)
  = [mkFsEvent 2 "C2" modify9].
Proof.
  destruct (run_ops_store_isolation sample_uuid sample_users
              [OpSetOffline 4000; OpFlush]
              sub_online (mkStore [mkFsEvent 2 "C2" modify9] false)
              (mkSub "C1" 1 [] false false 4000 [] None sample_user 1000 false)
              (mkStore [mkFsEvent 2 "C2" modify9; mkFsEvent 1 "C1" modify9] false)
              eq_refl) as [Hrows _].
  exact Hrows.
Defined.

Lemma closed_subscriber_inert_witness :
  ∃ s', run_ops sample_uuid sample_users resume_then_publish sub_closed (mkStore [] false)
        = Done (s', mkStore [] false)
      ∧ closed s' = true ∧ ch s' = ch sub_closed ∧ buffer s' = buffer sub_closed
      ∧ online s' = online sub_closed ∧ offlineSince s' = offlineSince sub_closed.
Proof.
  apply (closed_subscriber_inert sample_uuid sample_users resume_then_publish sub_closed).
  reflexivity.
Defined.


Lemma Subscribe_new_witness :
  ∃ l h',
    Subscribe sample_IsAnonymousUser sample_uuid (NewEventHub (mkStore [] false))
      sample_user 42 "C1" 1000 = (Subscribed l false, h')
    ∧ heap (NewEventHub (mkStore [] false)) !! l = None
    ∧ heap h'
      = <[l := mkSub "C1" 1 [] false true 0 [] None sample_user 1000 false]>
          (heap (NewEventHub (mkStore [] false)))
    ∧ registered h' 42 "C1" = Some l.
Proof.
  destruct (Subscribe_new sample_IsAnonymousUser sample_uuid (NewEventHub (mkStore [] false))
              sample_user 42 "C1" 1000
              (mkSub "C1" 1 [] false true 0 [] None sample_user 1000 false)
              eq_refl eq_refl eq_refl)
    as (l & h' & Hsub & Hfresh & Hheap & Hreg & _).
  exists l, h'. done.
Defined.

Lemma relativePath_rooted_witness :
  relativePath string sample_Uri_Path "/" (mkFound string 0 "/a") "/a/b" = Done "/b"
  ∧ relativePath string sample_Uri_Path "/" (mkFound string 0 "/a") "/a" = Done "/".
Proof.
  destruct (relativePath_rooted string sample_Uri_Path "/" (mkFound string 0 "/a") "/a/b" (Ascii.Ascii true true true true false true false false)
              EmptyString eq_refl) as (_ & Hrel & _).
  destruct (relativePath_rooted string sample_Uri_Path "/" (mkFound string 0 "/a") "/a" (Ascii.Ascii true true true true false true false false)
              EmptyString eq_refl) as (_ & _ & Hsame).
  split; [apply Hrel | apply Hsame]; reflexivity.
Defined.

Lemma emitFileCreated_no_echo_witness :
  ∃ h',
    emitFileCreated string sample_Model_ID sample_Uri_Path sample_Ancestors sample_AncestorsChain
      sample_EncodeFileID "/" hub_subscribed (Some "C1") "/a/b" 2000 = Done h'
    ∧ heap h' !! 0%nat = Some (mkSub "C1" 1 [] false true 0 [] None sample_user 1000 false).
Proof.
  destruct (emitFileCreated_no_echo string sample_Model_ID sample_Uri_Path sample_Ancestors
              sample_AncestorsChain sample_EncodeFileID "/" hub_subscribed "C1" "/a/b" 2000
              (Ascii.Ascii true true true true false true false false) EmptyString eq_refl) as (h' & Hrun & _ & _ & _ & Hkeep).
  exists h'. split; [exact Hrun|].
  apply Hkeep; [vm_compute; reflexivity | reflexivity].
Defined.

Lemma emitFileCreated_fan_out_witness :
  ∃ h' evs,
    emitFileCreated string sample_Model_ID sample_Uri_Path sample_Ancestors sample_AncestorsChain
      sample_EncodeFileID "/" hub_subscribed (Some "C2") "/a/b" 2000 = Done h'
    ∧ heap h' !! 0%nat
      = Some (published (mkSub "C1" 1 [] false true 0 [] None sample_user 1000 false)
                evs 2000)
    ∧ mkEvent EventTypeCreate "f7" "/b" EmptyString ∈ evs.
Proof.
  destruct (emitFileCreated_fan_out string sample_Model_ID sample_Uri_Path sample_Ancestors
              sample_AncestorsChain sample_EncodeFileID "/" hub_subscribed (Some "C2")
              "/a/b" 2000 (Ascii.Ascii true true true true false true false false) EmptyString eq_refl) as (h' & Hrun & Hall).
  destruct (Hall "/a" "C1" 0%nat
              (mkSub "C1" 1 [] false true 0 [] None sample_user 1000 false))
    as (evs & Hh & Hin & _);
    [by left | vm_compute; reflexivity | vm_compute; reflexivity | reflexivity
    | discriminate |].
  exists h', evs. split; [exact Hrun|]. split; [exact Hh | exact Hin].
Defined.

End Witnesses.
